(** * ReadWrite workload (fdbserver/workloads/ReadWrite.actor.cpp)

    A shallow embedding of the ReadWrite load generator: the metrics window
    ([shouldRecord]), the ramp ([sweepAlpha]), the key distribution
    ([getRandomKey]), the per-transaction retry loop of
    [randomReadWriteClient] and the shared read-version cache
    ([getInconsistentReadVersion]).

    Numbers.  A C++ [double] is modelled by a rational ([Q]).  Where a
    double is turned into an integer (the bound and the result of the hot
    draw of [getRandomKey], the [ceil] that gives [actorCount]) each
    operation rounds its exact result to the nearest double ([double], ties
    to even, 53 bits); times, latencies and the ramp are kept exact.  A
    computation that leaves the finite doubles (division by zero) or converts
    a double that does not fit the target integer type has no value in the
    model ([None], or a [fault]).  Fixed-width integers are [Z]; conversions
    between integer types wrap, and sums of [int] loop counters are taken not
    to overflow. *)

From Stdlib Require Import ZArith QArith Qround Qminmax Qpower Qabs.
From Stdlib Require Import List Bool Lia Lqa.
From Stdlib Require String SpecFloat.
Import String.StringSyntax.
Delimit Scope string_scope with string.
Import ListNotations.

Local Open Scope Z_scope.

(** ** Doubles and machine integers *)

Module Num.

(** [a < b] on doubles, as a boolean. *)
Definition Qltb (a b : Q) : bool := negb (Qle_bool b a).

(** A double used as a condition: true unless it is zero. *)
Definition truthy (a : Q) : bool := negb (Qeq_bool a 0).

(** Conversion of a double to an integer type drops the fraction
    (rounds toward zero). *)
Definition Qtrunc (a : Q) : Z := Z.quot (Qnum a) (Zpos (Qden a)).

(** Division of doubles; a zero divisor leaves the finite doubles. *)
Definition fdiv (a b : Q) : option Q :=
  if Qeq_bool b 0 then None else Some (a / b)%Q.

Definition int_min : Z := - 2 ^ 31.
Definition int_max : Z := 2 ^ 31 - 1.
Definition int64_min : Z := - 2 ^ 63.
Definition int64_max : Z := 2 ^ 63 - 1.

(** [(int)d]: undefined when the truncated value is not an [int]. *)
Definition double_to_int (d : Q) : option Z :=
  let z := Qtrunc d in
  if (int_min <=? z) && (z <=? int_max) then Some z else None.

(** [(int64_t)d]: undefined when the truncated value is not an [int64_t]. *)
Definition double_to_int64 (d : Q) : option Z :=
  let z := Qtrunc d in
  if (int64_min <=? z) && (z <=? int64_max) then Some z else None.

(** Integer conversions that wrap (two's complement). *)
Definition to_uint64 (z : Z) : Z := z mod 2 ^ 64.
Definition to_int64 (z : Z) : Z := (z + 2 ^ 63) mod 2 ^ 64 - 2 ^ 63.
Definition to_int (z : Z) : Z := (z + 2 ^ 31) mod 2 ^ 32 - 2 ^ 31.

(** *** Rounding to a double (IEEE 754 binary64, round to nearest even) *)

Definition pow2 (e : Z) : Q := (2 ^ e)%Q.

(** The position of the leading bit of [x > 0]: the [e] with
    [2^e <= x < 2^(e+1)]. *)
Definition Qlog2 (x : Q) : Z :=
  let e := Z.log2 (Qnum x) - Z.log2 (Zpos (Qden x)) in
  if Qle_bool (pow2 e) x then e else e - 1.

(** The nearest integer, the even one of two that are as near. *)
Definition round_even (q : Q) : Z :=
  let f := Qfloor q in
  match (q - inject_Z f ?= 1 # 2)%Q with
  | Lt => f
  | Gt => f + 1
  | Eq => if Z.even f then f else f + 1
  end.

(** The exponent of the last of the 53 bits kept for [x > 0]; it is no less
    than -1074, that of the subnormal doubles. *)
Definition quantum (x : Q) : Z := Z.max (Qlog2 x - 52) (- 1074).

Definition round_pos (x : Q) : Q :=
  (inject_Z (round_even (x / pow2 (quantum x))) * pow2 (quantum x))%Q.

(** The double nearest to [x].  A result beyond the largest double (an
    infinity in the code) is left as the rational it rounds to: the code
    modelled here converts it to an integer at once, which it does not
    fit. *)
Definition double (x : Q) : Q :=
  match (x ?= 0)%Q with
  | Eq => 0%Q
  | Gt => round_pos x
  | Lt => (- round_pos (- x))%Q
  end.

(** An integer converted to a double, and the rounded product and quotient
    of two doubles. *)
Definition of_integer (z : Z) : Q := double (inject_Z z).

Definition fmul (a b : Q) : Q := double (a * b).

Definition fquot (a b : Q) : option Q :=
  match fdiv a b with
  | Some q => Some (double q)
  | None => None
  end.

(** The same conversion, product and quotient in the Standard Library's
    specification of binary64 ([SpecFloat], 53 bits, exponents up to 1024),
    to compare [double] with: [agrees (a, b, c, d)] compares them on the
    doubles [x = a / b] and [y = c / d], their product and their quotient. *)
Definition binary64_value (f : SpecFloat.spec_float) : Q :=
  match f with
  | SpecFloat.S754_finite s m e =>
    ((if s then - 1 else 1) * (inject_Z (Zpos m) * pow2 e))%Q
  | _ => 0%Q
  end.

Definition binary64_of_Z (z : Z) : SpecFloat.spec_float :=
  SpecFloat.binary_normalize 53 1024 z 0 false.

Definition agrees (operands : Z * Z * Z * Z) : bool :=
  let '(a, b, c, d) := operands in
  let x := SpecFloat.SFdiv 53 1024 (binary64_of_Z a) (binary64_of_Z b) in
  let y := SpecFloat.SFdiv 53 1024 (binary64_of_Z c) (binary64_of_Z d) in
  Qeq_bool (binary64_value (binary64_of_Z a)) (of_integer a)
  && Qeq_bool (binary64_value x) (double (of_integer a / of_integer b))
  && Qeq_bool (binary64_value y) (double (of_integer c / of_integer d))
  && Qeq_bool (binary64_value (SpecFloat.SFmul 53 1024 x y))
              (fmul (binary64_value x) (binary64_value y))
  && Qeq_bool (binary64_value (SpecFloat.SFdiv 53 1024 x y))
              (double (binary64_value x / binary64_value y)).

End Num.

Export Num.

(** ** The workload object *)

(** The fields of [ReadWriteWorkload] (and of its base [KVWorkload]) that the
    client code reads.  The metric aggregates are kept apart, in [metrics]. *)
Record ReadWriteWorkload := {
  (* KVWorkload *)
  nodeCount : Z;            (* uint64_t *)
  actorCount : Z;
  clientId : Z;
  clientCount : Z;
  minValueBytes : Z;
  maxValueBytes : Z;
  (* ReadWriteWorkload *)
  readsPerTransactionA : Z;
  writesPerTransactionA : Z;
  readsPerTransactionB : Z;
  writesPerTransactionB : Z;
  extraReadConflictRangesPerTransaction : Z;
  extraWriteConflictRangesPerTransaction : Z;
  testDuration : Q;
  alpha : Q;
  debugInterval : Q;
  debugTime : Q;
  metricsStart : Q;
  metricsDuration : Q;
  clientBegin : Q;
  dependentReads : bool;
  inconsistentReads : bool;
  adjacentReads : bool;
  adjacentWrites : bool;
  rampUpLoad : bool;
  rampSweepCount : Z;       (* int *)
  hotKeyFraction : Q;
  forceHotProbability : Q;
  rangeReads : bool;
  rampTransactionType : bool;
  rampUpConcurrency : bool
}.

(** *** Construction: the parts of the constructor that derive fields *)

(** [getOption(options, name, default)]. *)
Definition getOption {A : Type} (opt : option A) (default : A) : A :=
  match opt with Some v => v | None => default end.

(** Lines 151-157: the metrics window, shrunk to the middle 3/4 of the test
    when [discardEdgeMeasurements] is set (the default). *)
Definition metricsWindow (testDuration : Q)
    (optMetricsStart optMetricsDuration : option Q)
    (optDiscardEdgeMeasurements : option bool) : Q * Q :=
  let metricsStart := getOption optMetricsStart 0%Q in
  let metricsDuration := getOption optMetricsDuration testDuration in
  if getOption optDiscardEdgeMeasurements true
  then ((metricsStart + testDuration * (125 # 1000))%Q,
        (metricsDuration * (75 # 100))%Q)
  else (metricsStart, metricsDuration).

(** Lines 202-213: the hot-key options.  [None] when an [ASSERT] fails or the
    division has a zero divisor; otherwise
    [(hotKeyFraction, forceHotProbability)]. *)
Definition hotKeyOptions (optHotKeyFraction optHotTrafficFraction : option Q)
    : option (Q * Q) :=
  let hotKeyFraction := getOption optHotKeyFraction 0%Q in
  let hotTrafficFraction := getOption optHotTrafficFraction 0%Q in
  if negb (Qle_bool 0 hotKeyFraction && Qle_bool hotTrafficFraction 1) then None
  else if negb (Qle_bool hotKeyFraction hotTrafficFraction) then None
  else match fdiv (hotTrafficFraction - hotKeyFraction) (1 - hotKeyFraction) with
       | Some fhp => Some (hotKeyFraction, fhp)
       | None => None
       end.

(** ** The metrics window: [shouldRecord] *)

(** Lines 494-497. *)
Definition shouldRecord (self : ReadWriteWorkload) (checkTime : Q) : bool :=
  let timeSinceStart := (checkTime - clientBegin self)%Q in
  Qle_bool (metricsStart self) timeSinceStart
  && Qltb timeSinceStart (metricsStart self + metricsDuration self).

(** ** The ramp: [sweepAlpha] *)

(** Lines 506-513, with [now()] passed in. *)
Definition sweepAlpha (self : ReadWriteWorkload) (now startTime : Q) : option Q :=
  match fdiv (testDuration self) (inject_Z (rampSweepCount self)) with
  | None => None
  | Some sweepDuration =>
    match fdiv (now - startTime) sweepDuration with
    | None => None
    | Some numSweeps =>
      match double_to_int numSweeps with
      | None => None
      | Some currentSweep =>
        let alpha := (numSweeps - inject_Z currentSweep)%Q in
        Some (if Z.rem currentSweep 2 =? 0 then alpha else (1 - alpha)%Q)
      end
    end
  end.

(** The local [numSweeps] of [sweepAlpha]: the sweeps gone by at [now]. *)
Definition numSweeps (self : ReadWriteWorkload) (now startTime : Q) : Q :=
  ((now - startTime) / (testDuration self / inject_Z (rampSweepCount self)))%Q.

(** ** The random source

    The client code uses [g_random] through [random01()], compared against a
    threshold, and through [randomInt]/[randomInt64] on a half-open range.
    Code that draws is written as a tree of draws ([Rand]), which is then
    read in two ways: [run] feeds it explicit draws, [prob] computes the
    probability of an event of its result. *)

Inductive fault : Type :=
  | EmptyRange (lo hi : Z)   (* randomInt(lo, hi) with lo >= hi *)
  | DivideByZero             (* a double divided by zero *)
  | BadConversion            (* a double that does not fit the integer type *)
  | NoValue                  (* an operand that has no value in the model *)
  | BadIndex                 (* a vector indexed outside its bounds *)
  | NoDraw.                  (* the draws supplied do not answer the call *)

Inductive Rand (A : Type) : Type :=
  | Ret (a : A)
  | Less01 (p : Q) (k : bool -> Rand A)     (* k (random01() < p) *)
  | Greater01 (p : Q) (k : bool -> Rand A)  (* k (random01() > p) *)
  | IntDraw (lo hi : Z) (k : Z -> Rand A)   (* k (randomInt64(lo, hi)) *)
  | Undefined (f : fault).

Arguments Ret {A} a.
Arguments Less01 {A} p k.
Arguments Greater01 {A} p k.
Arguments IntDraw {A} lo hi k.
Arguments Undefined {A} f.

Fixpoint rbind {A B : Type} (c : Rand A) (f : A -> Rand B) : Rand B :=
  match c with
  | Ret a => f a
  | Less01 p k => Less01 p (fun b => rbind (k b) f)
  | Greater01 p k => Greater01 p (fun b => rbind (k b) f)
  | IntDraw lo hi k => IntDraw lo hi (fun z => rbind (k z) f)
  | Undefined e => Undefined e
  end.

Declare Scope rand_scope.
Delimit Scope rand_scope with rand.
Notation "x <- c ;; k" := (rbind c (fun x => k))
  (at level 61, c at next level, right associativity) : rand_scope.

(** Modelled from the spec: [g_random] (flow's [IRandom]) is declared outside
    ReadWrite.actor.cpp.  [randomInt64(min, maxPlusOne)] (and [randomInt])
    gives an index of the half-open range [min, maxPlusOne); an empty range
    has none. *)
Definition randomInt64 (min maxPlusOne : Z) : Rand Z :=
  if min <? maxPlusOne then IntDraw min maxPlusOne Ret
  else Undefined (EmptyRange min maxPlusOne).

Definition randomInt (min maxPlusOne : Z) : Rand Z := randomInt64 min maxPlusOne.

(** An operand that may have no value. *)
Definition defined {A : Type} (o : option A) (f : fault) : Rand A :=
  match o with Some a => Ret a | None => Undefined f end.

(** *** Reading a tree with explicit draws *)

Inductive draw : Type :=
  | U01 (u : Q)     (* a result of random01(), in [0, 1) *)
  | I64 (z : Z)     (* a result of randomInt64 *)
  | UID (id : Z).   (* a result of randomUniqueID *)

Inductive call : Type :=
  | CallRandom01
  | CallRandomInt64 (lo hi : Z).

Inductive result (A : Type) : Type :=
  | Value (a : A)
  | Faulted (f : fault)
  | Starved.        (* the list of draws does not answer the call made *)

Arguments Value {A} a.
Arguments Faulted {A} f.
Arguments Starved {A}.

Definition unit_draw (u : Q) : bool := Qle_bool 0 u && Qltb u 1.

(** [run c ds] is the result of [c] on the draws [ds], with the draws left
    over and the calls made to the random source, in order. *)
Fixpoint run {A : Type} (c : Rand A) (ds : list draw)
    : result A * list draw * list call :=
  match c with
  | Ret a => (Value a, ds, [])
  | Undefined f =>
    (Faulted f, ds,
     match f with EmptyRange lo hi => [CallRandomInt64 lo hi] | _ => [] end)
  | Less01 p k =>
    match ds with
    | U01 u :: ds' =>
      if unit_draw u
      then let '(r, rest, calls) := run (k (Qltb u p)) ds' in
           (r, rest, CallRandom01 :: calls)
      else (Starved, ds, [])
    | _ => (Starved, ds, [])
    end
  | Greater01 p k =>
    match ds with
    | U01 u :: ds' =>
      if unit_draw u
      then let '(r, rest, calls) := run (k (Qltb p u)) ds' in
           (r, rest, CallRandom01 :: calls)
      else (Starved, ds, [])
    | _ => (Starved, ds, [])
    end
  | IntDraw lo hi k =>
    match ds with
    | I64 z :: ds' =>
      if (lo <=? z) && (z <? hi)
      then let '(r, rest, calls) := run (k z) ds' in
           (r, rest, CallRandomInt64 lo hi :: calls)
      else (Starved, ds, [])
    | _ => (Starved, ds, [])
    end
  end.

(** *** Reading a tree as a distribution *)

(** The probability that a uniform draw of [0, 1) is below [p]. *)
Definition clamp01 (p : Q) : Q := Qmax 0 (Qmin 1 p).

(** [sumQ f n] is [f 0 + ... + f (n - 1)]. *)
Fixpoint sumQ (f : Z -> Q) (n : nat) : Q :=
  match n with
  | O => 0%Q
  | S n' => (sumQ f n' + f (Z.of_nat n'))%Q
  end.

(** Modelled from the spec: the distribution of [g_random]'s draws, which
    the spec calls uniform ("a uniform random draw", "a uniform index over
    the full range").  [prob c ev] is the probability that [c] returns a
    value satisfying [ev] when [random01()] is uniform on [0, 1) and
    [randomInt64(lo, hi)] is uniform on the integers of [lo, hi). *)
Fixpoint prob {A : Type} (c : Rand A) (ev : A -> bool) : Q :=
  match c with
  | Ret a => if ev a then 1%Q else 0%Q
  | Undefined _ => 0%Q
  | Less01 p k =>
    (clamp01 p * prob (k true) ev + (1 - clamp01 p) * prob (k false) ev)%Q
  | Greater01 p k =>
    ((1 - clamp01 p) * prob (k true) ev + clamp01 p * prob (k false) ev)%Q
  | IntDraw lo hi k =>
    if lo <? hi
    then (sumQ (fun i => prob (k (lo + i)%Z) ev) (Z.to_nat (hi - lo))
          / inject_Z (hi - lo))%Q
    else 0%Q
  end.

(** ** The key distribution: [getRandomKey] *)

(** Lines 499-504.  [nodeCount] is a [uint64_t]; the bound of the hot draw is
    the double [nodeCount*hotKeyFraction] (the product of [nodeCount] as a
    double and [hotKeyFraction], rounded) converted to [int64_t], and the
    hot result is the double [r / hotKeyFraction] (the quotient of [r] as a
    double and [hotKeyFraction], rounded) converted to [int64_t]. *)
Definition getRandomKey (self : ReadWriteWorkload) (nodeCount : Z) : Rand Z :=
  (hot <- (if truthy (forceHotProbability self)
           then Less01 (forceHotProbability self) Ret
           else Ret false) ;;
   if hot then
     maxPlusOne <- defined (double_to_int64
                     (fmul (of_integer nodeCount) (hotKeyFraction self)))
                     BadConversion ;;
     r <- randomInt64 0 maxPlusOne ;;
     q <- defined (fquot (of_integer r) (hotKeyFraction self)) DivideByZero ;;
     defined (double_to_int64 q) BadConversion
   else
     randomInt64 0 (to_int64 nodeCount))%rand.

(** The multiples of ten: the indices the hot branch can return when
    [hotKeyFraction] is 0.1. *)
Definition tenth (k : Z) : bool := k mod 10 =? 0.

(** ** Choosing the transaction: lines 538-549 of [randomReadWriteClient] *)

(** Line 538: whether this iteration runs a transaction at all. *)
Definition runsTransaction (self : ReadWriteWorkload) (now startTime : Q)
    : Rand bool :=
  if rampUpLoad self
  then (a <- defined (sweepAlpha self now startTime) NoValue ;;
        Less01 a Ret)%rand
  else Ret true.

(** Line 541: [aTransaction]. *)
Definition aTransaction (self : ReadWriteWorkload) (now startTime : Q)
    : Rand bool :=
  if rampTransactionType self
  then (a <- defined (sweepAlpha self now startTime) NoValue ;;
        Greater01 a Ret)%rand
  else Greater01 (alpha self) Ret.

(** Lines 546-549. *)
Definition reads (self : ReadWriteWorkload) (aTransaction : bool) : Z :=
  if aTransaction then readsPerTransactionA self else readsPerTransactionB self.

Definition writes (self : ReadWriteWorkload) (aTransaction : bool) : Z :=
  if aTransaction then writesPerTransactionA self else writesPerTransactionB self.

Definition extra_read_conflict_ranges (self : ReadWriteWorkload) (writes : Z) : Z :=
  if writes =? 0 then 0 else extraReadConflictRangesPerTransaction self.

Definition extra_write_conflict_ranges (self : ReadWriteWorkload) (writes : Z) : Z :=
  if writes =? 0 then 0 else extraWriteConflictRangesPerTransaction self.

(** [n] draws of [c], in order. *)
Fixpoint rrepeat {A : Type} (n : nat) (c : Rand A) : Rand (list A) :=
  match n with
  | O => Ret []
  | S n' => (x <- c ;; xs <- rrepeat n' c ;; Ret (x :: xs))%rand
  end.

(** The values [0, 1, ..., n - 1] of a loop counter [op]. *)
Definition range (n : Z) : list Z := map Z.of_nat (seq 0 (Z.to_nat n)).

(** Lines 550-558: the keys to read.  [startKey] is an [int]. *)
Definition chooseKeys (self : ReadWriteWorkload) (reads : Z) : Rand (list Z) :=
  if negb (adjacentReads self)
  then rrepeat (Z.to_nat reads) (getRandomKey self (nodeCount self))
  else (k <- getRandomKey self (to_uint64 (nodeCount self - reads)) ;;
        let startKey := to_int k in
        Ret (map (fun op => startKey + op) (range reads)))%rand.

(** Line 301: [randomValue], a value by its length. *)
Definition randomValue (self : ReadWriteWorkload) : Rand Z :=
  randomInt (minValueBytes self) (maxValueBytes self + 1).

(** ** The metric aggregates *)

(** The [ContinuousSample] reservoirs and the counters of the workload.
    The event metrics ([transactionSuccessMetric], [transactionFailureMetric],
    [readMetric]) and the trace batch only feed the tracing and are left
    out. *)
Inductive sample : Type :=
  latencies | readLatencies | fullReadLatencies | commitLatencies | GRVLatencies.

Inductive counter : Type :=
  | aTransactions | bTransactions | retries
  | totalReadsMetric | totalRetriesMetric | readLatencyCount.

(** Modelled from the spec: [ContinuousSample] (fdbrpc/ContinuousSample.h) is
    declared outside ReadWrite.actor.cpp.  A reservoir is kept as the list of
    the samples offered to [addSample], oldest first; which of them a full
    reservoir retains is not modelled. *)
Record metrics := {
  samples_latencies : list Q;
  samples_readLatencies : list Q;
  samples_fullReadLatencies : list Q;
  samples_commitLatencies : list Q;
  samples_GRVLatencies : list Q;
  count_aTransactions : Z;
  count_bTransactions : Z;
  count_retries : Z;
  count_totalReadsMetric : Z;
  count_totalRetriesMetric : Z;
  count_readLatencyCount : Z;
  readLatencyTotal : Q
}.

Definition samples (m : metrics) (s : sample) : list Q :=
  match s with
  | latencies => samples_latencies m
  | readLatencies => samples_readLatencies m
  | fullReadLatencies => samples_fullReadLatencies m
  | commitLatencies => samples_commitLatencies m
  | GRVLatencies => samples_GRVLatencies m
  end.

Definition count (m : metrics) (c : counter) : Z :=
  match c with
  | aTransactions => count_aTransactions m
  | bTransactions => count_bTransactions m
  | retries => count_retries m
  | totalReadsMetric => count_totalReadsMetric m
  | totalRetriesMetric => count_totalRetriesMetric m
  | readLatencyCount => count_readLatencyCount m
  end.

Inductive update : Type :=
  | AddSample (s : sample) (x : Q)   (* s.addSample(x) *)
  | Incr (c : counter)               (* ++c *)
  | AddReadLatencyTotal (x : Q).     (* readLatencyTotal += x *)

Definition apply_update (u : update) (m : metrics) : metrics :=
  let '(Build_metrics l rl frl cl grv a b r tr trt rlc rlt) := m in
  match u with
  | AddSample latencies x => Build_metrics (l ++ [x]) rl frl cl grv a b r tr trt rlc rlt
  | AddSample readLatencies x => Build_metrics l (rl ++ [x]) frl cl grv a b r tr trt rlc rlt
  | AddSample fullReadLatencies x => Build_metrics l rl (frl ++ [x]) cl grv a b r tr trt rlc rlt
  | AddSample commitLatencies x => Build_metrics l rl frl (cl ++ [x]) grv a b r tr trt rlc rlt
  | AddSample GRVLatencies x => Build_metrics l rl frl cl (grv ++ [x]) a b r tr trt rlc rlt
  | Incr aTransactions => Build_metrics l rl frl cl grv (a + 1) b r tr trt rlc rlt
  | Incr bTransactions => Build_metrics l rl frl cl grv a (b + 1) r tr trt rlc rlt
  | Incr retries => Build_metrics l rl frl cl grv a b (r + 1) tr trt rlc rlt
  | Incr totalReadsMetric => Build_metrics l rl frl cl grv a b r (tr + 1) trt rlc rlt
  | Incr totalRetriesMetric => Build_metrics l rl frl cl grv a b r tr (trt + 1) rlc rlt
  | Incr readLatencyCount => Build_metrics l rl frl cl grv a b r tr trt (rlc + 1) rlt
  | AddReadLatencyTotal x => Build_metrics l rl frl cl grv a b r tr trt rlc (rlt + x)%Q
  end.

(** ** The store, the clock and the actor monad *)

Definition Error : Type := Z.     (* a flow error code *)

(** What one awaited future of the store does: it fires after [delay]
    seconds (with a value, read where the future carries a [Version]), or it
    fails after [delay] seconds. *)
Inductive reply : Type :=
  | Done (delay : Q) (v : Z)
  | Failed (delay : Q) (e : Error).

(** The operations of the transaction interface, as the client issues them.
    Keys are given by their index ([keyForIndex] belongs to [KVWorkload]),
    values by their length, conflict ranges by the unique ID they are made
    of. *)
Inductive txop : Type :=
  | OpDebugTransaction (debugID : Z)
  | OpGetReadVersion
  | OpGetInconsistentReadVersion
  | OpSetVersion (v : Z)
  | OpGet (index : Z)
  | OpGetRange (index : Z)
  | OpSet (index : Z) (value : Z)
  | OpAddReadConflictRange (r : Z)
  | OpAddWriteConflictRange (r : Z)
  | OpCommit
  | OpOnError (e : Error).

(** The world one client actor runs in.  [replies] answers its waits in the
    order they are made; [draws] is what [g_random] will return; [trace] is
    the operations issued so far, oldest first, each with the time of issue. *)
Record world := {
  clock : Q;
  replies : list reply;
  draws : list draw;
  trace : list (Q * txop);
  aggregates : metrics
}.

(** The next [n] replies are taken and [d] seconds go by. *)
Definition advance (n : nat) (d : Q) (w : world) : world :=
  {| clock := (clock w + d)%Q; replies := skipn n (replies w);
     draws := draws w; trace := trace w; aggregates := aggregates w |}.

Definition set_draws (ds : list draw) (w : world) : world :=
  {| clock := clock w; replies := replies w; draws := ds;
     trace := trace w; aggregates := aggregates w |}.

Definition emit (op : txop) (w : world) : world :=
  {| clock := clock w; replies := replies w; draws := draws w;
     trace := trace w ++ [(clock w, op)]; aggregates := aggregates w |}.

Definition account (u : update) (w : world) : world :=
  {| clock := clock w; replies := replies w; draws := draws w;
     trace := trace w; aggregates := apply_update u (aggregates w) |}.

(** How a piece of actor code ends. *)
Inductive outcome (A : Type) : Type :=
  | Ok (a : A)          (* it returns *)
  | Throw (e : Error)   (* it throws a flow [Error] *)
  | Never               (* it waits on a future that never fires *)
  | Stuck (f : fault)   (* it has no defined behaviour *)
  | Exhausted.          (* the bound put on a loop was reached *)

Arguments Ok {A} a.
Arguments Throw {A} e.
Arguments Never {A}.
Arguments Stuck {A} f.
Arguments Exhausted {A}.

Definition M (A : Type) : Type := world -> outcome A * world.

Definition ret {A : Type} (a : A) : M A := fun w => (Ok a, w).

Definition bind {A B : Type} (c : M A) (f : A -> M B) : M B :=
  fun w =>
    match c w with
    | (Ok a, w') => f a w'
    | (Throw e, w') => (Throw e, w')
    | (Never, w') => (Never, w')
    | (Stuck x, w') => (Stuck x, w')
    | (Exhausted, w') => (Exhausted, w')
    end.

(** [try { c } catch (Error& e) { h e }]. *)
Definition catch {A : Type} (c : M A) (h : Error -> M A) : M A :=
  fun w =>
    match c w with
    | (Throw e, w') => h e w'
    | r => r
    end.

Declare Scope actor_scope.
Delimit Scope actor_scope with actor.
Notation "x <- c ;; k" := (bind c (fun x => k))
  (at level 61, c at next level, right associativity) : actor_scope.
Notation "c ;; k" := (bind c (fun _ => k))
  (at level 61, right associativity) : actor_scope.

Local Open Scope actor_scope.

(** [now()]. *)
Definition now : M Q := fun w => (Ok (clock w), w).

(** An operation that does not suspend ([set], [addReadConflictRange], ...). *)
Definition issue (op : txop) : M unit := fun w => (Ok tt, emit op w).

(** [wait(op)]: the operation is issued and the actor suspends until the
    store answers. *)
Definition wait (op : txop) : M Z :=
  fun w =>
    let w1 := emit op w in
    match replies w1 with
    | [] => (Never, w1)
    | Done d v :: _ => (Ok v, advance 1 d w1)
    | Failed d e :: _ => (Throw e, advance 1 d w1)
    end.

(** Code that draws from [g_random]. *)
Definition rand {A : Type} (c : Rand A) : M A :=
  fun w =>
    match run c (draws w) with
    | (Value a, rest, _) => (Ok a, set_draws rest w)
    | (Faulted f, rest, _) => (Stuck f, set_draws rest w)
    | (Starved, rest, _) => (Stuck NoDraw, set_draws rest w)
    end.

(** [g_random->randomUniqueID()]. *)
Definition randomUniqueID : M Z :=
  fun w =>
    match draws w with
    | UID id :: rest => (Ok id, set_draws rest w)
    | _ => (Stuck NoDraw, w)
    end.

Definition modify (u : update) : M unit := fun w => (Ok tt, account u w).

Definition when (b : bool) (c : M unit) : M unit := if b then c else ret tt.

Fixpoint forEach {A : Type} (l : list A) (body : A -> M unit) : M unit :=
  match l with
  | [] => ret tt
  | x :: l' => body x ;; forEach l' body
  end.

Fixpoint collect {A : Type} (n : nat) (c : M A) : M (list A) :=
  match n with
  | O => ret []
  | S n' => x <- c ;; xs <- collect n' c ;; ret (x :: xs)
  end.

(** [v[i]] on a vector. *)
Definition index {A : Type} (v : list A) (i : Z) : M A :=
  fun w =>
    match (if i <? 0 then None else nth_error v (Z.to_nat i)) with
    | Some a => (Ok a, w)
    | None => (Stuck BadIndex, w)
    end.

(** [self->shouldRecord()], lines 490-492. *)
Definition shouldRecordNow (self : ReadWriteWorkload) : M bool :=
  t <- now ;; ret (shouldRecord self t).

(** ** Reads: [logLatency] and [readOp] *)

Definition getOp (self : ReadWriteWorkload) (key : Z) : txop :=
  if rangeReads self then OpGetRange key else OpGet key.

(** Lines 385-388: what [logLatency] records once its read is done. *)
Definition logged (shouldRecord : bool) (latency : Q) : M unit :=
  when shouldRecord
    (modify (AddReadLatencyTotal latency) ;;
     modify (Incr readLatencyCount) ;;
     modify (AddSample readLatencies latency)).

(** Lines 377-390: [logLatency] waited for on its own. *)
Definition logLatency (op : txop) (shouldRecord : bool) : M unit :=
  readBegin <- now ;;
  _ <- wait op ;;
  t <- now ;;
  logged shouldRecord (t - readBegin)%Q.

(** The readers of a parallel [readOp] all start at the same instant; reader
    [i] is answered by the [i]-th of the next replies.  [waitForAll] returns
    when the last one is done, and throws as soon as one fails: the readers
    done before that instant have logged their latency, the others are
    dropped with the vector of readers.  Each reader logs its latency when
    its read is done: the latencies are logged in the order of completion,
    readers done at the same instant in the order they were started. *)
Definition delay_of (r : reply) : Q :=
  match r with Done d _ => d | Failed d _ => d end.

Fixpoint first_failure (rs : list reply) : option (Q * Error) :=
  match rs with
  | [] => None
  | Done _ _ :: rs' => first_failure rs'
  | Failed d e :: rs' =>
    match first_failure rs' with
    | Some (d', e') => if Qltb d' d then Some (d', e') else Some (d, e)
    | None => Some (d, e)
    end
  end.

Definition max_delay (rs : list reply) : Q :=
  fold_right (fun r acc => Qmax (delay_of r) acc) 0%Q rs.

Definition done_before (d : Q) (r : reply) : bool :=
  match r with Done d' _ => Qltb d' d | Failed _ _ => false end.

Definition pending (n : nat) : M (list reply) :=
  fun w => (Ok (firstn n (replies w)), w).

Definition settle (n : nat) (d : Q) : M unit :=
  fun w => (Ok tt, advance n d w).

Definition throw {A : Type} (e : Error) : M A := fun w => (Throw e, w).

Definition never {A : Type} : M A := fun w => (Never, w).

Fixpoint insert_by_delay (r : reply) (rs : list reply) : list reply :=
  match rs with
  | [] => [r]
  | r' :: rs' =>
    if Qle_bool (delay_of r) (delay_of r') then r :: rs
    else r' :: insert_by_delay r rs'
  end.

Definition completion_order (rs : list reply) : list reply :=
  fold_right insert_by_delay [] rs.

Definition waitForAll (n : nat) (shouldRecord : bool) : M unit :=
  rs <- pending n ;;
  match first_failure rs with
  | Some (d, e) =>
    settle n d ;;
    forEach (completion_order (filter (done_before d) rs))
            (fun r => logged shouldRecord (delay_of r)) ;;
    throw e
  | None =>
    settle n (max_delay rs) ;;
    forEach (completion_order rs)
            (fun r => logged shouldRecord (delay_of r)) ;;
    if (length rs <? n)%nat then never else ret tt
  end.

(** Lines 407-434: [readOp]. *)
Definition readOp (self : ReadWriteWorkload) (keys : list Z)
    (shouldRecord : bool) : M unit :=
  if (length keys =? 0)%nat then ret tt
  else if negb (dependentReads self) then
    forEach keys (fun key =>
      modify (Incr totalReadsMetric) ;; issue (getOp self key)) ;;
    waitForAll (length keys) shouldRecord
  else
    forEach keys (fun key =>
      modify (Incr totalReadsMetric) ;; logLatency (OpGet key) shouldRecord).

(** ** One transaction of [randomReadWriteClient] *)

(** The state variables filled in before the retry loop. *)
Record built := {
  keys : list Z;
  values : list Z;
  extra_ranges : list Z
}.

(** Lines 543-574: the keys, the values, the extra conflict ranges, and the
    debug tag of a transaction that starts inside the debug window. *)
Definition build (self : ReadWriteWorkload) (aTransaction : bool) (tstart : Q)
    : M built :=
  let reads := reads self aTransaction in
  let writes := writes self aTransaction in
  let extra_read := extra_read_conflict_ranges self writes in
  let extra_write := extra_write_conflict_ranges self writes in
  keys <- rand (chooseKeys self reads) ;;
  values <- rand (rrepeat (Z.to_nat writes) (randomValue self)) ;;
  extra_ranges <- collect (Z.to_nat (extra_read + extra_write)) randomUniqueID ;;
  when (Qltb (debugTime self) (tstart - clientBegin self)
        && Qle_bool (tstart - clientBegin self) (debugTime self + debugInterval self))
       (debugID <- randomUniqueID ;; issue (OpDebugTransaction debugID)) ;;
  ret {| keys := keys; values := values; extra_ranges := extra_ranges |}.

(** Lines 581-598: the read version and the reads of one attempt. *)
Definition readPhase (self : ReadWriteWorkload) (st : built) : M unit :=
  GRVStartTime <- now ;;
  v <- wait (if inconsistentReads self
             then OpGetInconsistentReadVersion else OpGetReadVersion) ;;
  when (inconsistentReads self) (issue (OpSetVersion v)) ;;
  t <- now ;;
  let grvLatency := (t - GRVStartTime)%Q in
  recording <- shouldRecordNow self ;;
  when recording (modify (AddSample GRVLatencies grvLatency)) ;;
  readStart <- now ;;
  recording <- shouldRecordNow self ;;
  readOp self (keys st) recording ;;
  t <- now ;;
  let readLatency := (t - readStart)%Q in
  recording <- shouldRecordNow self ;;
  when recording (modify (AddSample fullReadLatencies readLatency)).

(** Lines 603-615: the sets and the extra conflict ranges. *)
Definition applyWrites (self : ReadWriteWorkload) (st : built) (writes : Z)
    : M unit :=
  let extra_read := extra_read_conflict_ranges self writes in
  let extra_write := extra_write_conflict_ranges self writes in
  (if adjacentWrites self then
     startKey <- rand (getRandomKey self (to_uint64 (nodeCount self - writes))) ;;
     forEach (range writes) (fun op =>
       value <- index (values st) op ;;
       issue (OpSet (startKey + op) value))
   else
     forEach (range writes) (fun op =>
       key <- rand (getRandomKey self (nodeCount self)) ;;
       value <- index (values st) op ;;
       issue (OpSet key value))) ;;
  forEach (range extra_read) (fun op =>
    r <- index (extra_ranges st) op ;;
    issue (OpAddReadConflictRange r)) ;;
  forEach (range extra_write) (fun op =>
    r <- index (extra_ranges st) (op + extra_read) ;;
    issue (OpAddWriteConflictRange r)).

(** Lines 617-623: the commit and its latency. *)
Definition commitPhase (self : ReadWriteWorkload) : M unit :=
  commitStart <- now ;;
  _ <- wait OpCommit ;;
  t <- now ;;
  let commitLatency := (t - commitStart)%Q in
  recording <- shouldRecordNow self ;;
  when recording (modify (AddSample commitLatencies commitLatency)).

(** Lines 580-626: the body of the [try]; both ways out of it [break]. *)
Definition attempt (self : ReadWriteWorkload) (aTransaction : bool)
    (st : built) : M unit :=
  let writes := writes self aTransaction in
  readPhase self st ;;
  if writes =? 0 then ret tt
  else applyWrites self st writes ;; commitPhase self.

(** Lines 627-638: the [catch]. *)
Definition recover (self : ReadWriteWorkload) (e : Error) : M unit :=
  _ <- wait (OpOnError e) ;;
  modify (Incr totalRetriesMetric) ;;
  recording <- shouldRecordNow self ;;
  when recording (modify (Incr retries)).

(** Lines 579-639: the retry loop.  Every turn but the last passes through
    the wait of [recover], which takes one reply, so a bound of one more than
    the replies left is never reached ([retry_bounded]). *)
Fixpoint retryLoop (fuel : nat) (self : ReadWriteWorkload)
    (aTransaction : bool) (st : built) : M unit :=
  match fuel with
  | O => fun w => (Exhausted, w)
  | S fuel' =>
    catch (attempt self aTransaction st)
          (fun e => recover self e ;; retryLoop fuel' self aTransaction st)
  end.

Definition retry (self : ReadWriteWorkload) (aTransaction : bool) (st : built)
    : M unit :=
  fun w => retryLoop (S (length (replies w))) self aTransaction st w.

(** Lines 646-657: the record of a transaction that went through. *)
Definition record (self : ReadWriteWorkload) (aTransaction : bool) (tstart : Q)
    : M unit :=
  t <- now ;;
  let transactionLatency := (t - tstart)%Q in
  recording <- shouldRecordNow self ;;
  when recording
    (modify (Incr (if aTransaction then aTransactions else bTransactions)) ;;
     modify (AddSample latencies transactionLatency)).

(** Lines 543-657: a transaction of the chosen type, started at [tstart]. *)
Definition transact (self : ReadWriteWorkload) (aTransaction : bool)
    (tstart : Q) : M unit :=
  st <- build self aTransaction tstart ;;
  retry self aTransaction st ;;
  record self aTransaction tstart.

(** Lines 538-658: one turn of the client loop, after its pacing wait. *)
Definition iteration (self : ReadWriteWorkload) (startTime : Q) : M unit :=
  t <- now ;;
  go <- rand (runsTransaction self t startTime) ;;
  if go then
    tstart <- now ;;
    a <- rand (aTransaction self tstart startTime) ;;
    transact self a tstart
  else ret tt.

(** ** The shared read version of inconsistent reads: lines 35-58 *)

Module ReadVersion.

Definition Version : Type := Z.

Section Cache.

(** [invalidVersion] is a constant of fdbclient, declared outside
    ReadWrite.actor.cpp: it is taken as a parameter. *)
Variable invalidVersion : Version.

(** One [getNextRV] actor: it asks for a read version until the store gives
    one, so it is still running, or has returned a version, or has thrown
    the error that [onError] did not recover from. *)
Inductive actor : Type :=
  | Running
  | Returned (v : Version)
  | Threw (e : Z).

(** The two globals.  [started] lists every [getNextRV] started so far,
    oldest first; [nextRV] is the future of one of them, or an invalid
    (default-constructed) future. *)
Record state := {
  started : list actor;
  nextRV : option nat;
  lastRV : Version
}.

Definition initial : state :=
  {| started := []; nextRV := None; lastRV := invalidVersion |}.

(** The future [nextRV]: not [isValid()]; valid and not [isReady()]; ready,
    with the value or the error that [get()] gives. *)
Inductive future : Type :=
  | Invalid
  | Pending
  | Ready (v : Version)
  | Broken (e : Z).

Definition peek (s : state) : future :=
  match nextRV s with
  | None => Invalid
  | Some i =>
    match nth_error (started s) i with
    | Some (Returned v) => Ready v
    | Some (Threw e) => Broken e
    | _ => Pending
    end
  end.

(** What the caller is handed: a version it can use at once, or the future
    [nextRV] to wait on; or an error is raised. *)
Inductive answer : Type :=
  | Cached (v : Version)
  | Future (f : option nat)
  | Raised (e : Z).

(** Line 52: a new [getNextRV] is started and [nextRV] is its future. *)
Definition refresh (last : Version) (s : state) : state :=
  {| started := started s ++ [Running];
     nextRV := Some (length (started s));
     lastRV := last |}.

(** Lines 54-57. *)
Definition hand (s : state) : answer * state :=
  if lastRV s =? invalidVersion
  then (Future (nextRV s), s)
  else (Cached (lastRV s), s).

(** Lines 49-58. *)
Definition getInconsistentReadVersion (s : state) : answer * state :=
  match peek s with
  | Invalid => hand (refresh (lastRV s) s)
  | Ready v => hand (refresh v s)
  | Broken e => (Raised e, s)
  | Pending => hand s
  end.

Fixpoint set_nth {A : Type} (i : nat) (x : A) (l : list A) : list A :=
  match l, i with
  | [], _ => []
  | _ :: l', O => x :: l'
  | y :: l', S i' => y :: set_nth i' x l'
  end.

(** The [getNextRV] actor [i] ends as [a]. *)
Definition finish (i : nat) (a : actor) (s : state) : state :=
  {| started := set_nth i a (started s);
     nextRV := nextRV s;
     lastRV := lastRV s |}.

(** What can happen to the cache: some client asks for a version; a
    running [getNextRV] is given a read version by the store (which is
    never [invalidVersion]); a running [getNextRV] throws. *)
Inductive step : state -> state -> Prop :=
  | step_request (s : state) :
      step s (snd (getInconsistentReadVersion s))
  | step_return (s : state) (i : nat) (v : Version) :
      nth_error (started s) i = Some Running ->
      v <> invalidVersion ->
      step s (finish i (Returned v) s)
  | step_throw (s : state) (i : nat) (e : Z) :
      nth_error (started s) i = Some Running ->
      step s (finish i (Threw e) s).

Inductive reachable : state -> Prop :=
  | reach_initial : reachable initial
  | reach_step (s s' : state) : reachable s -> step s s' -> reachable s'.

Definition running (a : actor) : bool :=
  match a with Running => true | _ => false end.

(** The number of refreshes outstanding. *)
Definition outstanding (s : state) : nat :=
  length (filter running (started s)).

(** The shape of every reachable cache: nothing started yet, or a list
    of refreshes that have all returned a version but possibly the
    newest, which [nextRV] is the future of, [lastRV] being what the
    one before it returned. *)
Definition settled (s : state) : Prop :=
  (started s = [] /\ nextRV s = None /\ lastRV s = invalidVersion) \/
  (exists (vs : list Version) (a : actor),
     started s = map Returned vs ++ [a] /\
     nextRV s = Some (length vs) /\
     Forall (fun v => v <> invalidVersion) vs /\
     (forall v, a = Returned v -> v <> invalidVersion) /\
     lastRV s = last vs invalidVersion).

End Cache.

End ReadVersion.

(** ** Footprints *)

(** The operations a transaction issues without writing: everything but
    [set], the conflict ranges and [commit]. *)
Definition reads_only (op : txop) : bool :=
  match op with
  | OpSet _ _ | OpAddReadConflictRange _ | OpAddWriteConflictRange _
  | OpCommit => false
  | _ => true
  end.

(** The aggregates fed by the read version and the reads. *)
Definition read_update (u : update) : bool :=
  match u with
  | AddSample readLatencies _ | AddSample fullReadLatencies _
  | AddSample GRVLatencies _
  | Incr totalReadsMetric | Incr readLatencyCount
  | AddReadLatencyTotal _ => true
  | _ => false
  end.

(** [d] is a time that taking the next [n] replies can cost: no time, or the
    delay of one of them. *)
Definition answers (w : world) (n : nat) (d : Q) : Prop :=
  d = 0%Q \/ exists r : reply, In r (firstn n (replies w)) /\ delay_of r = d.

(** [c] does not end on the bound of a loop. *)
Definition bounded {A : Type} (c : M A) : Prop :=
  forall w : world, fst (c w) <> Exhausted.

(** Whatever [c] does to the world is within [R]. *)
Definition preserves (R : world -> world -> Prop) {A : Type} (c : M A) : Prop :=
  forall w : world, R w (snd (c w)).

(** A relation that the steps of the actor monad stay within, for the
    operations [okop] and the updates [okup], which include those of the
    read version and of the reads. *)
Record frame (R : world -> world -> Prop) (okop : txop -> Prop)
    (okup : update -> Prop) : Prop := {
  F_refl : forall w, R w w;
  F_trans : forall a b c, R a b -> R b c -> R a c;
  F_advance : forall w n d, answers w n d -> R w (advance n d w);
  F_draws : forall ds w, R w (set_draws ds w);
  F_emit : forall op w, okop op -> R w (emit op w);
  F_account : forall u w, okup u -> R w (account u w);
  F_reads : forall op, reads_only op = true -> okop op;
  F_read_updates : forall u, read_update u = true -> okup u
}.

Arguments F_refl {R okop okup} _ _.
Arguments F_trans {R okop okup} _ _ _ _ _ _.
Arguments F_advance {R okop okup} _ _ _ _ _.
Arguments F_draws {R okop okup} _ _ _.
Arguments F_emit {R okop okup} _ _ _ _.
Arguments F_account {R okop okup} _ _ _ _.
Arguments F_reads {R okop okup} _ _ _.
Arguments F_read_updates {R okop okup} _ _ _.

(** The reservoirs [keepS] and the counters [keepC] are as they were. *)
Definition untouched (keepS : sample -> bool) (keepC : counter -> bool)
    (w w' : world) : Prop :=
  (forall s, keepS s = true ->
     samples (aggregates w') s = samples (aggregates w) s) /\
  (forall c, keepC c = true ->
     count (aggregates w') c = count (aggregates w) c).

Definition spares (keepS : sample -> bool) (keepC : counter -> bool)
    (u : update) : Prop :=
  match u with
  | AddSample s _ => keepS s = false
  | Incr c => keepC c = false
  | AddReadLatencyTotal _ => True
  end.

(** The operations issued from [w] to [w'] all satisfy [P]. *)
Definition issued (P : Q * txop -> Prop) (w w' : world) : Prop :=
  exists ops, trace w' = trace w ++ ops /\ Forall P ops.

(** The aggregates of the record of a transaction, and those of a commit
    and of a retry. *)
Definition record_sample (s : sample) : bool :=
  match s with latencies => true | _ => false end.

Definition record_counter (c : counter) : bool :=
  match c with aTransactions | bTransactions => true | _ => false end.

Definition commit_sample (s : sample) : bool :=
  match s with commitLatencies => true | _ => false end.

Definition retry_counter (c : counter) : bool :=
  match c with retries | totalRetriesMetric => true | _ => false end.

Definition reading (e : Q * txop) : Prop := reads_only (snd e) = true.

(** The time line: with replies that take no negative time, the clock
    does not go back and every operation issued from [w] to [w'] is issued
    between the two clocks. *)
Definition nonneg_delay (r : reply) : Prop := (0 <= delay_of r)%Q.

Definition within (lo hi : Q) (e : Q * txop) : Prop :=
  (lo <= fst e)%Q /\ (fst e <= hi)%Q.

Definition timeline (w w' : world) : Prop :=
  Forall nonneg_delay (replies w) ->
  Forall nonneg_delay (replies w') /\
  (clock w <= clock w')%Q /\
  issued (within (clock w) (clock w')) w w'.

Definition anything {A : Type} (x : A) : Prop := True.

(** ** Scenarios *)

(** A workload with the defaults of the constructor (lines 131-176)
    for the options that are not arguments here; [metricsStart] and
    [metricsDuration] are the effective window. *)
Definition workload (nodes writesB sweepCount : Z)
    (window hot : Q * Q) (dependent : bool) : ReadWriteWorkload :=
  {| nodeCount := nodes; actorCount := 1; clientId := 0; clientCount := 1;
     minValueBytes := 16; maxValueBytes := 16;
     readsPerTransactionA := 10; writesPerTransactionA := 0;
     readsPerTransactionB := 1; writesPerTransactionB := writesB;
     extraReadConflictRangesPerTransaction := 0;
     extraWriteConflictRangesPerTransaction := 0;
     testDuration := 10; alpha := 1 # 10;
     debugInterval := 0; debugTime := 0;
     metricsStart := fst window; metricsDuration := snd window;
     clientBegin := 0;
     dependentReads := dependent; inconsistentReads := false;
     adjacentReads := false; adjacentWrites := false;
     rampUpLoad := false; rampSweepCount := sweepCount;
     hotKeyFraction := fst hot; forceHotProbability := snd hot;
     rangeReads := false; rampTransactionType := false;
     rampUpConcurrency := false |}.

(** The workload of every default. *)
Definition defaults : ReadWriteWorkload :=
  workload 100 9 1 (metricsWindow 10 None None None) (0, 0)%Q false.

(** The workload of the options [hotKeyFraction] = 0.1 and
    [hotTrafficFraction] = 0.5 over 100 nodes: a tenth of the keys takes
    half of the traffic. *)
Definition hot_tenth : ReadWriteWorkload :=
  workload 100 9 1 (0, 10)%Q
    (double (1 # 10), ((1 # 2) - double (1 # 10)) / (1 - double (1 # 10)))%Q
    false.

(** No sample, no count. *)
Definition no_metrics : metrics :=
  {| samples_latencies := []; samples_readLatencies := [];
     samples_fullReadLatencies := []; samples_commitLatencies := [];
     samples_GRVLatencies := [];
     count_aTransactions := 0; count_bTransactions := 0; count_retries := 0;
     count_totalReadsMetric := 0; count_totalRetriesMetric := 0;
     count_readLatencyCount := 0; readLatencyTotal := 0 |}.

(** A world in which a transaction of type A of [defaults] reads its ten
    keys: the read version after 10ms, every read after 20ms. *)
Definition reading_world : world :=
  {| clock := 2;
     replies := Done (1 # 100) 7 :: repeat (Done (2 # 100) 0) 10;
     draws := map I64 [3; 14; 15; 92; 65; 35; 89; 79; 32; 38];
     trace := [];
     aggregates := no_metrics |}.

(** A world in which a transaction of type B with one read and two writes
    has its first commit refused with error 1020 ([not_committed]) and goes
    through on the second attempt. *)
Definition retrying : ReadWriteWorkload :=
  workload 100 2 1 (0, 10)%Q (0, 0)%Q false.

Definition retry_world : world :=
  {| clock := 1;
     replies := [Done (1 # 100) 7; Done (2 # 100) 0; Failed (3 # 100) 1020;
                 Done (4 # 100) 0;
                 Done (1 # 100) 8; Done (2 # 100) 0; Done (5 # 100) 0];
     draws := [I64 42; I64 16; I64 16; I64 1; I64 2; I64 3; I64 4];
     trace := [];
     aggregates := no_metrics |}.

(** The same, before the type of the transaction is drawn: 0.05 is not
    above [alpha] = 0.1, which makes it a transaction of type B. *)
Definition turn_world : world :=
  set_draws (U01 (1 # 20) :: draws retry_world) retry_world.

(** * The rest of the workload *)

(** ** Pacing: lines 132-135 of the constructor, lines 478-480 of [_start] *)




(** ** The concurrency ramp: lines 522-536 of [randomReadWriteClient] *)

(** [double(clientIndex) / actorCount
     + double(clientId) / clientCount / actorCount]. *)
Definition rampShare (self : ReadWriteWorkload) (clientIndex : Z) : option Q :=
  match fdiv (inject_Z clientIndex) (inject_Z (actorCount self)) with
  | None => None
  | Some a =>
    match fdiv (inject_Z (clientId self)) (inject_Z (clientCount self)) with
    | None => None
    | Some b =>
      match fdiv b (inject_Z (actorCount self)) with
      | None => None
      | Some c => Some (a + c)%Q
      end
    end
  end.

(** Line 523: how long the actor waits before its first turn. *)
Definition startDelay (self : ReadWriteWorkload) (clientIndex : Z) : option Q :=
  match rampShare self clientIndex with
  | Some f => Some (testDuration self / 2 * f)%Q
  | None => None
  end.

(** Line 531: the actor stops for good ([wait(Never())]) at the first turn
    that finds this true. *)
Definition stopping (self : ReadWriteWorkload) (clientIndex : Z)
    (now startTime : Q) : option bool :=
  match rampShare self clientIndex with
  | Some f =>
    Some (Qle_bool (testDuration self / 2 * (2 - f)) (now - startTime))
  | None => None
  end.

(** ** More scenarios *)

(** Tester 1 of 2, with 4 actors, under the concurrency ramp. *)
Definition ramping : ReadWriteWorkload :=
  {| nodeCount := 100; actorCount := 4; clientId := 1; clientCount := 2;
     minValueBytes := 16; maxValueBytes := 16;
     readsPerTransactionA := 10; writesPerTransactionA := 0;
     readsPerTransactionB := 1; writesPerTransactionB := 9;
     extraReadConflictRangesPerTransaction := 0;
     extraWriteConflictRangesPerTransaction := 0;
     testDuration := 10; alpha := 1 # 10;
     debugInterval := 0; debugTime := 0;
     metricsStart := 0; metricsDuration := 10;
     clientBegin := 0;
     dependentReads := false; inconsistentReads := false;
     adjacentReads := false; adjacentWrites := false;
     rampUpLoad := false; rampSweepCount := 2;
     hotKeyFraction := 0; forceHotProbability := 0;
     rangeReads := false; rampTransactionType := false;
     rampUpConcurrency := true |}.

(** A workload under both load ramps, in two sweeps: [rampUpLoad] and
    [rampTransactionType] are set. *)
Definition ramped : ReadWriteWorkload :=
  {| nodeCount := 100; actorCount := 1; clientId := 0; clientCount := 1;
     minValueBytes := 16; maxValueBytes := 16;
     readsPerTransactionA := 10; writesPerTransactionA := 0;
     readsPerTransactionB := 1; writesPerTransactionB := 9;
     extraReadConflictRangesPerTransaction := 0;
     extraWriteConflictRangesPerTransaction := 0;
     testDuration := 10; alpha := 1 # 10;
     debugInterval := 0; debugTime := 0;
     metricsStart := 0; metricsDuration := 10;
     clientBegin := 0;
     dependentReads := false; inconsistentReads := false;
     adjacentReads := false; adjacentWrites := false;
     rampUpLoad := true; rampSweepCount := 2;
     hotKeyFraction := 0; forceHotProbability := 0;
     rangeReads := false; rampTransactionType := true;
     rampUpConcurrency := false |}.

(** The workload of [hot_tenth] with adjacent reads. *)
Definition hot_adjacent : ReadWriteWorkload :=
  {| nodeCount := 100; actorCount := 1; clientId := 0; clientCount := 1;
     minValueBytes := 16; maxValueBytes := 16;
     readsPerTransactionA := 10; writesPerTransactionA := 0;
     readsPerTransactionB := 1; writesPerTransactionB := 9;
     extraReadConflictRangesPerTransaction := 0;
     extraWriteConflictRangesPerTransaction := 0;
     testDuration := 10; alpha := 1 # 10;
     debugInterval := 0; debugTime := 0;
     metricsStart := 0; metricsDuration := 10;
     clientBegin := 0;
     dependentReads := false; inconsistentReads := false;
     adjacentReads := true; adjacentWrites := false;
     rampUpLoad := false; rampSweepCount := 1;
     hotKeyFraction := hotKeyFraction hot_tenth;
     forceHotProbability := forceHotProbability hot_tenth;
     rangeReads := false; rampTransactionType := false;
     rampUpConcurrency := false |}.

(** ** Relations between two worlds *)

(** From [w] to [w'] the windowed [retries] counter has grown, and by no
    more than [totalRetriesMetric]. *)
Definition retries_within (w w' : world) : Prop :=
  0 <= count (aggregates w') retries - count (aggregates w) retries /\
  count (aggregates w') retries - count (aggregates w) retries
  <= count (aggregates w') totalRetriesMetric
     - count (aggregates w) totalRetriesMetric.

Definition not_retries (u : update) : Prop := u <> Incr retries.

Definition no_counter (c : counter) : bool := false.

(** The world of [retry_world] with a store that does not recover: the
    commit is refused and [onError] rethrows, with error 2000. *)
Definition refused_world : world :=
  {| clock := 1;
     replies := [Done (1 # 100) 7; Done (2 # 100) 0; Failed (3 # 100) 1020;
                 Failed (4 # 100) 2000];
     draws := [I64 42; I64 16; I64 16; I64 1; I64 2];
     trace := [];
     aggregates := no_metrics |}.

(** A world in which two parallel reads, of the keys 4 and 5, are answered
    after 2s and after 1s. *)
Definition two_keys : list Z := [4; 5].

Definition crossing_world : world :=
  {| clock := 0; replies := [Done 2 0; Done 1 0]; draws := [];
     trace := []; aggregates := no_metrics |}.

(** The sum of a list of latencies. *)
Definition total (xs : list Q) : Q := fold_right Qplus 0%Q xs.

(** From [w] to [w'], [reads] reads were counted in [totalReadsMetric] and
    the read latencies [logs] were logged, in this order: each one is a new
    sample of [readLatencies], counts for one in [readLatencyCount] and is
    added to [readLatencyTotal]. *)
Definition tallied (reads : nat) (logs : list Q) (w w' : world) : Prop :=
  count (aggregates w') totalReadsMetric
  = count (aggregates w) totalReadsMetric + Z.of_nat reads /\
  count (aggregates w') readLatencyCount
  = count (aggregates w) readLatencyCount + Z.of_nat (List.length logs) /\
  samples (aggregates w') readLatencies
  = samples (aggregates w) readLatencies ++ logs /\
  (readLatencyTotal (aggregates w')
   == readLatencyTotal (aggregates w) + total logs)%Q.

(** ** The periodic log: [tracePeriodically], lines 307-375 *)

(** A [PerfMetric] of the periodic log.  Its name in the source is
    [format("T=%04.0fs:", elapsed)] followed by a label: the two are kept
    apart, as [metric_elapsed] and [metric_label]. *)
Record PerfMetric := {
  metric_elapsed : Q;
  metric_label : String.string;
  metric_value : Q;
  metric_averaged : bool
}.

(** The state variables of the actor and the vector it appends to. *)
Record periodic := {
  elapsed : Q;
  last_ops : Z;
  periodicMetrics : list PerfMetric
}.

(** Lines 365-373: every reservoir is cleared and the running total and
    count of read latencies are reset; the counters stay. *)
Definition clear_samples (m : metrics) : metrics :=
  {| samples_latencies := []; samples_readLatencies := [];
     samples_fullReadLatencies := []; samples_commitLatencies := [];
     samples_GRVLatencies := [];
     count_aTransactions := count_aTransactions m;
     count_bTransactions := count_bTransactions m;
     count_retries := count_retries m;
     count_totalReadsMetric := count_totalReadsMetric m;
     count_totalRetriesMetric := count_totalRetriesMetric m;
     count_readLatencyCount := 0;
     readLatencyTotal := 0 |}.

Section Periodic.

(** The statistics of a [ContinuousSample] (fdbrpc/ContinuousSample.h) are
    declared outside ReadWrite.actor.cpp: they are taken as parameters, on
    the samples of a reservoir. *)
Variables mean median max : list Q -> Q.
Variable percentile : Q -> list Q -> Q.

(** Lines 330-353: mean, median, 5% and 95% of one reservoir, in
    milliseconds. *)
Definition four (ts : Q) (what : String.string) (xs : list Q)
    : list PerfMetric :=
  [ {| metric_elapsed := ts;
       metric_label := String.append "Mean " (String.append what " (ms)");
       metric_value := 1000 * mean xs; metric_averaged := true |};
    {| metric_elapsed := ts;
       metric_label :=
         String.append "Median " (String.append what " (ms, averaged)");
       metric_value := 1000 * median xs; metric_averaged := true |};
    {| metric_elapsed := ts;
       metric_label :=
         String.append "5% " (String.append what " (ms, averaged)");
       metric_value := 1000 * percentile (5 # 100) xs;
       metric_averaged := true |};
    {| metric_elapsed := ts;
       metric_label :=
         String.append "95% " (String.append what " (ms, averaged)");
       metric_value := 1000 * percentile (95 # 100) xs;
       metric_averaged := true |} ]%string%Q.

(** Lines 356-360. *)
Definition highest (ts : Q) (what : String.string) (xs : list Q) : PerfMetric :=
  {| metric_elapsed := ts;
     metric_label :=
       String.append "Max " (String.append what " (ms, averaged)")%string;
     metric_value := 1000 * max xs; metric_averaged := true |}.

(** Lines 321-322: the operations of the transactions counted so far
    (sums and products of [int64_t], taken not to overflow). *)
Definition operations (self : ReadWriteWorkload) (m : metrics) : Z :=
  count m aTransactions
  * (readsPerTransactionA self + writesPerTransactionA self)
  + count m bTransactions
    * (readsPerTransactionB self + writesPerTransactionB self).

(** Lines 326-360: what one report appends. *)
Definition report (ts rate : Q) (m : metrics) : list PerfMetric :=
  ({| metric_elapsed := ts; metric_label := "Operations/sec";
      metric_value := rate; metric_averaged := false |}
   :: four ts "Latency" (samples m latencies)
   ++ four ts "Row Read Latency" (samples m readLatencies)
   ++ four ts "Total Read Latency" (samples m fullReadLatencies)
   ++ four ts "GRV Latency" (samples m GRVLatencies)
   ++ four ts "Commit Latency" (samples m commitLatencies)
   ++ [ highest ts "Latency" (samples m latencies);
        highest ts "Row Read Latency" (samples m readLatencies);
        highest ts "Total Read Latency" (samples m fullReadLatencies);
        highest ts "GRV Latency" (samples m GRVLatencies);
        highest ts "Commit Latency" (samples m commitLatencies) ])%string.

(** Lines 313-373: one turn of the loop, the timer [delayUntil(start +
    elapsed)] firing at [now].  [None] only when the rate of a report
    divides by a zero [periodicLoggingInterval]. *)
Definition tracePeriodically (self : ReadWriteWorkload)
    (periodicLoggingInterval now : Q) (p : periodic) (m : metrics)
    : option (periodic * metrics) :=
  let elapsed := (elapsed p + periodicLoggingInterval)%Q in
  let ops := operations self m in
  let recordBegin :=
    shouldRecord self (Qmax (now - periodicLoggingInterval) (clientBegin self)) in
  let recordEnd := shouldRecord self now in
  if recordBegin && recordEnd then
    match fdiv (inject_Z (ops - last_ops p)) periodicLoggingInterval with
    | Some rate =>
      Some ({| elapsed := elapsed; last_ops := ops;
               periodicMetrics := periodicMetrics p ++ report elapsed rate m |},
            clear_samples m)
    | None => None
    end
  else
    Some ({| elapsed := elapsed; last_ops := ops;
             periodicMetrics := periodicMetrics p |},
          clear_samples m).

End Periodic.

(** * Properties *)

(** ** Doubles *)

Lemma Qltb_lt (a b : Q) : Qltb a b = true <-> (a < b)%Q.
Proof.
  unfold Qltb. rewrite negb_true_iff.
  destruct (Qle_bool b a) eqn:E.
  - apply Qle_bool_iff in E. split; [discriminate | intro H; lra].
  - split; [intros _ | reflexivity].
    destruct (Qlt_le_dec a b) as [H | H]; [exact H |].
    apply Qle_bool_iff in H. congruence.
Qed.

Lemma Qltb_ge (a b : Q) : Qltb a b = false <-> (b <= a)%Q.
Proof.
  unfold Qltb. rewrite negb_false_iff. apply Qle_bool_iff.
Qed.

Lemma truthy_false (a : Q) : truthy a = false <-> (a == 0)%Q.
Proof.
  unfold truthy. rewrite negb_false_iff. apply Qeq_bool_iff.
Qed.

Lemma fdiv_nonzero (a b : Q) : ~ (b == 0)%Q -> fdiv a b = Some (a / b)%Q.
Proof.
  intro H. unfold fdiv. destruct (Qeq_bool b 0) eqn:E; [| reflexivity].
  apply Qeq_bool_iff in E. contradiction.
Qed.

(** For a non-negative double, truncation is the floor. *)
Lemma Qtrunc_floor (a : Q) : (0 <= a)%Q -> Qtrunc a = Qfloor a.
Proof.
  destruct a as [n d]. unfold Qle, Qtrunc, Qfloor. simpl. intro H.
  apply Z.quot_div_nonneg; lia.
Qed.

Lemma Qfloor_nonneg (a : Q) : (0 <= a)%Q -> 0 <= Qfloor a.
Proof.
  intro H. change 0 with (Qfloor 0). apply Qfloor_resp_le. exact H.
Qed.

Lemma Qfloor_below (a : Q) (n : Z) : (a < inject_Z n)%Q -> Qfloor a < n.
Proof.
  intro H. rewrite Zlt_Qlt.
  apply Qle_lt_trans with a; [apply Qfloor_le | exact H].
Qed.

(** The floor is the one integer [z] with [z <= a < z + 1]. *)
Lemma Qfloor_unique (a : Q) (z : Z) :
  (inject_Z z <= a)%Q -> (a < inject_Z (z + 1))%Q -> Qfloor a = z.
Proof.
  intros Hlo Hhi.
  assert (H1 : Qfloor a < z + 1) by (apply Qfloor_below; exact Hhi).
  assert (H2 : z <= Qfloor a).
  { rewrite <- (Qfloor_Z z). apply Qfloor_resp_le. exact Hlo. }
  lia.
Qed.

Lemma fraction_bounds (a : Q) :
  (0 <= a - inject_Z (Qfloor a))%Q /\ (a - inject_Z (Qfloor a) < 1)%Q.
Proof.
  pose proof (Qfloor_le a) as Hlo. pose proof (Qlt_floor a) as Hhi.
  rewrite inject_Z_plus in Hhi. change (inject_Z 1) with 1%Q in Hhi.
  split; lra.
Qed.

(** *** Powers of two *)

Lemma pow2_pos (e : Z) : (0 < pow2 e)%Q.
Proof.
  apply Qpower_0_lt. reflexivity.
Qed.

Lemma pow2_add (a b : Z) : (pow2 (a + b) == pow2 a * pow2 b)%Q.
Proof.
  apply Qpower_plus. discriminate.
Qed.

Lemma pow2_le (a b : Z) : a <= b -> (pow2 a <= pow2 b)%Q.
Proof.
  intro H. apply Qpower_le_compat_l; [exact H | discriminate].
Qed.

Lemma pow2_lt (a b : Z) : a < b -> (pow2 a < pow2 b)%Q.
Proof.
  intro H. apply Qpower_lt_compat_l; [exact H | reflexivity].
Qed.

Lemma pow2_Z (k : Z) : 0 <= k -> (pow2 k == inject_Z (2 ^ k))%Q.
Proof.
  intro H. symmetry. apply (Zpower_Qpower 2 k H).
Qed.

Lemma pow2_succ (a : Z) : (pow2 (a + 1) == 2 * pow2 a)%Q.
Proof.
  rewrite pow2_add. change (pow2 1) with 2%Q. ring.
Qed.

(** [x / pow2 s] scaled back. *)
Lemma scaled_back (x : Q) (s : Z) : (x / pow2 s * pow2 s == x)%Q.
Proof.
  field. pose proof (pow2_pos s). lra.
Qed.

Lemma scaled_le (x y : Q) (s : Z) : (x <= y -> x / pow2 s <= y / pow2 s)%Q.
Proof.
  intro H. unfold Qdiv. apply Qmult_le_compat_r; [exact H |].
  apply Qlt_le_weak, Qinv_lt_0_compat, pow2_pos.
Qed.

Lemma scaled_lt (x y : Q) (s : Z) : (x < y -> x / pow2 s < y / pow2 s)%Q.
Proof.
  intro H. unfold Qdiv. apply Qmult_lt_compat_r; [| exact H].
  apply Qinv_lt_0_compat, pow2_pos.
Qed.

Lemma scaled_pow2 (a s : Z) : (pow2 a / pow2 s == pow2 (a - s))%Q.
Proof.
  symmetry. apply Qpower_minus. discriminate.
Qed.

(** *** The leading bit *)

Lemma Qlog2_spec (x : Q) :
  (0 < x)%Q -> (pow2 (Qlog2 x) <= x)%Q /\ (x < pow2 (Qlog2 x + 1))%Q.
Proof.
  intro Hx. destruct x as [n d]. unfold Qlog2. cbn [Qnum Qden].
  assert (Hn : 0 < n) by (unfold Qlt in Hx; simpl in Hx; lia).
  set (a := Z.log2 n). set (b := Z.log2 (Z.pos d)).
  assert (Ha : 0 <= a) by apply Z.log2_nonneg.
  assert (Hb : 0 <= b) by apply Z.log2_nonneg.
  destruct (Z.log2_spec n Hn) as [Ha1 Ha2]. fold a in Ha1, Ha2.
  destruct (Z.log2_spec (Z.pos d) eq_refl) as [Hb1 Hb2]. fold b in Hb1, Hb2.
  assert (Hx' : (n # d == inject_Z n / inject_Z (Z.pos d))%Q)
    by apply Qmake_Qdiv.
  assert (Hd : (0 < inject_Z (Z.pos d))%Q) by reflexivity.
  assert (HA : (pow2 a <= inject_Z n)%Q).
  { rewrite pow2_Z by lia. rewrite <- Zle_Qle. exact Ha1. }
  assert (HA' : (inject_Z n < pow2 (a + 1))%Q).
  { rewrite pow2_Z by lia. rewrite <- Zlt_Qlt. unfold Z.succ in Ha2. exact Ha2. }
  assert (HB : (pow2 b <= inject_Z (Z.pos d))%Q).
  { rewrite pow2_Z by lia. rewrite <- Zle_Qle. exact Hb1. }
  assert (HB' : (inject_Z (Z.pos d) < pow2 (b + 1))%Q).
  { rewrite pow2_Z by lia. rewrite <- Zlt_Qlt. unfold Z.succ in Hb2. exact Hb2. }
  pose proof (pow2_pos b) as Pb. pose proof (pow2_pos (b + 1)) as Pb1.
  pose proof (pow2_pos a) as Pa.
  destruct (Qle_bool (pow2 (a - b)) (n # d)) eqn:E.
  - apply Qle_bool_iff in E. split; [exact E |].
    rewrite Hx'. apply Qlt_shift_div_r; [exact Hd |].
    replace (a - b + 1) with ((a + 1) - b) by lia.
    rewrite <- scaled_pow2.
    apply Qlt_le_trans with (pow2 (a + 1)); [exact HA' |].
    setoid_replace (pow2 (a + 1)) with (pow2 (a + 1) / pow2 b * pow2 b)%Q at 1
      by (symmetry; apply scaled_back).
    apply Qmult_le_l; [| exact HB].
    apply Qlt_shift_div_l; [exact Pb |]. pose proof (pow2_pos (a + 1)). lra.
  - split.
    + rewrite Hx'. apply Qle_shift_div_l; [exact Hd |].
      replace (a - b - 1) with (a - (b + 1)) by lia.
      rewrite <- scaled_pow2.
      apply Qle_trans with (pow2 a); [| exact HA].
      setoid_replace (pow2 a) with (pow2 a / pow2 (b + 1) * pow2 (b + 1))%Q at 2
        by (symmetry; apply scaled_back).
      apply Qmult_le_l; [| lra].
      apply Qlt_shift_div_l; [exact Pb1 |]. lra.
    + replace (a - b - 1 + 1) with (a - b) by lia.
      destruct (Qlt_le_dec (n # d) (pow2 (a - b))) as [H | H]; [exact H |].
      apply Qle_bool_iff in H. congruence.
Qed.

Lemma Qlog2_unique (x : Q) (k : Z) :
  (pow2 k <= x)%Q -> (x < pow2 (k + 1))%Q -> Qlog2 x = k.
Proof.
  intros Hlo Hhi.
  assert (Hx : (0 < x)%Q) by (pose proof (pow2_pos k); lra).
  destruct (Qlog2_spec x Hx) as [H1 H2].
  assert (A : Qlog2 x < k + 1).
  { apply (Qpower_lt_compat_l_inv 2); [| reflexivity].
    fold (pow2 (Qlog2 x)) (pow2 (k + 1)). lra. }
  assert (B : k < Qlog2 x + 1).
  { apply (Qpower_lt_compat_l_inv 2); [| reflexivity].
    fold (pow2 k) (pow2 (Qlog2 x + 1)). lra. }
  lia.
Qed.

Lemma Qlog2_comp (x y : Q) : (0 < x)%Q -> (x == y)%Q -> Qlog2 x = Qlog2 y.
Proof.
  intros Hx E. symmetry. apply Qlog2_unique; rewrite <- E; apply Qlog2_spec, Hx.
Qed.

Lemma Qlog2_le (x y : Q) : (0 < x)%Q -> (x <= y)%Q -> Qlog2 x <= Qlog2 y.
Proof.
  intros Hx H.
  destruct (Qlog2_spec x Hx) as [H1 _].
  destruct (Qlog2_spec y) as [_ H2]; [lra |].
  assert (A : Qlog2 x < Qlog2 y + 1).
  { apply (Qpower_lt_compat_l_inv 2); [| reflexivity].
    fold (pow2 (Qlog2 x)) (pow2 (Qlog2 y + 1)). lra. }
  lia.
Qed.

(** *** Rounding to the nearest integer, ties to even *)

Ltac compared :=
  repeat match goal with
         | E : (_ ?= _)%Q = Eq |- _ => apply Qeq_alt in E
         | E : (_ ?= _)%Q = Lt |- _ => apply Qlt_alt in E
         | E : (_ ?= _)%Q = Gt |- _ => apply Qgt_alt in E
         end.

Lemma round_even_near (q : Q) :
  (q - (1 # 2) <= inject_Z (round_even q))%Q /\
  (inject_Z (round_even q) <= q + (1 # 2))%Q.
Proof.
  unfold round_even. cbv zeta.
  pose proof (Qfloor_le q) as Hlo. pose proof (Qlt_floor q) as Hhi.
  rewrite inject_Z_plus in Hhi. change (inject_Z 1) with 1%Q in Hhi.
  destruct (q - inject_Z (Qfloor q) ?= 1 # 2)%Q eqn:E.
  - apply Qeq_alt in E. destruct (Z.even (Qfloor q));
      rewrite ?inject_Z_plus; change (inject_Z 1) with 1%Q; split; lra.
  - apply Qlt_alt in E. split; lra.
  - apply Qgt_alt in E. rewrite inject_Z_plus. change (inject_Z 1) with 1%Q.
    split; lra.
Qed.

(** Within less than a half of an integer, the rounding gives it. *)
Lemma round_even_snap (q : Q) (z : Z) :
  (inject_Z z - (1 # 2) < q)%Q -> (q < inject_Z z + (1 # 2))%Q ->
  round_even q = z.
Proof.
  intros Hlo Hhi. destruct (round_even_near q) as [H1 H2].
  assert (A : (inject_Z (round_even q) < inject_Z (z + 1))%Q).
  { rewrite inject_Z_plus. change (inject_Z 1) with 1%Q. lra. }
  assert (B : (inject_Z (z - 1) < inject_Z (round_even q))%Q).
  { replace (z - 1) with (z + -1) by lia. rewrite inject_Z_plus.
    change (inject_Z (-1)) with (-1 # 1)%Q. lra. }
  rewrite <- Zlt_Qlt in A, B. lia.
Qed.

Lemma round_even_Z (q : Q) (z : Z) : (q == inject_Z z)%Q -> round_even q = z.
Proof.
  intro E. apply round_even_snap; lra.
Qed.

Lemma round_even_comp (q q' : Q) : (q == q')%Q -> round_even q = round_even q'.
Proof.
  intro E. unfold round_even. cbv zeta.
  rewrite (Qfloor_comp _ _ E).
  assert (Ec : (q - inject_Z (Qfloor q') ?= 1 # 2)%Q
               = (q' - inject_Z (Qfloor q') ?= 1 # 2)%Q).
  { apply Qcompare_comp; [rewrite E |]; reflexivity. }
  rewrite Ec. reflexivity.
Qed.

Lemma round_even_le (q q' : Q) :
  (q <= q')%Q -> round_even q <= round_even q'.
Proof.
  intro H.
  assert (Hf : Qfloor q <= Qfloor q') by (apply Qfloor_resp_le; exact H).
  destruct (Z.eq_dec (Qfloor q) (Qfloor q')) as [Ef | Nf].
  - unfold round_even. cbv zeta. rewrite Ef.
    destruct (q - inject_Z (Qfloor q') ?= 1 # 2)%Q eqn:E;
      destruct (q' - inject_Z (Qfloor q') ?= 1 # 2)%Q eqn:E';
      compared; try lia; try (exfalso; lra);
      destruct (Z.even (Qfloor q')); lia.
  - assert (A : round_even q <= Qfloor q + 1).
    { unfold round_even. cbv zeta.
      destruct (q - inject_Z (Qfloor q) ?= 1 # 2)%Q;
        try destruct (Z.even (Qfloor q)); lia. }
    assert (B : Qfloor q' <= round_even q').
    { unfold round_even. cbv zeta.
      destruct (q' - inject_Z (Qfloor q') ?= 1 # 2)%Q;
        try destruct (Z.even (Qfloor q')); lia. }
    lia.
Qed.

Lemma round_even_above (q : Q) (k : Z) :
  (inject_Z k <= q)%Q -> k <= round_even q.
Proof.
  intro H. apply Z.le_trans with (round_even (inject_Z k)).
  - rewrite (round_even_Z (inject_Z k) k) by reflexivity. lia.
  - apply round_even_le. exact H.
Qed.

Lemma round_even_below (q : Q) (k : Z) :
  (q <= inject_Z k)%Q -> round_even q <= k.
Proof.
  intro H. apply Z.le_trans with (round_even (inject_Z k)).
  - apply round_even_le. exact H.
  - rewrite (round_even_Z (inject_Z k) k) by reflexivity. lia.
Qed.


(** *** Rounding to a double *)

Lemma Qlog2_below (x : Q) (b : Z) : (0 < x)%Q -> (x < pow2 b)%Q -> Qlog2 x < b.
Proof.
  intros Hx H. destruct (Qlog2_spec x Hx) as [H1 _].
  apply (Qpower_lt_compat_l_inv 2); [| reflexivity].
  fold (pow2 (Qlog2 x)) (pow2 b). lra.
Qed.

Lemma quantum_le (x y : Q) : (0 < x)%Q -> (x <= y)%Q -> quantum x <= quantum y.
Proof.
  intros Hx H. unfold quantum. pose proof (Qlog2_le x y Hx H). lia.
Qed.

Lemma quantum_comp (x y : Q) : (0 < x)%Q -> (x == y)%Q -> quantum x = quantum y.
Proof.
  intros Hx E. unfold quantum. rewrite (Qlog2_comp x y Hx E). reflexivity.
Qed.

Lemma scaled_pos (x : Q) (s : Z) : (0 < x)%Q -> (0 < x / pow2 s)%Q.
Proof.
  intro H. apply Qlt_shift_div_l; [apply pow2_pos | lra].
Qed.

Lemma round_pos_comp (x y : Q) :
  (0 < x)%Q -> (x == y)%Q -> (round_pos x == round_pos y)%Q.
Proof.
  intros Hx E. unfold round_pos. rewrite <- (quantum_comp x y Hx E).
  rewrite (round_even_comp (x / pow2 (quantum x)) (y / pow2 (quantum x))).
  - reflexivity.
  - unfold Qdiv. apply Qmult_comp; [exact E | reflexivity].
Qed.

Lemma round_pos_nonneg (x : Q) : (0 < x)%Q -> (0 <= round_pos x)%Q.
Proof.
  intro Hx. unfold round_pos.
  apply Qmult_le_0_compat; [| apply Qlt_le_weak, pow2_pos].
  change 0%Q with (inject_Z 0). rewrite <- Zle_Qle.
  apply round_even_above. apply Qlt_le_weak, scaled_pos, Hx.
Qed.

(** The result is within half a quantum of the operand. *)
Lemma round_pos_near (x : Q) :
  (x - pow2 (quantum x) / 2 <= round_pos x)%Q /\
  (round_pos x <= x + pow2 (quantum x) / 2)%Q.
Proof.
  unfold round_pos. set (s := quantum x).
  destruct (round_even_near (x / pow2 s)) as [H1 H2].
  pose proof (pow2_pos s) as Hs. pose proof (scaled_back x s) as Hb.
  set (r := inject_Z (round_even (x / pow2 s))) in *.
  set (q := (x / pow2 s)%Q) in *.
  assert (Ha : ((q - (1 # 2)) * pow2 s == x - pow2 s / 2)%Q).
  { rewrite <- Hb. field. }
  assert (Hc : ((q + (1 # 2)) * pow2 s == x + pow2 s / 2)%Q).
  { rewrite <- Hb. field. }
  split.
  - rewrite <- Ha. apply Qmult_le_compat_r; lra.
  - rewrite <- Hc. apply Qmult_le_compat_r; lra.
Qed.

(** Where the operand is within less than half a quantum of a multiple of
    the quantum, that multiple is the result. *)
Lemma round_pos_snap (x : Q) (k M : Z) :
  (pow2 k <= x)%Q -> (x < pow2 (k + 1))%Q ->
  (inject_Z M - (1 # 2) < x / pow2 (Z.max (k - 52) (- 1074)))%Q ->
  (x / pow2 (Z.max (k - 52) (- 1074)) < inject_Z M + (1 # 2))%Q ->
  (round_pos x == inject_Z M * pow2 (Z.max (k - 52) (- 1074)))%Q.
Proof.
  intros Hlo Hhi H1 H2. unfold round_pos, quantum.
  rewrite (Qlog2_unique x k Hlo Hhi).
  rewrite (round_even_snap _ M H1 H2). reflexivity.
Qed.

Lemma round_pos_le (x y : Q) :
  (0 < x)%Q -> (x <= y)%Q -> (round_pos x <= round_pos y)%Q.
Proof.
  intros Hx H.
  assert (Hy : (0 < y)%Q) by lra.
  pose proof (quantum_le x y Hx H) as Hq.
  destruct (Z.eq_dec (quantum x) (quantum y)) as [E | N].
  - unfold round_pos. rewrite E.
    apply Qmult_le_compat_r; [| apply Qlt_le_weak, pow2_pos].
    rewrite <- Zle_Qle. apply round_even_le, scaled_le, H.
  - destruct (Qlog2_spec x Hx) as [_ Hx2].
    destruct (Qlog2_spec y Hy) as [Hy1 _].
    assert (Hs : quantum y = Qlog2 y - 52) by (unfold quantum in *; lia).
    assert (He : Qlog2 x < Qlog2 y) by (unfold quantum in *; lia).
    apply Qle_trans with (pow2 (Qlog2 y)).
    + pose (k := Z.max 0 (Qlog2 x + 1 - quantum x)).
      assert (Hk : 0 <= k) by (unfold k; lia).
      assert (Hk' : Qlog2 x + 1 - quantum x <= k) by (unfold k; lia).
      assert (Hk'' : k + quantum x <= Qlog2 y)
        by (unfold k, quantum in *; lia).
      apply Qle_trans with (pow2 (k + quantum x)).
      * unfold round_pos. rewrite pow2_add.
        apply Qmult_le_compat_r; [| apply Qlt_le_weak, pow2_pos].
        rewrite (pow2_Z k Hk). rewrite <- Zle_Qle.
        apply round_even_below. rewrite <- (pow2_Z k Hk).
        apply Qle_trans with (pow2 (Qlog2 x + 1 - quantum x)).
        -- rewrite <- scaled_pow2. apply Qlt_le_weak, scaled_lt, Hx2.
        -- apply pow2_le. exact Hk'.
      * apply pow2_le. exact Hk''.
    + unfold round_pos. rewrite Hs.
      setoid_replace (pow2 (Qlog2 y))
        with (inject_Z (2 ^ 52) * pow2 (Qlog2 y - 52))%Q.
      * apply Qmult_le_compat_r; [| apply Qlt_le_weak, pow2_pos].
        rewrite <- Zle_Qle. apply round_even_above.
        rewrite <- pow2_Z by lia.
        setoid_replace (pow2 52) with (pow2 (Qlog2 y) / pow2 (Qlog2 y - 52))%Q.
        -- apply scaled_le, Hy1.
        -- rewrite scaled_pow2.
           replace (Qlog2 y - (Qlog2 y - 52)) with 52 by lia. reflexivity.
      * rewrite <- pow2_Z by lia. rewrite <- pow2_add.
        replace (52 + (Qlog2 y - 52)) with (Qlog2 y) by lia. reflexivity.
Qed.

Lemma double_pos (x : Q) : (0 < x)%Q -> double x = round_pos x.
Proof.
  intro H. unfold double. apply Qgt_alt in H. rewrite H. reflexivity.
Qed.

Lemma double_zero (x : Q) : (x == 0)%Q -> double x = 0%Q.
Proof.
  intro H. unfold double. apply Qeq_alt in H. rewrite H. reflexivity.
Qed.

Lemma double_comp (x y : Q) : (x == y)%Q -> (double x == double y)%Q.
Proof.
  intro E. unfold double.
  assert (Ec : (x ?= 0)%Q = (y ?= 0)%Q) by (apply Qcompare_comp; [exact E | reflexivity]).
  rewrite <- Ec. destruct (x ?= 0)%Q eqn:C; compared.
  - reflexivity.
  - assert (H : (round_pos (- x) == round_pos (- y))%Q).
    { apply round_pos_comp; [lra | rewrite E; reflexivity]. }
    rewrite H. reflexivity.
  - apply round_pos_comp; [lra | exact E].
Qed.

Lemma double_nonneg (x : Q) : (0 <= x)%Q -> (0 <= double x)%Q.
Proof.
  intro H. destruct (Qlt_le_dec 0 x) as [Hp | Hz].
  - rewrite (double_pos x Hp). apply round_pos_nonneg, Hp.
  - rewrite (double_zero x) by lra. lra.
Qed.

(** Rounding keeps the order. *)
Lemma double_le (x y : Q) :
  (0 <= x)%Q -> (x <= y)%Q -> (double x <= double y)%Q.
Proof.
  intros H0 H. destruct (Qlt_le_dec 0 x) as [Hp | Hz].
  - rewrite (double_pos x Hp), (double_pos y) by lra.
    apply round_pos_le; assumption.
  - rewrite (double_zero x) by lra. apply double_nonneg. lra.
Qed.

(** A multiple of a power of two that is at least the quantum is a double. *)
Lemma double_exact (x : Q) (M t : Z) :
  (0 < x)%Q -> (x == inject_Z M * pow2 t)%Q -> quantum x <= t ->
  (double x == x)%Q.
Proof.
  intros Hx E Ht. rewrite (double_pos x Hx). unfold round_pos.
  set (s := quantum x) in *.
  assert (Hq : (x / pow2 s == inject_Z (M * 2 ^ (t - s)))%Q).
  { rewrite inject_Z_mult, <- pow2_Z by lia. rewrite E.
    unfold Qdiv. rewrite <- Qmult_assoc. apply Qmult_comp; [reflexivity |].
    fold (pow2 t / pow2 s)%Q. apply scaled_pow2. }
  rewrite (round_even_Z _ _ Hq), <- Hq. apply scaled_back.
Qed.

(** The integers of up to 53 bits are doubles. *)
Lemma double_Z (n : Z) :
  0 <= n <= 2 ^ 53 -> (double (inject_Z n) == inject_Z n)%Q.
Proof.
  intro Hn.
  destruct (Z.eq_dec n 0) as [-> | N0]; [reflexivity |].
  assert (Hp : (0 < inject_Z n)%Q).
  { change 0%Q with (inject_Z 0). rewrite <- Zlt_Qlt. lia. }
  destruct (Z.eq_dec n (2 ^ 53)) as [-> | N].
  - reflexivity.
  - apply (double_exact _ n 0 Hp).
    + change (pow2 0) with 1%Q. ring.
    + assert (H : Qlog2 (inject_Z n) < 53).
      { apply Qlog2_below; [exact Hp |]. rewrite pow2_Z by lia.
        rewrite <- Zlt_Qlt. lia. }
      unfold quantum. lia.
Qed.

(** So are the halves below [2^52]. *)
Lemma double_half (n : Z) :
  0 <= n <= 2 ^ 53 ->
  (double (inject_Z n * (1 # 2)) == inject_Z n * (1 # 2))%Q.
Proof.
  intro Hn.
  destruct (Z.eq_dec n 0) as [-> | N0]; [reflexivity |].
  assert (Hp : (0 < inject_Z n)%Q).
  { change 0%Q with (inject_Z 0). rewrite <- Zlt_Qlt. lia. }
  destruct (Z.eq_dec n (2 ^ 53)) as [-> | N].
  - reflexivity.
  - apply (double_exact _ n (-1)).
    + lra.
    + reflexivity.
    + assert (H : Qlog2 (inject_Z n * (1 # 2)) < 52).
      { apply Qlog2_below; [lra |]. rewrite pow2_Z by lia.
        assert (H : (inject_Z n < inject_Z (2 ^ 53))%Q)
          by (rewrite <- Zlt_Qlt; lia).
        change (inject_Z (2 ^ 53)) with (2 * inject_Z (2 ^ 52))%Q in H. lra. }
      unfold quantum. lia.
Qed.

(** In the normal range the result is within [2^-53] of the operand,
    relatively. *)
Lemma double_relative (x : Q) :
  (pow2 (- 1022) <= x)%Q ->
  (x * (1 - pow2 (- 53)) <= double x)%Q /\
  (double x <= x * (1 + pow2 (- 53)))%Q.
Proof.
  intro H.
  assert (Hx : (0 < x)%Q) by (pose proof (pow2_pos (- 1022)); lra).
  rewrite (double_pos x Hx).
  destruct (round_pos_near x) as [H1 H2].
  destruct (Qlog2_spec x Hx) as [Hlo Hhi].
  assert (He : - 1022 <= Qlog2 x).
  { assert (A : - 1022 < Qlog2 x + 1).
    { apply (Qpower_lt_compat_l_inv 2); [| reflexivity].
      fold (pow2 (- 1022)) (pow2 (Qlog2 x + 1)). lra. }
    lia. }
  assert (Hs : quantum x = Qlog2 x - 52) by (unfold quantum; lia).
  rewrite Hs in H1, H2.
  assert (Hu : (pow2 (Qlog2 x - 52) / 2 == pow2 (Qlog2 x) * pow2 (- 53))%Q).
  { rewrite <- pow2_add. replace (Qlog2 x + - 53) with ((Qlog2 x - 52) + -1) by lia.
    rewrite pow2_add. change (pow2 (-1)) with (1 # 2)%Q. field. }
  rewrite Hu in H1, H2.
  assert (Hm : (pow2 (Qlog2 x) * pow2 (- 53) <= x * pow2 (- 53))%Q).
  { apply Qmult_le_compat_r; [exact Hlo | apply Qlt_le_weak, pow2_pos]. }
  split; lra.
Qed.

(** On operands of the kind met here (a count times a fraction, a draw
    divided by a fraction, integers around [2^53] and beyond, results that
    are ties or subnormal) [double] gives what the Standard Library's
    specification of binary64 gives. *)
Lemma double_agrees_with_binary64 :
  forallb agrees
    [(100, 1, 29, 100); (100, 1, 7, 100); (90, 1, 1, 10); (7, 1, 1, 10);
     (1801439850948199, 1, 1, 10); (18014398509481990, 1, 1, 10);
     (9007199254740990, 1, 1, 10); (900719925474098, 1, 1, 10);
     (2 ^ 62 - 1, 1, 1, 2); (2 ^ 61 - 2, 1, 1, 2);
     (2 ^ 53 + 1, 1, 1, 1); (2 ^ 53 + 3, 1, 3, 1);
     (2 ^ 60 + 2 ^ 7, 1, 1, 1); (2 ^ 60 + 3 * 2 ^ 7, 1, 1, 1);
     (2 ^ 60 + 2 ^ 7 + 1, 1, 1, 1); (2 ^ 60 + 2 ^ 7 - 1, 1, 1, 1);
     (1, 3, 1, 7); (7, 10, 9, 10); (123456789, 1000, 1, 10);
     (999999999999, 7, 13, 1000000007); (2 ^ 52 + 1, 2, 1, 3);
     (1, 2 ^ 62, 2 ^ 62, 3); (3, 2 ^ 62, 2 ^ 62 - 1, 5);
     (3, 2 ^ 1000, 2 ^ 73, 1); (3, 2 ^ 1000, 2 ^ 75, 1);
     (1, 2 ^ 1000, 2 ^ 75, 1); (5, 2 ^ 1000, 2 ^ 75, 1);
     (3, 2 ^ 1000, 1, 2 ^ 75); (7, 2 ^ 1000, 1, 2 ^ 76)]
  = true.
Proof.
  vm_compute. reflexivity.
Qed.

(** Within less than half a quantum of an integer of 53 bits, the double is
    that integer. *)
Lemma double_snap (x : Q) (z k : Z) :
  0 <= k <= 52 ->
  (pow2 k <= x)%Q -> (x < pow2 (k + 1))%Q ->
  (inject_Z z - pow2 (k - 53) < x)%Q -> (x < inject_Z z + pow2 (k - 53))%Q ->
  (double x == inject_Z z)%Q.
Proof.
  intros Hk Hlo Hhi H1 H2.
  assert (Hx : (0 < x)%Q) by (pose proof (pow2_pos k); lra).
  rewrite (double_pos x Hx).
  assert (Hs : Z.max (k - 52) (- 1074) = k - 52) by lia.
  assert (Hz : (inject_Z (z * 2 ^ (52 - k)) == inject_Z z / pow2 (k - 52))%Q).
  { rewrite inject_Z_mult, <- pow2_Z by lia.
    replace (52 - k) with (- (k - 52)) by lia. unfold pow2.
    rewrite Qpower_opp. reflexivity. }
  assert (Hh : (pow2 (k - 53) / pow2 (k - 52) == 1 # 2)%Q).
  { rewrite scaled_pow2. replace (k - 53 - (k - 52)) with (- 1) by lia.
    reflexivity. }
  rewrite (round_pos_snap x k (z * 2 ^ (52 - k)) Hlo Hhi); rewrite Hs.
  - rewrite Hz. apply scaled_back.
  - rewrite Hz, <- Hh.
    setoid_replace (inject_Z z / pow2 (k - 52) - pow2 (k - 53) / pow2 (k - 52))%Q
      with ((inject_Z z - pow2 (k - 53)) / pow2 (k - 52))%Q
      by (field; pose proof (pow2_pos (k - 52)); lra).
    apply scaled_lt, H1.
  - rewrite Hz, <- Hh.
    setoid_replace (inject_Z z / pow2 (k - 52) + pow2 (k - 53) / pow2 (k - 52))%Q
      with ((inject_Z z + pow2 (k - 53)) / pow2 (k - 52))%Q
      by (field; pose proof (pow2_pos (k - 52)); lra).
    apply scaled_lt, H2.
Qed.

(** A positive integer between the powers of two around it. *)
Lemma leading_bit (z : Z) :
  0 < z ->
  0 <= Z.log2 z /\
  (pow2 (Z.log2 z) <= inject_Z z)%Q /\
  (inject_Z z + 1 <= 2 * pow2 (Z.log2 z))%Q /\
  (pow2 (Z.log2 z + 1) == 2 * pow2 (Z.log2 z))%Q /\
  (pow2 (Z.log2 z - 53) == pow2 (Z.log2 z) * pow2 (- 53))%Q.
Proof.
  intro Hz. pose proof (Z.log2_nonneg z) as Hk.
  destruct (Z.log2_spec z Hz) as [H1 H2]. unfold Z.succ in H2.
  split; [exact Hk |]. split; [| split; [| split]].
  - rewrite pow2_Z by lia. rewrite <- Zle_Qle. exact H1.
  - rewrite <- pow2_succ, pow2_Z by lia.
    change 1%Q with (inject_Z 1). rewrite <- inject_Z_plus, <- Zle_Qle. lia.
  - apply pow2_succ.
  - apply (pow2_add (Z.log2 z) (- 53)).
Qed.

Lemma double_to_int64_Z (q : Q) (z : Z) :
  (q == inject_Z z)%Q -> 0 <= z < 2 ^ 63 -> double_to_int64 q = Some z.
Proof.
  intros E Hz. unfold double_to_int64.
  assert (Hq : (0 <= q)%Q).
  { rewrite E. change 0%Q with (inject_Z 0). rewrite <- Zle_Qle. lia. }
  rewrite (Qtrunc_floor q Hq), (Qfloor_comp _ _ E), Qfloor_Z.
  unfold int64_min, int64_max.
  replace ((- 2 ^ 63 <=? z) && (z <=? 2 ^ 63 - 1)) with true; [reflexivity |].
  symmetry. apply andb_true_iff. split; apply Z.leb_le; lia.
Qed.

(** ** The metrics window *)

Lemma shouldRecord_iff (self : ReadWriteWorkload) (t : Q) :
  shouldRecord self t = true <->
  (metricsStart self <= t - clientBegin self)%Q /\
  (t - clientBegin self < metricsStart self + metricsDuration self)%Q.
Proof.
  unfold shouldRecord. cbv zeta.
  rewrite andb_true_iff, Qle_bool_iff, Qltb_lt. reflexivity.
Qed.

(** C6.  A sample taken at [t] is recorded exactly when
    [metricsStart <= t - clientBegin < metricsStart + metricsDuration]; with
    a window starting at 1.0s and lasting 2.0s, samples at elapsed times 0.5s
    and 3.5s are left out and a sample at 2.0s is recorded. *)
Theorem shouldRecord_window (self : ReadWriteWorkload) :
  (forall t : Q,
     shouldRecord self t = true <->
     (metricsStart self <= t - clientBegin self)%Q /\
     (t - clientBegin self < metricsStart self + metricsDuration self)%Q) /\
  ((metricsStart self == 1)%Q -> (metricsDuration self == 2)%Q ->
   shouldRecord self (clientBegin self + (1 # 2)) = false /\
   shouldRecord self (clientBegin self + (7 # 2)) = false /\
   shouldRecord self (clientBegin self + 2) = true).
Proof.
  split; [intro t; apply shouldRecord_iff |].
  intros Hs Hd. repeat split.
  - apply not_true_is_false. rewrite shouldRecord_iff. lra.
  - apply not_true_is_false. rewrite shouldRecord_iff. lra.
  - apply shouldRecord_iff. lra.
Qed.

(** ** The ramp *)

Section Ramp.

Variable self : ReadWriteWorkload.
Hypothesis sweeps : 1 <= rampSweepCount self.
Hypothesis duration : (0 < testDuration self)%Q.

Lemma sweepCount_nonzero : ~ (inject_Z (rampSweepCount self) == 0)%Q.
Proof using sweeps.
  unfold Qeq. simpl. lia.
Qed.

Lemma sweepDuration_pos :
  (0 < testDuration self / inject_Z (rampSweepCount self))%Q.
Proof using sweeps duration.
  apply Qlt_shift_div_l.
  - change 0%Q with (inject_Z 0). rewrite <- Zlt_Qlt. lia.
  - lra.
Qed.

Lemma numSweeps_nonneg (now startTime : Q) :
  (startTime <= now)%Q -> (0 <= numSweeps self now startTime)%Q.
Proof using sweeps duration.
  intro H. unfold numSweeps.
  apply Qle_shift_div_l; [apply sweepDuration_pos | lra].
Qed.

(** Where the conversion to [int] is defined, [sweepAlpha] is the
    fractional part of [numSweeps] on even sweeps and one minus it on odd
    sweeps. *)
Lemma sweepAlpha_defined (now startTime : Q) :
  (startTime <= now)%Q ->
  (numSweeps self now startTime < inject_Z (2 ^ 31))%Q ->
  sweepAlpha self now startTime =
  Some (let n := numSweeps self now startTime in
        let fractional := (n - inject_Z (Qfloor n))%Q in
        if Z.rem (Qfloor n) 2 =? 0 then fractional else (1 - fractional)%Q).
Proof using sweeps duration.
  intros Hnow Hfit. unfold sweepAlpha.
  rewrite (fdiv_nonzero _ _ sweepCount_nonzero).
  assert (Hd : ~ (testDuration self / inject_Z (rampSweepCount self) == 0)%Q).
  { pose proof sweepDuration_pos. lra. }
  rewrite (fdiv_nonzero _ _ Hd).
  fold (numSweeps self now startTime).
  pose proof (numSweeps_nonneg now startTime Hnow) as Hn.
  unfold double_to_int. rewrite (Qtrunc_floor _ Hn).
  pose proof (Qfloor_nonneg _ Hn) as H0.
  pose proof (Qfloor_below _ _ Hfit) as H1.
  replace ((int_min <=? Qfloor (numSweeps self now startTime))
           && (Qfloor (numSweeps self now startTime) <=? int_max))
    with true; [reflexivity |].
  symmetry. apply andb_true_iff. unfold int_min, int_max.
  split; apply Z.leb_le; lia.
Qed.

End Ramp.

Lemma Qfloor_shift (a : Q) (k : Z) : Qfloor (a + inject_Z k) = Qfloor a + k.
Proof.
  apply Qfloor_unique.
  - rewrite inject_Z_plus. pose proof (Qfloor_le a). lra.
  - replace (Qfloor a + k + 1) with ((Qfloor a + 1) + k) by lia.
    rewrite inject_Z_plus. pose proof (Qlt_floor a). lra.
Qed.




Lemma shouldRecord_window_witness :
  shouldRecord (workload 100 9 1 (1, 2)%Q (0, 0)%Q false) 2 = true.
Proof.
  destruct (shouldRecord_window (workload 100 9 1 (1, 2)%Q (0, 0)%Q false))
    as [_ H].
  destruct H as [_ [_ H]]; [reflexivity | reflexivity |].
  exact H.
Defined.

(** C4, as stated, fails: with one sweep over a test of 10s, the ramp at
    half the sweep (5s) is 1/2, not about 1; and the ramp at 2.5s is 1/4
    while one [testDuration/sweepCount] later, at 12.5s, it is 3/4. *)
Lemma sweepAlpha_not_periodic_in_one_sweep :
  exists h a b : Q,
    sweepAlpha defaults 5 0 = Some h /\ (h == 1 # 2)%Q /\
    sweepAlpha defaults (5 # 2) 0 = Some a /\
    sweepAlpha defaults ((5 # 2) + 10 / 1) 0 = Some b /\
    (a == 1 # 4)%Q /\ (b == 3 # 4)%Q /\ ~ (a == b)%Q.
Proof.
  do 3 eexists.
  split; [vm_compute; reflexivity |].
  split; [reflexivity |].
  split; [vm_compute; reflexivity |].
  split; [vm_compute; reflexivity |].
  split; [reflexivity |].
  split; [reflexivity |].
  intro H. vm_compute in H. discriminate H.
Qed.

Lemma rem2_shift (c : Z) : 0 <= c -> Z.rem (c + 2) 2 = Z.rem c 2.
Proof.
  intro H. rewrite !Z.rem_mod_nonneg by lia.
  replace (c + 2) with (c + 1 * 2) by lia. apply Z_mod_plus_full.
Qed.

(** C4, amended.  The ramp has period [2 * testDuration / sweepCount] (one
    sweep up and one sweep down), and with one sweep it is 1/2 at half the
    sweep. *)
Theorem sweepAlpha_period (self : ReadWriteWorkload) (now startTime : Q) :
  1 <= rampSweepCount self ->
  (0 < testDuration self)%Q ->
  (startTime <= now)%Q ->
  (numSweeps self now startTime + 2 < inject_Z (2 ^ 31))%Q ->
  let sweepDuration := (testDuration self / inject_Z (rampSweepCount self))%Q in
  (exists a b : Q,
     sweepAlpha self now startTime = Some a /\
     sweepAlpha self (now + 2 * sweepDuration) startTime = Some b /\
     (a == b)%Q) /\
  (rampSweepCount self = 1 ->
   exists h : Q,
     sweepAlpha self (startTime + sweepDuration / 2) startTime = Some h /\
     (h == 1 # 2)%Q).
Proof.
  intros Hs Hd Hnow Hfit sweepDuration. subst sweepDuration.
  pose proof (sweepDuration_pos self Hs Hd) as Hpos.
  set (sweepDuration := (testDuration self / inject_Z (rampSweepCount self))%Q) in *.
  split.
  - assert (Hn : (numSweeps self (now + 2 * sweepDuration) startTime
                  == numSweeps self now startTime + inject_Z 2)%Q).
    { unfold numSweeps. fold sweepDuration. change (inject_Z 2) with 2%Q.
      field. lra. }
    clearbody sweepDuration.
    pose proof (numSweeps_nonneg self Hs Hd now startTime Hnow) as H0.
    do 2 eexists. split; [| split].
    + apply sweepAlpha_defined; try assumption. lra.
    + apply sweepAlpha_defined; try assumption; [lra |].
      change (inject_Z 2) with 2%Q in Hn. lra.
    + cbv zeta. rewrite (Qfloor_comp _ _ Hn), Qfloor_shift.
      rewrite rem2_shift by (apply Qfloor_nonneg; exact H0).
      rewrite inject_Z_plus.
      destruct (Z.rem _ 2 =? 0); rewrite Hn; ring.
  - intro H1.
    assert (Hn : (numSweeps self (startTime + sweepDuration / 2) startTime
                  == 1 # 2)%Q).
    { unfold numSweeps. fold sweepDuration. field. lra. }
    eexists. split.
    + apply sweepAlpha_defined; try assumption.
      * assert ((0 <= sweepDuration / 2)%Q)
          by (apply Qle_shift_div_l; lra).
        lra.
      * rewrite Hn. reflexivity.
    + cbv zeta. rewrite (Qfloor_comp _ _ Hn).
      change (Qfloor (1 # 2)) with 0. change (Z.rem 0 2 =? 0) with true.
      cbv iota. change (inject_Z 0) with 0%Q. rewrite Hn. ring.
Qed.

Lemma sweepAlpha_period_witness :
  exists a b : Q,
    sweepAlpha defaults 3 0 = Some a /\
    sweepAlpha defaults (3 + 2 * (10 / inject_Z 1)) 0 = Some b /\
    (a == b)%Q.
Proof.
  apply (sweepAlpha_period defaults 3 0).
  - simpl. lia.
  - reflexivity.
  - discriminate.
  - reflexivity.
Defined.

(** ** Probabilities *)

Lemma clamp01_unit (p : Q) : (0 <= p)%Q -> (p <= 1)%Q -> (clamp01 p == p)%Q.
Proof.
  intros H0 H1. unfold clamp01.
  rewrite (Q.min_r 1 p H1). apply Q.max_r. exact H0.
Qed.

Lemma sumQ_ext (f g : Z -> Q) (n : nat) :
  (forall i : Z, 0 <= i < Z.of_nat n -> (f i == g i)%Q) ->
  (sumQ f n == sumQ g n)%Q.
Proof.
  induction n as [| n IH]; intro H; simpl sumQ; [reflexivity |].
  rewrite IH, (H (Z.of_nat n)); [reflexivity | lia |].
  intros i Hi. apply H. lia.
Qed.

Lemma sumQ_ones (n : nat) :
  (sumQ (fun _ => 1%Q) n == inject_Z (Z.of_nat n))%Q.
Proof.
  induction n as [| n IH]; [reflexivity |].
  simpl sumQ. rewrite IH, Nat2Z.inj_succ. unfold Z.succ.
  rewrite inject_Z_plus. reflexivity.
Qed.

Lemma sumQ_app (f : Z -> Q) (n k : nat) :
  (sumQ f (n + k) == sumQ f n + sumQ (fun i => f (Z.of_nat n + i)%Z) k)%Q.
Proof.
  induction k as [| k IH].
  - rewrite Nat.add_0_r. simpl sumQ. ring.
  - rewrite Nat.add_succ_r. simpl sumQ. rewrite IH, Nat2Z.inj_add. ring.
Qed.

Lemma sumQ_tenths (m : nat) :
  (sumQ (fun i => if tenth i then 1 else 0)%Q (m * 10)
   == inject_Z (Z.of_nat m))%Q.
Proof.
  induction m as [| m IH]; [reflexivity |].
  replace (S m * 10)%nat with (m * 10 + 10)%nat by lia.
  rewrite sumQ_app, IH.
  assert (Hmod : forall j, 0 <= j < 10 ->
            tenth (Z.of_nat (m * 10) + j) = (j =? 0)).
  { intros j Hj. unfold tenth.
    replace (Z.of_nat (m * 10) + j) with (j + Z.of_nat m * 10) by lia.
    rewrite Z_mod_plus_full, Z.mod_small by lia. reflexivity. }
  assert (Hs : (sumQ (fun i => if tenth (Z.of_nat (m * 10) + i)
                             then 1 else 0)%Q 10 == 1)%Q).
  { simpl sumQ. rewrite !Hmod by (simpl; lia). reflexivity. }
  rewrite Hs, Nat2Z.inj_succ. unfold Z.succ. rewrite inject_Z_plus.
  reflexivity.
Qed.

(** *** The mix of transactions *)

(** C1, as stated, fails: with A = 10 reads and no write, B = 1 read and 9
    writes and [alpha] = 0.1, the read-only transaction A is not chosen with
    probability 0.1. *)
Lemma aTransaction_not_one_in_ten :
  ~ (prob (aTransaction defaults 0 0)
          (fun a => a && (reads defaults a =? 10) && (writes defaults a =? 0))
     == 1 # 10)%Q.
Proof.
  intro H. vm_compute in H. discriminate H.
Qed.

(** C1, amended.  With A = 10 reads and no write, B = 1 read and 9 writes,
    [alpha] = 0.1 and [rampTransactionType] off, the transaction is the
    read-only A with probability 0.9 ([random01() > alpha]) and B with
    probability 0.1. *)
Theorem aTransaction_nine_in_ten (self : ReadWriteWorkload) (now startTime : Q) :
  readsPerTransactionA self = 10 -> writesPerTransactionA self = 0 ->
  readsPerTransactionB self = 1 -> writesPerTransactionB self = 9 ->
  (alpha self == 1 # 10)%Q ->
  rampTransactionType self = false ->
  (prob (aTransaction self now startTime)
        (fun a => a && (reads self a =? 10) && (writes self a =? 0))
   == 9 # 10)%Q /\
  (prob (aTransaction self now startTime)
        (fun a => negb a && (reads self a =? 1) && (writes self a =? 9))
   == 1 # 10)%Q.
Proof.
  intros HrA HwA HrB HwB Ha Hramp.
  unfold aTransaction, reads, writes. rewrite Hramp. simpl prob.
  rewrite HrA, HwA, HrB, HwB. simpl.
  rewrite (clamp01_unit (alpha self)) by lra.
  rewrite Ha. split; reflexivity.
Qed.

Lemma aTransaction_nine_in_ten_witness :
  (prob (aTransaction defaults 0 0)
        (fun a => a && (reads defaults a =? 10) && (writes defaults a =? 0))
   == 9 # 10)%Q.
Proof.
  apply (aTransaction_nine_in_ten defaults 0 0); reflexivity.
Defined.

(** *** Hot keys *)

(** C2, as stated, fails: with [hotKeyFraction] = 0.1 and
    [hotTrafficFraction] = 0.5 over 100 nodes, an index of [0, 10) is
    returned with probability 0.1, not 0.5. *)
Lemma getRandomKey_low_range_not_half :
  exists hot : Q * Q,
    hotKeyOptions (Some (double (1 # 10))) (Some (1 # 2)) = Some hot /\
    (prob (getRandomKey (workload 100 9 1 (0, 10)%Q hot false) 100)
          (fun k => (0 <=? k) && (k <? 10)) == 1 # 10)%Q /\
    ~ (prob (getRandomKey (workload 100 9 1 (0, 10)%Q hot false) 100)
            (fun k => (0 <=? k) && (k <? 10)) == 1 # 2)%Q.
Proof.
  eexists. split; [vm_compute; reflexivity |].
  split; [vm_compute; reflexivity |].
  intro H. vm_compute in H. discriminate H.
Qed.

(** No power of two is a multiple of ten. *)
Lemma pow2_not_tenfold (k r : Z) : 0 <= k -> 2 ^ k <> 10 * r.
Proof.
  intros Hk E.
  assert (H : 2 ^ k mod 5 <> 0).
  { clear E. revert k Hk. apply natlike_ind; [discriminate |].
    intros k Hk IH. rewrite Z.pow_succ_r by exact Hk.
    rewrite Z.mul_mod by lia.
    pose proof (Z.mod_pos_bound (2 ^ k) 5 ltac:(lia)) as Hb.
    assert (C : 2 ^ k mod 5 = 1 \/ 2 ^ k mod 5 = 2 \/ 2 ^ k mod 5 = 3
                \/ 2 ^ k mod 5 = 4) by lia.
    destruct C as [-> | [-> | [-> | ->]]]; discriminate. }
  apply H. rewrite E. replace (10 * r) with (2 * r * 5) by lia.
  apply Z_mod_mult.
Qed.

Section HotKeys.

Variable self : ReadWriteWorkload.
Hypothesis hot_fraction : hotKeyFraction self = double (1 # 10).

(** Ten times the double 0.1 is [1 + 2^-54]. *)
Lemma tenth_double : (10 * double (1 # 10) == 1 + pow2 (- 54))%Q.
Proof.
  reflexivity.
Qed.

(** The bound of the hot draw over [10 * m] nodes is [m]. *)
Lemma hot_bound (m : Z) :
  0 < m -> 10 * m <= 2 ^ 53 ->
  double_to_int64 (fmul (of_integer (10 * m)) (hotKeyFraction self)) = Some m.
Proof using hot_fraction.
  intros Hm Hb. rewrite hot_fraction. unfold fmul, of_integer.
  apply double_to_int64_Z; [| lia].
  pose proof (double_Z (10 * m) ltac:(lia)) as Hn.
  pose proof tenth_double as Ht.
  set (h := double (1 # 10)) in *.
  set (x := (double (inject_Z (10 * m)) * h)%Q).
  assert (Hx : (x == inject_Z m * (1 + pow2 (- 54)))%Q).
  { unfold x. rewrite Hn, <- Ht, inject_Z_mult.
    change (inject_Z 10) with 10%Q. ring. }
  destruct (leading_bit m Hm) as (Hk & H1 & H2 & H3 & H4).
  assert (Hk52 : Z.log2 m < 50).
  { apply Z.log2_lt_pow2; lia. }
  assert (Hm50 : (inject_Z m <= inject_Z (2 ^ 50))%Q)
    by (rewrite <- Zle_Qle; lia).
  assert (Hm0 : (0 < inject_Z m)%Q).
  { change 0%Q with (inject_Z 0). rewrite <- Zlt_Qlt. exact Hm. }
  change (inject_Z (2 ^ 50)) with 1125899906842624%Q in Hm50.
  change (pow2 (- 54)) with (1 # 18014398509481984)%Q in Hx.
  change (pow2 (- 53)) with (1 # 9007199254740992)%Q in H4.
  pose proof (pow2_pos (Z.log2 m)) as Hp.
  apply (double_snap x m (Z.log2 m)); [lia | | | |];
    rewrite ?H3, ?H4; lra.
Qed.

(** The hot branch maps the draw [r] to the index [10 * r]. *)
Lemma hot_spread (r : Z) :
  0 <= r -> 10 * r < 2 ^ 53 ->
  (q <- defined (fquot (of_integer r) (hotKeyFraction self)) DivideByZero ;;
   defined (double_to_int64 q) BadConversion)%rand = Ret (10 * r).
Proof using hot_fraction.
  intros Hr Hb. rewrite hot_fraction. unfold fquot, of_integer.
  change (Qeq_bool (double (1 # 10)) 0) with false.
  assert (E : fdiv (double (inject_Z r)) (double (1 # 10))
              = Some (double (inject_Z r) / double (1 # 10))%Q) by reflexivity.
  rewrite E. cbn [defined rbind].
  enough (H : double_to_int64 (double (double (inject_Z r) / double (1 # 10)))
              = Some (10 * r)) by (rewrite H; reflexivity).
  apply double_to_int64_Z; [| lia].
  pose proof (double_Z r ltac:(lia)) as Hn.
  pose proof tenth_double as Ht.
  set (h := double (1 # 10)) in *.
  assert (Hh : (0 < h)%Q) by reflexivity.
  set (x := (double (inject_Z r) / h)%Q).
  assert (Hx : (x * (1 + pow2 (- 54)) == inject_Z (10 * r))%Q).
  { unfold x. rewrite Hn, <- Ht, inject_Z_mult.
    change (inject_Z 10) with 10%Q. field. lra. }
  change (pow2 (- 54)) with (1 # 18014398509481984)%Q in Hx.
  destruct (Z.eq_dec r 0) as [-> | Hr0].
  - rewrite (double_zero x); [reflexivity |].
    change (inject_Z (10 * 0)) with 0%Q in Hx. lra.
  - destruct (leading_bit (10 * r) ltac:(lia)) as (Hk & H1 & H2 & H3 & H4).
    assert (Hk52 : Z.log2 (10 * r) < 53).
    { apply Z.log2_lt_pow2; lia. }
    assert (Hne : 2 ^ Z.log2 (10 * r) <> 10 * r)
      by (apply pow2_not_tenfold; exact Hk).
    assert (H1' : (pow2 (Z.log2 (10 * r)) + 1 <= inject_Z (10 * r))%Q).
    { rewrite pow2_Z by lia. change 1%Q with (inject_Z 1).
      rewrite <- inject_Z_plus, <- Zle_Qle.
      destruct (Z.log2_spec (10 * r) ltac:(lia)) as [A _]. lia. }
    assert (Hp52 : (pow2 (Z.log2 (10 * r)) <= pow2 52)%Q)
      by (apply pow2_le; lia).
    change (pow2 52) with 4503599627370496%Q in Hp52.
    change (pow2 (- 53)) with (1 # 9007199254740992)%Q in H4.
    apply (double_snap x (10 * r) (Z.log2 (10 * r))); [lia | | | |];
      rewrite ?H3, ?H4; lra.
Qed.

End HotKeys.

(** C2, amended.  With [hotKeyFraction] = 0.1 (as a double) and
    [hotTrafficFraction] = 0.5 over [10 * m] nodes ([0 < 10 * m <= 2^53]),
    the hot branch, taken with probability [forceHotProbability], maps its
    draw [r] of [0, m) to the index [10 * r]: the hot indices are the
    multiples of ten, spread over the keyspace, and a multiple of ten is
    returned with probability
    [forceHotProbability + (1 - forceHotProbability) / 10], which is 0.5 to
    within [2^-53]. *)
Theorem getRandomKey_hot_half (self : ReadWriteWorkload) (m : Z) :
  hotKeyOptions (Some (double (1 # 10))) (Some (1 # 2))
  = Some (hotKeyFraction self, forceHotProbability self) ->
  0 < m -> 10 * m <= 2 ^ 53 ->
  (forall (u : Q) (r : Z),
     (0 <= u)%Q -> (u < forceHotProbability self)%Q -> 0 <= r < m ->
     run (getRandomKey self (10 * m)) [U01 u; I64 r]
     = (Value (10 * r), [], [CallRandom01; CallRandomInt64 0 m])) /\
  (prob (getRandomKey self (10 * m)) tenth
   == forceHotProbability self + (1 - forceHotProbability self) * (1 # 10))%Q /\
  (Qabs (prob (getRandomKey self (10 * m)) tenth - (1 # 2)) <= pow2 (- 53))%Q.
Proof.
  intros H Hm Hb.
  assert (Hopt : exists fhp : Q,
             hotKeyOptions (Some (double (1 # 10))) (Some (1 # 2))
             = Some (double (1 # 10), fhp) /\
             truthy fhp = true /\ (0 < fhp)%Q /\ (fhp < 1)%Q /\
             (Qabs (fhp + (1 - fhp) * (1 # 10) - (1 # 2)) <= pow2 (- 53))%Q).
  { eexists. split; [reflexivity |].
    split; [vm_compute; reflexivity |].
    split; [vm_compute; reflexivity |].
    split; [vm_compute; reflexivity |].
    apply Qle_bool_iff. vm_compute. reflexivity. }
  destruct Hopt as (fhp & Ho & Ht & Hf0 & Hf1 & Hnear).
  rewrite Ho in H. injection H as Hk Hf. symmetry in Hk.
  assert (Hcold : to_int64 (10 * m) = 10 * m).
  { unfold to_int64. rewrite Z.mod_small; lia. }
  assert (Hm1 : (0 <? m) = true) by (apply Z.ltb_lt; lia).
  assert (Hm10 : (0 <? 10 * m) = true) by (apply Z.ltb_lt; lia).
  assert (Hprob : (prob (getRandomKey self (10 * m)) tenth
                   == fhp + (1 - fhp) * (1 # 10))%Q).
  { unfold getRandomKey. rewrite <- Hf, Ht, Hcold. cbn [rbind prob].
    rewrite (hot_bound self Hk m Hm Hb). cbn [defined rbind].
    unfold randomInt64. rewrite Hm1, Hm10. cbn [rbind prob].
    rewrite Hm1, Hm10, !Z.sub_0_r.
    assert (Hhot : (sumQ (fun i : Z =>
                      prob (q <- defined (fquot (of_integer (0 + i))
                                            (hotKeyFraction self)) DivideByZero ;;
                            defined (double_to_int64 q) BadConversion)%rand
                           tenth) (Z.to_nat m) == inject_Z m)%Q).
    { rewrite (sumQ_ext _ (fun _ => 1%Q)).
      - rewrite sumQ_ones, Z2Nat.id by lia. reflexivity.
      - intros i Hi. rewrite Z2Nat.id in Hi by lia.
        rewrite (hot_spread self Hk (0 + i)) by lia.
        cbn [prob]. unfold tenth.
        rewrite Z.mul_comm, Z_mod_mult. reflexivity. }
    assert (Hall : (sumQ (fun i : Z => if tenth (0 + i) then 1 else 0)%Q
                         (Z.to_nat (10 * m)) == inject_Z m)%Q).
    { replace (Z.to_nat (10 * m)) with (Z.to_nat m * 10)%nat by lia.
      rewrite <- (Z2Nat.id m) at 2 by lia.
      rewrite <- sumQ_tenths. apply sumQ_ext. intros i _. reflexivity. }
    rewrite Hhot, Hall, inject_Z_mult.
    rewrite (clamp01_unit fhp) by lra.
    assert (Hpos : (0 < inject_Z m)%Q).
    { change 0%Q with (inject_Z 0). rewrite <- Zlt_Qlt. exact Hm. }
    change (inject_Z 10) with 10%Q. field. lra. }
  split; [| split].
  - intros u r Hu0 Hu Hr. rewrite <- Hf in Hu.
    unfold getRandomKey. rewrite <- Hf, Ht. cbn [rbind run].
    assert (Eu : unit_draw u = true).
    { unfold unit_draw. apply andb_true_iff.
      split; [apply Qle_bool_iff; exact Hu0 | apply Qltb_lt; lra]. }
    assert (El : Qltb u fhp = true) by (apply Qltb_lt; exact Hu).
    rewrite Eu, El.
    rewrite (hot_bound self Hk m Hm Hb). cbn [defined rbind].
    unfold randomInt64. rewrite Hm1. cbn [rbind run].
    assert (Er : (0 <=? r) && (r <? m) = true).
    { apply andb_true_iff. split; [apply Z.leb_le | apply Z.ltb_lt]; lia. }
    rewrite Er. rewrite (hot_spread self Hk r) by lia. reflexivity.
  - rewrite <- Hf. exact Hprob.
  - rewrite Hprob. exact Hnear.
Qed.

Lemma getRandomKey_hot_half_witness :
  run (getRandomKey hot_tenth (10 * 10)) [U01 (1 # 4); I64 7]
  = (Value (10 * 7), [], [CallRandom01; CallRandomInt64 0 10]).
Proof.
  apply (getRandomKey_hot_half hot_tenth 10).
  - reflexivity.
  - reflexivity.
  - discriminate.
  - discriminate.
  - reflexivity.
  - lia.
Defined.

(** With no forced hot traffic ([forceHotProbability] zero, as when both
    hot-key options are left at 0), [getRandomKey] is the uniform draw. *)
Lemma getRandomKey_uniform (self : ReadWriteWorkload) (n : Z) :
  (forceHotProbability self == 0)%Q ->
  getRandomKey self n = randomInt64 0 (to_int64 n).
Proof.
  intro H. unfold getRandomKey.
  apply truthy_false in H. rewrite H. reflexivity.
Qed.

(** C3 (the code departs from it).  The options [hotKeyFraction] = 0 and
    [hotTrafficFraction] = 0.5 pass the constructor's assertions and give
    [forceHotProbability] = 0.5; on a draw of 0.25, [getRandomKey] over 100
    nodes takes the hot branch and asks for an index of the empty range
    [0, 0) instead of drawing from [0, 100). *)
Theorem getRandomKey_hot_branch_without_hot_keys :
  exists hot : Q * Q,
    hotKeyOptions (Some 0%Q) (Some (1 # 2)) = Some hot /\
    (fst hot == 0)%Q /\ (snd hot == 1 # 2)%Q /\
    run (getRandomKey (workload 100 9 1 (0, 10)%Q hot false) 100)
        [U01 (1 # 4); I64 7]
    = (Faulted (EmptyRange 0 0), [I64 7],
       [CallRandom01; CallRandomInt64 0 0]).
Proof.
  eexists. split; [vm_compute; reflexivity |].
  repeat split.
Qed.

(** ** What the actor code leaves alone *)

Lemma first_failure_In (rs : list reply) (d : Q) (e : Error) :
  first_failure rs = Some (d, e) -> In (Failed d e) rs.
Proof.
  revert d e. induction rs as [| r rs IH]; intros d e H; [discriminate |].
  destruct r as [d0 v | d0 e0]; simpl in H.
  - right. apply IH. exact H.
  - destruct (first_failure rs) as [[d' e'] |].
    + destruct (Qltb d' d0); injection H as <- <-.
      * right. apply IH. reflexivity.
      * left. reflexivity.
    + injection H as <- <-. left. reflexivity.
Qed.

Lemma max_delay_In (rs : list reply) :
  max_delay rs = 0%Q \/ exists r, In r rs /\ delay_of r = max_delay rs.
Proof.
  induction rs as [| r rs IH]; [left; reflexivity |].
  simpl. unfold Qmax, GenericMinMax.gmax.
  destruct (delay_of r ?= max_delay rs)%Q.
  - right. exists r. split; [left |]; reflexivity.
  - destruct IH as [H | [r' [Hin H]]]; [left; exact H |].
    right. exists r'. split; [right |]; assumption.
  - right. exists r. split; [left |]; reflexivity.
Qed.

Section Preserves.

Variable R : world -> world -> Prop.
Variable okop : txop -> Prop.
Variable okup : update -> Prop.

Hypothesis F : frame R okop okup.

Lemma preserves_ret {A : Type} (a : A) : preserves R (ret a).
Proof using F. intro w. apply (F_refl F). Qed.

Lemma preserves_bind {A B : Type} (c : M A) (f : A -> M B) :
  preserves R c -> (forall a, preserves R (f a)) -> preserves R (bind c f).
Proof using F.
  intros Hc Hf w. unfold bind. specialize (Hc w).
  destruct (c w) as [[a | e | | x |] w1]; simpl in *; try exact Hc.
  eapply (F_trans F); [exact Hc | apply Hf].
Qed.

Lemma preserves_catch {A : Type} (c : M A) (h : Error -> M A) :
  preserves R c -> (forall e, preserves R (h e)) -> preserves R (catch c h).
Proof using F.
  intros Hc Hh w. unfold catch. specialize (Hc w).
  destruct (c w) as [[a | e | | x |] w1]; simpl in *; try exact Hc.
  eapply (F_trans F); [exact Hc | apply Hh].
Qed.

Lemma preserves_now : preserves R now.
Proof using F. intro w. apply (F_refl F). Qed.

Lemma preserves_throw {A : Type} (e : Error) : preserves R (@throw A e).
Proof using F. intro w. apply (F_refl F). Qed.

Lemma preserves_never {A : Type} : preserves R (@never A).
Proof using F. intro w. apply (F_refl F). Qed.

Lemma preserves_pending (n : nat) : preserves R (pending n).
Proof using F. intro w. apply (F_refl F). Qed.

Lemma preserves_index {A : Type} (v : list A) (i : Z) : preserves R (index v i).
Proof using F.
  intro w. unfold index.
  destruct (if i <? 0 then None else nth_error v (Z.to_nat i)); apply (F_refl F).
Qed.

Lemma preserves_issue (op : txop) : okop op -> preserves R (issue op).
Proof using F. intros H w. apply (F_emit F). exact H. Qed.

Lemma preserves_modify (u : update) : okup u -> preserves R (modify u).
Proof using F. intros H w. apply (F_account F). exact H. Qed.

Lemma preserves_wait (op : txop) : okop op -> preserves R (wait op).
Proof using F.
  intros H w. unfold wait. cbv zeta.
  pose proof ((F_emit F) op w H) as He.
  destruct (replies (emit op w)) as [| [d v | d e] rest] eqn:E; simpl;
    [exact He | |];
    (eapply (F_trans F); [exact He |]; apply (F_advance F); right;
     eexists; rewrite E; split; [left; reflexivity | reflexivity]).
Qed.

Lemma preserves_rand {A : Type} (c : Rand A) : preserves R (rand c).
Proof using F.
  intro w. unfold rand.
  destruct (run c (draws w)) as [[[a | f |] rest] calls]; apply (F_draws F).
Qed.

Lemma preserves_randomUniqueID : preserves R randomUniqueID.
Proof using F.
  intro w. unfold randomUniqueID.
  destruct (draws w) as [| [u | z | id] rest]; simpl;
    first [apply (F_refl F) | apply (F_draws F)].
Qed.

Lemma preserves_when (b : bool) (c : M unit) :
  preserves R c -> preserves R (when b c).
Proof using F.
  intro H. destruct b; [exact H | apply preserves_ret].
Qed.

Lemma preserves_forEach {A : Type} (l : list A) (body : A -> M unit) :
  (forall x, preserves R (body x)) -> preserves R (forEach l body).
Proof using F.
  intro H. induction l as [| x l IH]; simpl.
  - apply preserves_ret.
  - apply preserves_bind; [apply H | intros _; exact IH].
Qed.

Lemma preserves_collect {A : Type} (n : nat) (c : M A) :
  preserves R c -> preserves R (collect n c).
Proof using F.
  intro H. induction n as [| n IH]; simpl.
  - apply preserves_ret.
  - apply preserves_bind; [exact H | intro x].
    apply preserves_bind; [exact IH | intro xs]. apply preserves_ret.
Qed.

Lemma preserves_shouldRecordNow (self : ReadWriteWorkload) :
  preserves R (shouldRecordNow self).
Proof using F. intro w. apply (F_refl F). Qed.

Lemma preserves_logged (b : bool) (latency : Q) :
  preserves R (logged b latency).
Proof using F.
  unfold logged. apply preserves_when.
  repeat (apply preserves_bind; [| intros _]);
    apply preserves_modify; apply (F_read_updates F); reflexivity.
Qed.

Lemma preserves_logLatency (op : txop) (b : bool) :
  okop op -> preserves R (logLatency op b).
Proof using F.
  intro H. unfold logLatency.
  apply preserves_bind; [apply preserves_now | intro t0].
  apply preserves_bind; [apply preserves_wait; exact H | intros _].
  apply preserves_bind; [apply preserves_now | intro t1].
  apply preserves_logged.
Qed.

Lemma preserves_waitForAll (n : nat) (b : bool) :
  preserves R (waitForAll n b).
Proof using F.
  intro w. unfold waitForAll, bind at 1, pending.
  destruct (first_failure (firstn n (replies w))) as [[d e] |] eqn:E.
  - unfold bind at 1, settle.
    eapply (F_trans F).
    + apply ((F_advance F) w n d). right. exists (Failed d e).
      split; [apply first_failure_In; exact E | reflexivity].
    + apply preserves_bind; [| intros _; apply preserves_throw].
      apply preserves_forEach. intro r. apply preserves_logged.
  - unfold bind at 1, settle.
    eapply (F_trans F).
    + apply ((F_advance F) w n). apply max_delay_In.
    + apply preserves_bind.
      * apply preserves_forEach. intro r. apply preserves_logged.
      * intros _. destruct (_ <? _)%nat;
          [apply preserves_never | apply preserves_ret].
Qed.

Lemma preserves_readOp (self : ReadWriteWorkload) (ks : list Z) (b : bool) :
  preserves R (readOp self ks b).
Proof using F.
  unfold readOp. destruct (length ks =? 0)%nat; [apply preserves_ret |].
  destruct (negb (dependentReads self)).
  - apply preserves_bind; [| intros _; apply preserves_waitForAll].
    apply preserves_forEach. intro k.
    apply preserves_bind; [| intros _].
    + apply preserves_modify, (F_read_updates F). reflexivity.
    + apply preserves_issue, (F_reads F). unfold getOp.
      destruct (rangeReads self); reflexivity.
  - apply preserves_forEach. intro k.
    apply preserves_bind; [| intros _].
    + apply preserves_modify, (F_read_updates F). reflexivity.
    + apply preserves_logLatency, (F_reads F). reflexivity.
Qed.

Lemma preserves_build (self : ReadWriteWorkload) (a : bool) (tstart : Q) :
  preserves R (build self a tstart).
Proof using F.
  unfold build. cbv zeta.
  apply preserves_bind; [apply preserves_rand | intro ks].
  apply preserves_bind; [apply preserves_rand | intro vs].
  apply preserves_bind;
    [apply preserves_collect, preserves_randomUniqueID | intro rs].
  apply preserves_bind; [| intros _; apply preserves_ret].
  apply preserves_when.
  apply preserves_bind; [apply preserves_randomUniqueID | intro id].
  apply preserves_issue, (F_reads F). reflexivity.
Qed.

Lemma preserves_readPhase (self : ReadWriteWorkload) (st : built) :
  preserves R (readPhase self st).
Proof using F.
  unfold readPhase.
  apply preserves_bind; [apply preserves_now | intro t0].
  apply preserves_bind; [| intro v].
  { apply preserves_wait, (F_reads F).
    destruct (inconsistentReads self); reflexivity. }
  apply preserves_bind; [| intros _].
  { apply preserves_when, preserves_issue, (F_reads F). reflexivity. }
  apply preserves_bind; [apply preserves_now | intro t1].
  apply preserves_bind; [apply preserves_shouldRecordNow | intro r1].
  apply preserves_bind; [| intros _].
  { apply preserves_when, preserves_modify, (F_read_updates F). reflexivity. }
  apply preserves_bind; [apply preserves_now | intro t2].
  apply preserves_bind; [apply preserves_shouldRecordNow | intro r2].
  apply preserves_bind; [apply preserves_readOp | intros _].
  apply preserves_bind; [apply preserves_now | intro t3].
  apply preserves_bind; [apply preserves_shouldRecordNow | intro r3].
  apply preserves_when, preserves_modify, (F_read_updates F). reflexivity.
Qed.

Lemma preserves_applyWrites (self : ReadWriteWorkload) (st : built) (n : Z) :
  (forall op, okop op) -> preserves R (applyWrites self st n).
Proof using F.
  intro Hop. unfold applyWrites. cbv zeta.
  apply preserves_bind; [| intros _].
  { destruct (adjacentWrites self).
    - apply preserves_bind; [apply preserves_rand | intro k].
      apply preserves_forEach. intro op.
      apply preserves_bind; [apply preserves_index | intro v].
      apply preserves_issue, Hop.
    - apply preserves_forEach. intro op.
      apply preserves_bind; [apply preserves_rand | intro k].
      apply preserves_bind; [apply preserves_index | intro v].
      apply preserves_issue, Hop. }
  apply preserves_bind; [| intros _];
    (apply preserves_forEach; intro op;
     apply preserves_bind; [apply preserves_index | intro r];
     apply preserves_issue, Hop).
Qed.

Lemma preserves_commitPhase (self : ReadWriteWorkload) :
  okop OpCommit -> (forall x, okup (AddSample commitLatencies x)) ->
  preserves R (commitPhase self).
Proof using F.
  intros Hop Hup. unfold commitPhase.
  apply preserves_bind; [apply preserves_now | intro t0].
  apply preserves_bind; [apply preserves_wait, Hop | intros _].
  apply preserves_bind; [apply preserves_now | intro t1].
  apply preserves_bind; [apply preserves_shouldRecordNow | intro r].
  apply preserves_when, preserves_modify, Hup.
Qed.

Lemma preserves_attempt (self : ReadWriteWorkload) (a : bool) (st : built) :
  (writes self a <> 0 ->
   (forall op, okop op) /\ (forall x, okup (AddSample commitLatencies x))) ->
  preserves R (attempt self a st).
Proof using F.
  intro H. unfold attempt. cbv zeta.
  apply preserves_bind; [apply preserves_readPhase | intros _].
  destruct (writes self a =? 0) eqn:E; [apply preserves_ret |].
  apply Z.eqb_neq in E. destruct (H E) as [Hop Hup].
  apply preserves_bind; [apply preserves_applyWrites, Hop | intros _].
  apply preserves_commitPhase; [apply Hop | exact Hup].
Qed.

Lemma preserves_recover (self : ReadWriteWorkload) (e : Error) :
  okup (Incr totalRetriesMetric) -> okup (Incr retries) ->
  preserves R (recover self e).
Proof using F.
  intros H1 H2. unfold recover.
  apply preserves_bind; [| intros _].
  { apply preserves_wait, (F_reads F). reflexivity. }
  apply preserves_bind; [apply preserves_modify, H1 | intros _].
  apply preserves_bind; [apply preserves_shouldRecordNow | intro r].
  apply preserves_when, preserves_modify, H2.
Qed.

Lemma preserves_retryLoop (fuel : nat) (self : ReadWriteWorkload)
    (a : bool) (st : built) :
  (writes self a <> 0 ->
   (forall op, okop op) /\ (forall x, okup (AddSample commitLatencies x))) ->
  okup (Incr totalRetriesMetric) -> okup (Incr retries) ->
  preserves R (retryLoop fuel self a st).
Proof using F.
  intros Hw H1 H2. induction fuel as [| fuel IH]; simpl.
  - intro w. apply (F_refl F).
  - apply preserves_catch; [apply preserves_attempt, Hw | intro e].
    apply preserves_bind; [apply preserves_recover; assumption | intros _].
    exact IH.
Qed.

Lemma preserves_retry (self : ReadWriteWorkload) (a : bool) (st : built) :
  (writes self a <> 0 ->
   (forall op, okop op) /\ (forall x, okup (AddSample commitLatencies x))) ->
  okup (Incr totalRetriesMetric) -> okup (Incr retries) ->
  preserves R (retry self a st).
Proof using F.
  intros Hw H1 H2 w. unfold retry. apply preserves_retryLoop; assumption.
Qed.

Lemma preserves_record (self : ReadWriteWorkload) (a : bool) (tstart : Q) :
  okup (Incr aTransactions) -> okup (Incr bTransactions) ->
  (forall x, okup (AddSample latencies x)) ->
  preserves R (record self a tstart).
Proof using F.
  intros Ha Hb Hl. unfold record.
  apply preserves_bind; [apply preserves_now | intro t].
  apply preserves_bind; [apply preserves_shouldRecordNow | intro r].
  apply preserves_when.
  apply preserves_bind; [| intros _; apply preserves_modify, Hl].
  apply preserves_modify. destruct a; assumption.
Qed.

End Preserves.

(** *** Three frames: the trace, the aggregates, the replies left *)

Lemma issued_refl (P : Q * txop -> Prop) (w : world) : issued P w w.
Proof.
  exists []. split; [symmetry; apply app_nil_r | constructor].
Qed.

Lemma issued_trans (P : Q * txop -> Prop) (a b c : world) :
  issued P a b -> issued P b c -> issued P a c.
Proof.
  intros [l1 [E1 F1]] [l2 [E2 F2]]. exists (l1 ++ l2). split.
  - rewrite E2, E1. symmetry. apply app_assoc.
  - apply Forall_app. split; assumption.
Qed.

Lemma issued_same (P : Q * txop -> Prop) (w w' : world) :
  trace w' = trace w -> issued P w w'.
Proof.
  intro E. exists []. split; [rewrite E; symmetry; apply app_nil_r | constructor].
Qed.

(** Without a write, only reading operations are issued. *)
Lemma frame_reading :
  frame (issued reading) (fun op => reads_only op = true) (fun _ => True).
Proof.
  constructor.
  - apply issued_refl.
  - apply issued_trans.
  - intros w n d _. apply issued_same. reflexivity.
  - intros ds w. apply issued_same. reflexivity.
  - intros op w H. exists [(clock w, op)]. split; [reflexivity |].
    constructor; [exact H | constructor].
  - intros u w _. apply issued_same. reflexivity.
  - intros op H. exact H.
  - intros u _. exact I.
Qed.

Lemma untouched_account keepS keepC (u : update) (w : world) :
  spares keepS keepC u -> untouched keepS keepC w (account u w).
Proof.
  intro H. unfold account, untouched. cbn [aggregates].
  destruct (aggregates w) as [l rl frl cl grv a b r tr trt rlc rlt].
  destruct u as [s x | c | x]; cbn [spares] in H.
  - split; intros s' Hs'; [| destruct s; reflexivity].
    destruct s, s'; try reflexivity; congruence.
  - split; intros c' Hc'; [destruct c; reflexivity |].
    destruct c, c'; try reflexivity; congruence.
  - split; intros; reflexivity.
Qed.

(** Aggregates that the reads do not feed are changed only by the updates
    that name them. *)
Lemma frame_untouched (keepS : sample -> bool) (keepC : counter -> bool) :
  (forall u, read_update u = true -> spares keepS keepC u) ->
  frame (untouched keepS keepC) (fun _ => True) (spares keepS keepC).
Proof.
  intro H. constructor.
  - intro w. split; reflexivity.
  - intros a b c [S1 C1] [S2 C2]. split; intros x Hx.
    + rewrite (S2 x Hx). apply S1, Hx.
    + rewrite (C2 x Hx). apply C1, Hx.
  - intros w n d _. split; reflexivity.
  - intros ds w. split; reflexivity.
  - intros op w _. split; reflexivity.
  - intros u w Hu. apply untouched_account, Hu.
  - intros op _. exact I.
  - exact H.
Qed.

Lemma frame_record : frame (untouched record_sample record_counter)
                           (fun _ => True) (spares record_sample record_counter).
Proof.
  apply frame_untouched.
  intros [[] x | [] | x] H; try discriminate H; try reflexivity; exact I.
Qed.

Lemma frame_commit : frame (untouched commit_sample retry_counter)
                           (fun _ => True) (spares commit_sample retry_counter).
Proof.
  apply frame_untouched.
  intros [[] x | [] | x] H; try discriminate H; try reflexivity; exact I.
Qed.

(** No step gives replies back. *)
Lemma frame_replies :
  frame (fun w w' => (length (replies w') <= length (replies w))%nat)
        (fun _ => True) (fun _ => True).
Proof.
  constructor; try (intros; exact I).
  - intro w. apply Nat.le_refl.
  - intros a b c H1 H2. eapply Nat.le_trans; eassumption.
  - intros w n d _. cbn [replies advance]. rewrite length_skipn. lia.
  - intros ds w. apply Nat.le_refl.
  - intros op w _. apply Nat.le_refl.
  - intros u w _. apply Nat.le_refl.
Qed.

(** *** Taking a bind apart *)

Lemma bind_Ok {A B : Type} (c : M A) (f : A -> M B) (w w' : world) (b : B) :
  bind c f w = (Ok b, w') ->
  exists a w1, c w = (Ok a, w1) /\ f a w1 = (Ok b, w').
Proof.
  unfold bind. destruct (c w) as [[a | e | | x |] w1]; intro H;
    try discriminate H.
  exists a, w1. split; [reflexivity | exact H].
Qed.

Lemma bind_Throw {A B : Type} (c : M A) (f : A -> M B) (w w' : world)
    (e : Error) :
  bind c f w = (Throw e, w') ->
  c w = (Throw e, w') \/
  exists a w1, c w = (Ok a, w1) /\ f a w1 = (Throw e, w').
Proof.
  unfold bind. destruct (c w) as [[a | e0 | | x |] w1]; intro H;
    try discriminate H.
  - right. exists a, w1. split; [reflexivity | exact H].
  - left. injection H as <- <-. reflexivity.
Qed.

Lemma preserved {A : Type} (R : world -> world -> Prop) (c : M A)
    (w w' : world) (o : outcome A) :
  preserves R c -> c w = (o, w') -> R w w'.
Proof.
  intros H E. specialize (H w). rewrite E in H. exact H.
Qed.

(** ** A transaction without writes *)

Lemma preserves_transact R okop okup (F : frame R okop okup)
    (self : ReadWriteWorkload) (a : bool) (tstart : Q) :
  (writes self a <> 0 ->
   (forall op, okop op) /\ (forall x, okup (AddSample commitLatencies x))) ->
  okup (Incr totalRetriesMetric) -> okup (Incr retries) ->
  okup (Incr aTransactions) -> okup (Incr bTransactions) ->
  (forall x, okup (AddSample latencies x)) ->
  preserves R (transact self a tstart).
Proof.
  intros Hw H1 H2 Ha Hb Hl. unfold transact.
  apply (preserves_bind R okop okup F);
    [apply (preserves_build R okop okup F) | intro st].
  apply (preserves_bind R okop okup F);
    [apply (preserves_retry R okop okup F); assumption | intros _].
  apply (preserves_record R okop okup F); assumption.
Qed.

(** C9.  When the chosen type has no writes, there are no extra conflict
    ranges (none counted, none generated), an attempt is its read phase and
    nothing more, and the whole transaction, however many times it is
    retried, issues no [set], no conflict range and no [commit]. *)
Theorem no_writes_no_commit (self : ReadWriteWorkload) (a : bool) (tstart : Q)
    (w : world) :
  writes self a = 0 ->
  extra_read_conflict_ranges self (writes self a) = 0 /\
  extra_write_conflict_ranges self (writes self a) = 0 /\
  (forall st w1, build self a tstart w = (Ok st, w1) ->
     values st = [] /\ extra_ranges st = []) /\
  (forall st w1, attempt self a st w1 = readPhase self st w1) /\
  issued reading w (snd (transact self a tstart w)).
Proof.
  intro H. split; [| split; [| split; [| split]]].
  - rewrite H. reflexivity.
  - rewrite H. reflexivity.
  - intros st w1 E. unfold build in E. rewrite H in E. cbv zeta in E.
    apply bind_Ok in E as (ks & wa & _ & E).
    apply bind_Ok in E as (vs & wb & E1 & E).
    apply bind_Ok in E as (rs & wc & E2 & E).
    apply bind_Ok in E as (u & wd & _ & E).
    injection E as <- _. cbn [values extra_ranges].
    cbn in E1, E2. injection E1 as <- _. injection E2 as <- _.
    split; reflexivity.
  - intros st w1. unfold attempt. rewrite H. cbn [Z.eqb]. unfold bind.
    destruct (readPhase self st w1) as [[[] | e | | x |] w2]; reflexivity.
  - apply (preserves_transact _ _ _ frame_reading);
      try (intros; exact I).
    intro Hw. contradiction.
Qed.

Lemma no_writes_no_commit_witness :
  fst (transact defaults true 2 reading_world) = Ok tt /\
  issued reading reading_world (snd (transact defaults true 2 reading_world)).
Proof.
  split; [reflexivity |].
  apply (no_writes_no_commit defaults true 2 reading_world). reflexivity.
Defined.

(** ** The record of a transaction *)

Lemma frame_trace : frame (issued anything) anything anything.
Proof.
  constructor; try (intros; exact I).
  - apply issued_refl.
  - apply issued_trans.
  - intros w n d _. apply issued_same. reflexivity.
  - intros ds w. apply issued_same. reflexivity.
  - intros op w _. exists [(clock w, op)]. split; [reflexivity |].
    constructor; [exact I | constructor].
  - intros u w _. apply issued_same. reflexivity.
Qed.

Lemma In_firstn {A : Type} (n : nat) (l : list A) (x : A) :
  In x (firstn n l) -> In x l.
Proof.
  intro H. rewrite <- (firstn_skipn n l). apply in_or_app. left. exact H.
Qed.

Lemma Forall_skipn {A : Type} (P : A -> Prop) (n : nat) (l : list A) :
  Forall P l -> Forall P (skipn n l).
Proof.
  intro H. rewrite <- (firstn_skipn n l) in H.
  apply Forall_app in H. apply H.
Qed.

Lemma within_widen (a b c d : Q) (l : list (Q * txop)) :
  (a <= b)%Q -> (c <= d)%Q ->
  Forall (within b c) l -> Forall (within a d) l.
Proof.
  intros Hab Hcd. apply Forall_impl. intros e [H1 H2]. split; lra.
Qed.

(** The clock does not go back, and operations are issued at the clock. *)
Lemma frame_timeline : frame timeline anything anything.
Proof.
  constructor; try (intros; exact I).
  - intros w Hn. split; [exact Hn |]. split; [lra |]. apply issued_refl.
  - intros a b c Hab Hbc Hn.
    destruct (Hab Hn) as (Hnb & Hcb & l1 & E1 & F1).
    destruct (Hbc Hnb) as (Hnc & Hcc & l2 & E2 & F2).
    split; [exact Hnc |]. split; [lra |].
    exists (l1 ++ l2). split.
    + rewrite E2, E1. symmetry. apply app_assoc.
    + apply Forall_app. split.
      * apply (within_widen _ (clock a) (clock b)); [lra | exact Hcc | exact F1].
      * apply (within_widen _ (clock b) (clock c)); [exact Hcb | lra | exact F2].
  - intros w n d Hd Hn. cbn [advance replies clock].
    assert (H0 : (0 <= d)%Q).
    { destruct Hd as [-> | (r & Hr & <-)]; [lra |].
      apply In_firstn in Hr.
      rewrite Forall_forall in Hn. apply (Hn r Hr). }
    split; [apply Forall_skipn; exact Hn |]. split; [lra |].
    apply issued_same. reflexivity.
  - intros ds w Hn. split; [exact Hn |]. split; [cbn; lra |].
    apply issued_same. reflexivity.
  - intros op w _ Hn. split; [exact Hn |]. split; [cbn; lra |].
    exists [(clock w, op)]. split; [reflexivity |].
    constructor; [| constructor]. split; cbn; lra.
  - intros u w _ Hn. split; [exact Hn |]. split; [cbn; lra |].
    apply issued_same. reflexivity.
Qed.

Lemma record_does (self : ReadWriteWorkload) (a : bool) (tstart : Q) (w : world) :
  record self a tstart w =
  (Ok tt,
   if shouldRecord self (clock w)
   then account (AddSample latencies (clock w - tstart))
          (account (Incr (if a then aTransactions else bTransactions)) w)
   else w).
Proof.
  unfold record, shouldRecordNow, bind, now, ret, when.
  destruct (shouldRecord self (clock w)); reflexivity.
Qed.

Lemma samples_added (s : sample) (x : Q) (m : metrics) :
  samples (apply_update (AddSample s x) m) s = samples m s ++ [x].
Proof. destruct m, s; reflexivity. Qed.

Lemma count_added (c : counter) (m : metrics) :
  count (apply_update (Incr c) m) c = count m c + 1.
Proof. destruct m, c; reflexivity. Qed.

Lemma samples_kept (c : counter) (m : metrics) (s : sample) :
  samples (apply_update (Incr c) m) s = samples m s.
Proof. destruct m, c, s; reflexivity. Qed.

Lemma count_kept (s : sample) (x : Q) (m : metrics) (c : counter) :
  count (apply_update (AddSample s x) m) c = count m c.
Proof. destruct m, s, c; reflexivity. Qed.

(** A transaction that goes through and ends inside the window adds one
    sample to [latencies], the time from [tstart] to its end, whatever
    happened in between. *)
Lemma transact_latency (self : ReadWriteWorkload) (a : bool) (tstart : Q)
    (w w' : world) :
  transact self a tstart w = (Ok tt, w') ->
  shouldRecord self (clock w') = true ->
  samples (aggregates w') latencies
  = samples (aggregates w) latencies ++ [(clock w' - tstart)%Q].
Proof.
  intros E Hrec. unfold transact in E.
  apply bind_Ok in E as (st & w1 & E1 & E).
  apply bind_Ok in E as (u & w2 & E2 & E).
  rewrite record_does in E. injection E as E.
  assert (Hc : clock w' = clock w2).
  { subst w'. destruct (shouldRecord self (clock w2)); reflexivity. }
  rewrite Hc in Hrec. rewrite Hrec in E. subst w'.
  cbn [aggregates account clock].
  rewrite samples_added, samples_kept.
  pose proof (preserved _ _ _ _ _
                (preserves_build _ _ _ frame_record self a tstart) E1) as [S1 _].
  assert (P2 : preserves (untouched record_sample record_counter)
                         (retry self a st)).
  { apply (preserves_retry _ _ _ frame_record); try reflexivity.
    intros _. split; [intro; exact I | intro; reflexivity]. }
  pose proof (preserved _ _ _ _ _ P2 E2) as [S2 _].
  rewrite (S2 latencies eq_refl), (S1 latencies eq_refl). reflexivity.
Qed.

Lemma rand_Ok {A : Type} (c : Rand A) (w w' : world) (x : A) :
  rand c w = (Ok x, w') ->
  exists rest calls,
    run c (draws w) = (Value x, rest, calls) /\ w' = set_draws rest w.
Proof.
  unfold rand. destruct (run c (draws w)) as [[[v | f |] rest] calls];
    intro H; try discriminate H.
  injection H as <- <-. exists rest, calls. split; reflexivity.
Qed.

(** C10.  In a turn of the client loop that runs a transaction, goes through
    and ends inside the window, the sample added to [latencies] is the time
    from the start of the turn, before the first read version is asked for,
    to the end of the last attempt; with replies that take no negative time,
    every operation of the turn, those of the failed attempts and the
    [onError] waits among them, is issued within that span. *)
Theorem total_latency_spans_the_turn (self : ReadWriteWorkload) (startTime : Q)
    (w w' : world) :
  iteration self startTime w = (Ok tt, w') ->
  shouldRecord self (clock w') = true ->
  fst (fst (run (runsTransaction self (clock w) startTime) (draws w)))
  = Value true ->
  samples (aggregates w') latencies
  = samples (aggregates w) latencies ++ [(clock w' - clock w)%Q] /\
  (Forall nonneg_delay (replies w) ->
   (clock w <= clock w')%Q /\ issued (within (clock w) (clock w')) w w').
Proof.
  intros E Hrec Hgo. unfold iteration in E.
  apply bind_Ok in E as (t & w0 & E0 & E). injection E0 as <- <-.
  apply bind_Ok in E as (go & w1 & E1 & E).
  apply rand_Ok in E1 as (rest & calls & E1 & ->).
  rewrite E1 in Hgo. cbn [fst] in Hgo. injection Hgo as ->.
  apply bind_Ok in E as (tstart & w2 & E2 & E). injection E2 as <- <-.
  apply bind_Ok in E as (a & w3 & E3 & E).
  apply rand_Ok in E3 as (rest' & calls' & _ & ->).
  cbn [clock set_draws] in E. split.
  - rewrite (transact_latency _ _ _ _ _ E Hrec). reflexivity.
  - intro Hn.
    assert (P : preserves timeline (transact self a (clock w))).
    { apply (preserves_transact _ _ _ frame_timeline);
        try (intros; exact I).
      intros _. split; intros; exact I. }
    pose proof (preserved _ _ _ _ _ P E) as T.
    destruct (T Hn) as (_ & Hc & ops & Et & Fo).
    split; [exact Hc |]. exists ops. split; [exact Et | exact Fo].
Qed.

Lemma total_latency_spans_the_turn_witness :
  exists w' : world,
    iteration retrying 0 turn_world = (Ok tt, w') /\
    samples (aggregates w') latencies = [(clock w' - 1)%Q] /\
    (clock w' == 1 + (18 # 100))%Q.
Proof.
  eexists. split; [vm_compute; reflexivity |].
  split; [| reflexivity].
  apply (total_latency_spans_the_turn retrying 0 turn_world);
    vm_compute; reflexivity.
Defined.

(** ** A transaction retried once *)

Lemma frame_retries :
  frame (untouched (fun _ => false) retry_counter)
        anything (spares (fun _ => false) retry_counter).
Proof.
  apply frame_untouched.
  intros [[] x | [] | x] H; try discriminate H; try reflexivity; exact I.
Qed.

Lemma commitPhase_Ok (self : ReadWriteWorkload) (w w' : world) :
  commitPhase self w = (Ok tt, w') ->
  trace w' = trace w ++ [(clock w, OpCommit)] /\
  samples (aggregates w') commitLatencies
  = samples (aggregates w) commitLatencies
    ++ (if shouldRecord self (clock w') then [(clock w' - clock w)%Q] else []) /\
  (forall s, s <> commitLatencies ->
     samples (aggregates w') s = samples (aggregates w) s) /\
  (forall c, count (aggregates w') c = count (aggregates w) c).
Proof.
  unfold commitPhase, shouldRecordNow, bind, now, wait, ret, when, modify.
  cbv zeta. cbn [replies emit].
  destruct (replies w) as [| [d v | d e] rest]; try discriminate.
  cbn [clock advance emit].
  destruct (shouldRecord self (clock w + d)) eqn:Hrec;
    intro H; injection H as <-; cbn [trace clock aggregates account advance emit];
    rewrite Hrec.
  - split; [reflexivity |]. split; [apply samples_added |].
    split; [| intro c; apply count_kept].
    intros s Hs. destruct (aggregates w), s; try reflexivity. contradiction.
  - split; [reflexivity |]. split; [symmetry; apply app_nil_r |].
    split; reflexivity.
Qed.

Lemma commitPhase_Throw (self : ReadWriteWorkload) (w w' : world) (e : Error) :
  commitPhase self w = (Throw e, w') -> aggregates w' = aggregates w.
Proof.
  unfold commitPhase, shouldRecordNow, bind, now, wait, ret, when, modify.
  cbv zeta. cbn [replies emit].
  destruct (replies w) as [| [d v | d e0] rest]; try discriminate.
  - cbn [clock advance emit].
    destruct (shouldRecord self (clock w + d)); discriminate.
  - intro H. injection H as _ <-. reflexivity.
Qed.

(** An attempt that throws has recorded no commit and counted no retry. *)
Lemma attempt_Throw (self : ReadWriteWorkload) (a : bool) (st : built)
    (w w' : world) (e : Error) :
  attempt self a st w = (Throw e, w') ->
  untouched commit_sample retry_counter w w'.
Proof.
  intro E. unfold attempt in E. cbv zeta in E.
  apply bind_Throw in E as [E | (u & w1 & E1 & E)].
  - exact (preserved _ _ _ _ _
             (preserves_readPhase _ _ _ frame_commit self st) E).
  - pose proof (preserved _ _ _ _ _
                  (preserves_readPhase _ _ _ frame_commit self st) E1) as U1.
    destruct (writes self a =? 0); [discriminate E |].
    apply (F_trans frame_commit _ _ _ U1).
    apply bind_Throw in E as [E | (u' & w2 & E2 & E)].
    + refine (preserved _ _ _ _ _
                (preserves_applyWrites _ _ _ frame_commit self st _ _) E).
      intro op. exact I.
    + assert (U2 : untouched commit_sample retry_counter w1 w2).
      { refine (preserved _ _ _ _ _
                  (preserves_applyWrites _ _ _ frame_commit self st _ _) E2).
        intro op. exact I. }
      apply (F_trans frame_commit _ _ _ U2).
      apply commitPhase_Throw in E. unfold untouched. rewrite E.
      split; reflexivity.
Qed.

(** An attempt with writes that goes through has issued its commit last and
    recorded, if inside the window, the time from that issue to its end. *)
Lemma attempt_Ok (self : ReadWriteWorkload) (a : bool) (st : built)
    (w w' : world) :
  writes self a <> 0 ->
  attempt self a st w = (Ok tt, w') ->
  exists (commitStart : Q) (ops : list (Q * txop)),
    trace w' = trace w ++ ops ++ [(commitStart, OpCommit)] /\
    samples (aggregates w') commitLatencies
    = samples (aggregates w) commitLatencies
      ++ (if shouldRecord self (clock w')
          then [(clock w' - commitStart)%Q] else []) /\
    (forall c, retry_counter c = true ->
       count (aggregates w') c = count (aggregates w) c).
Proof.
  intros Hw E. unfold attempt in E. cbv zeta in E.
  apply bind_Ok in E as (u & w1 & E1 & E).
  apply Z.eqb_neq in Hw. rewrite Hw in E.
  apply bind_Ok in E as (u' & w2 & E2 & E).
  apply commitPhase_Ok in E as (Et & Es & _ & Ec).
  assert (P : preserves (untouched commit_sample retry_counter)
                        (readPhase self st ;; applyWrites self st (writes self a))).
  { apply (preserves_bind _ _ _ frame_commit);
      [apply (preserves_readPhase _ _ _ frame_commit) | intros _].
    apply (preserves_applyWrites _ _ _ frame_commit). intro op. exact I. }
  assert (T : preserves (issued anything)
                        (readPhase self st ;; applyWrites self st (writes self a))).
  { apply (preserves_bind _ _ _ frame_trace);
      [apply (preserves_readPhase _ _ _ frame_trace) | intros _].
    apply (preserves_applyWrites _ _ _ frame_trace). intro op. exact I. }
  assert (E12 : (readPhase self st ;; applyWrites self st (writes self a)) w
                = (Ok u', w2)).
  { unfold bind. rewrite E1. exact E2. }
  destruct (preserved _ _ _ _ _ P E12) as [S12 C12].
  destruct (preserved _ _ _ _ _ T E12) as (ops & Eops & _).
  exists (clock w2), ops. split; [| split].
  - rewrite Et, Eops. symmetry. apply app_assoc.
  - rewrite Es, (S12 commitLatencies eq_refl). reflexivity.
  - intros c Hc. rewrite Ec. apply C12, Hc.
Qed.

Lemma recover_Ok (self : ReadWriteWorkload) (e : Error) (w w' : world) :
  recover self e w = (Ok tt, w') ->
  replies w <> [] /\
  count (aggregates w') totalRetriesMetric
  = count (aggregates w) totalRetriesMetric + 1 /\
  count (aggregates w') retries
  = count (aggregates w) retries
    + (if shouldRecord self (clock w') then 1 else 0) /\
  (forall s, samples (aggregates w') s = samples (aggregates w) s) /\
  (forall c, retry_counter c = false ->
     count (aggregates w') c = count (aggregates w) c).
Proof.
  unfold recover, shouldRecordNow, bind, now, wait, ret, when, modify.
  cbv zeta. cbn [replies emit].
  destruct (replies w) as [| [d v | d e0] rest]; try discriminate.
  cbn [clock advance emit account aggregates].
  destruct (shouldRecord self (clock w + d)) eqn:Hrec;
    intro H; injection H as <-;
    cbn [trace clock aggregates account advance emit]; rewrite Hrec;
    (split; [discriminate |]);
    destruct (aggregates w); repeat split; try (cbn; lia);
    try (intros []; reflexivity);
    intros [] Hc; try discriminate Hc; reflexivity.
Qed.

Lemma preserves_attempt_record (self : ReadWriteWorkload) (a : bool)
    (st : built) :
  preserves (untouched record_sample record_counter) (attempt self a st).
Proof.
  apply (preserves_attempt _ _ _ frame_record).
  intros _. split; [intro; exact I | intro; reflexivity].
Qed.

Lemma counts_recorded (a : bool) (x : Q) (m : metrics) (c : counter) :
  count (apply_update (AddSample latencies x)
           (apply_update (Incr (if a then aTransactions else bTransactions)) m))
        c
  = count m c
    + (if a then match c with aTransactions => 1 | _ => 0 end
       else match c with bTransactions => 1 | _ => 0 end).
Proof. destruct m, a, c; cbn; lia. Qed.

Lemma samples_recorded (a : bool) (x : Q) (m : metrics) (s : sample) :
  samples (apply_update (AddSample latencies x)
             (apply_update (Incr (if a then aTransactions else bTransactions)) m))
          s
  = samples m s ++ match s with latencies => [x] | _ => [] end.
Proof.
  destruct m, a, s; cbn; try reflexivity; symmetry; apply app_nil_r.
Qed.

(** C5.  A transaction with writes whose first attempt is stopped by an
    error of the store (raised by the commit, or before it), whose recovery
    wait returns and whose second attempt goes through, all inside the
    window: the transaction goes through with one more retry counted, one
    more transaction of its type counted, one sample added to [latencies]
    and one sample added to [commitLatencies].  That sample runs from the
    issue of the commit of the second attempt, the last operation of the
    transaction, to its end. *)
Theorem one_retry_one_record (self : ReadWriteWorkload) (a : bool) (tstart : Q)
    (w0 w1 w2 w3 w4 : world) (st : built) (e : Error) :
  writes self a <> 0 ->
  build self a tstart w0 = (Ok st, w1) ->
  attempt self a st w1 = (Throw e, w2) ->
  recover self e w2 = (Ok tt, w3) ->
  attempt self a st w3 = (Ok tt, w4) ->
  shouldRecord self (clock w3) = true ->
  shouldRecord self (clock w4) = true ->
  exists (w5 : world) (commitStart : Q) (ops : list (Q * txop)),
    transact self a tstart w0 = (Ok tt, w5) /\
    count (aggregates w5) retries = count (aggregates w0) retries + 1 /\
    count (aggregates w5) totalRetriesMetric
    = count (aggregates w0) totalRetriesMetric + 1 /\
    count (aggregates w5) (if a then aTransactions else bTransactions)
    = count (aggregates w0) (if a then aTransactions else bTransactions) + 1 /\
    count (aggregates w5) (if a then bTransactions else aTransactions)
    = count (aggregates w0) (if a then bTransactions else aTransactions) /\
    samples (aggregates w5) latencies
    = samples (aggregates w0) latencies ++ [(clock w5 - tstart)%Q] /\
    samples (aggregates w5) commitLatencies
    = samples (aggregates w0) commitLatencies ++ [(clock w5 - commitStart)%Q] /\
    trace w5 = trace w3 ++ ops ++ [(commitStart, OpCommit)].
Proof.
  intros Hw Eb E1 Er E2 Hr3 Hr4.
  (* the aggregates, step by step *)
  destruct (preserved _ _ _ _ _
              (preserves_build _ _ _ frame_record self a tstart) Eb) as [Sb Cb].
  destruct (preserved _ _ _ _ _
              (preserves_build _ _ _ frame_commit self a tstart) Eb) as [Sb' Cb'].
  destruct (preserved _ _ _ _ _ (preserves_attempt_record self a st) E1)
    as [S1 C1].
  destruct (attempt_Throw _ _ _ _ _ _ E1) as [S1' C1'].
  destruct (recover_Ok _ _ _ _ Er) as (Hreply & Rt & Rr & Rs & Rc).
  rewrite Hr3 in Rr.
  destruct (preserved _ _ _ _ _ (preserves_attempt_record self a st) E2)
    as [S2 C2].
  destruct (attempt_Ok _ _ _ _ _ Hw E2) as (commitStart & ops & Et & Es & Ec).
  rewrite Hr4 in Es.
  (* the bound of the retry loop allows a second turn *)
  assert (Hfuel : exists n, length (replies w1) = S n).
  { pose proof (preserved _ _ _ _ _
                  (preserves_attempt _ _ _ frame_replies self a st
                     (fun _ => conj (fun _ => I) (fun _ => I))) E1) as Hlen.
    cbv beta in Hlen.
    destruct (replies w2) as [| r rest]; [contradiction |].
    destruct (replies w1) as [| r' rest']; [cbn in Hlen; lia |].
    eexists. reflexivity. }
  destruct Hfuel as [n Hn].
  exists (account (AddSample latencies (clock w4 - tstart))
            (account (Incr (if a then aTransactions else bTransactions)) w4)),
         commitStart, ops.
  split; [| cbn [aggregates account clock trace];
            rewrite !counts_recorded, !samples_recorded; repeat split].
  - unfold transact, bind at 1. rewrite Eb.
    unfold bind at 1, retry. rewrite Hn. cbn [retryLoop].
    unfold catch at 1. rewrite E1. unfold bind at 1. rewrite Er.
    unfold catch at 1. rewrite E2.
    rewrite record_does, Hr4. reflexivity.
  - rewrite (Ec retries eq_refl), Rr, (C1' retries eq_refl),
      (Cb' retries eq_refl). destruct a; lia.
  - rewrite (Ec totalRetriesMetric eq_refl), Rt,
      (C1' totalRetriesMetric eq_refl), (Cb' totalRetriesMetric eq_refl).
    destruct a; lia.
  - destruct a.
    + rewrite (C2 aTransactions eq_refl), (Rc aTransactions eq_refl),
        (C1 aTransactions eq_refl), (Cb aTransactions eq_refl). reflexivity.
    + rewrite (C2 bTransactions eq_refl), (Rc bTransactions eq_refl),
        (C1 bTransactions eq_refl), (Cb bTransactions eq_refl). reflexivity.
  - destruct a.
    + rewrite (C2 bTransactions eq_refl), (Rc bTransactions eq_refl),
        (C1 bTransactions eq_refl), (Cb bTransactions eq_refl). lia.
    + rewrite (C2 aTransactions eq_refl), (Rc aTransactions eq_refl),
        (C1 aTransactions eq_refl), (Cb aTransactions eq_refl). lia.
  - rewrite (S2 latencies eq_refl), Rs, (S1 latencies eq_refl),
      (Sb latencies eq_refl). reflexivity.
  - rewrite Es, Rs, (S1' commitLatencies eq_refl),
      (Sb' commitLatencies eq_refl), app_nil_r. reflexivity.
  - exact Et.
Qed.

Lemma one_retry_one_record_witness :
  exists (w5 : world) (commitStart : Q) (ops : list (Q * txop)),
    transact retrying false 1 retry_world = (Ok tt, w5) /\
    count (aggregates w5) retries = 0 + 1 /\
    count (aggregates w5) totalRetriesMetric = 0 + 1 /\
    count (aggregates w5) bTransactions = 0 + 1 /\
    count (aggregates w5) aTransactions = 0 /\
    samples (aggregates w5) latencies = [] ++ [(clock w5 - 1)%Q] /\
    samples (aggregates w5) commitLatencies
    = [] ++ [(clock w5 - commitStart)%Q] /\
    trace w5
    = [(1, OpGetReadVersion); (1 + (1 # 100), OpGet 42%Z);
       (1 + (1 # 100) + (2 # 100), OpSet 1%Z 16%Z);
       (1 + (1 # 100) + (2 # 100), OpSet 2%Z 16%Z);
       (1 + (1 # 100) + (2 # 100), OpCommit);
       (1 + (1 # 100) + (2 # 100) + (3 # 100), OpOnError 1020%Z)]%Q
      ++ ops ++ [(commitStart, OpCommit)].
Proof.
  edestruct (one_retry_one_record retrying false 1 retry_world)
    as (w5 & commitStart & ops & H).
  - discriminate.
  - vm_compute. reflexivity.
  - vm_compute. reflexivity.
  - vm_compute. reflexivity.
  - vm_compute. reflexivity.
  - reflexivity.
  - reflexivity.
  - exists w5, commitStart, ops. exact H.
Defined.

(** ** The bound of the retry loop is never reached *)

Create HintDb bounded.

Lemma bounded_ret {A : Type} (a : A) : bounded (ret a).
Proof. intro w. discriminate. Qed.

Lemma bounded_bind {A B : Type} (c : M A) (f : A -> M B) :
  bounded c -> (forall a, bounded (f a)) -> bounded (bind c f).
Proof.
  intros Hc Hf w. unfold bind. specialize (Hc w).
  destruct (c w) as [[a | e | | x |] w1]; cbn [fst] in *;
    try discriminate; [apply Hf | contradiction].
Qed.

Lemma bounded_if {A : Type} (b : bool) (c1 c2 : M A) :
  bounded c1 -> bounded c2 -> bounded (if b then c1 else c2).
Proof. destruct b; intros; assumption. Qed.

Lemma bounded_now : bounded now.
Proof. intro w. discriminate. Qed.

Lemma bounded_issue (op : txop) : bounded (issue op).
Proof. intro w. discriminate. Qed.

Lemma bounded_modify (u : update) : bounded (modify u).
Proof. intro w. discriminate. Qed.

Lemma bounded_throw {A : Type} (e : Error) : bounded (@throw A e).
Proof. intro w. discriminate. Qed.

Lemma bounded_never {A : Type} : bounded (@never A).
Proof. intro w. discriminate. Qed.

Lemma bounded_pending (n : nat) : bounded (pending n).
Proof. intro w. discriminate. Qed.

Lemma bounded_settle (n : nat) (d : Q) : bounded (settle n d).
Proof. intro w. discriminate. Qed.

Lemma bounded_wait (op : txop) : bounded (wait op).
Proof.
  intro w. unfold wait. cbv zeta.
  destruct (replies (emit op w)) as [| [d v | d e] rest]; discriminate.
Qed.

Lemma bounded_rand {A : Type} (c : Rand A) : bounded (rand c).
Proof.
  intro w. unfold rand.
  destruct (run c (draws w)) as [[[a | f |] rest] calls]; discriminate.
Qed.

Lemma bounded_randomUniqueID : bounded randomUniqueID.
Proof.
  intro w. unfold randomUniqueID.
  destruct (draws w) as [| [u | z | id] rest]; discriminate.
Qed.

Lemma bounded_index {A : Type} (v : list A) (i : Z) : bounded (index v i).
Proof.
  intro w. unfold index.
  destruct (if i <? 0 then None else nth_error v (Z.to_nat i)); discriminate.
Qed.

Lemma bounded_when (b : bool) (c : M unit) : bounded c -> bounded (when b c).
Proof. intro H. destruct b; [exact H | apply bounded_ret]. Qed.

Lemma bounded_forEach {A : Type} (l : list A) (body : A -> M unit) :
  (forall x, bounded (body x)) -> bounded (forEach l body).
Proof.
  intro H. induction l as [| x l IH]; cbn [forEach].
  - apply bounded_ret.
  - apply bounded_bind; [apply H | intros _; exact IH].
Qed.

Lemma bounded_collect {A : Type} (n : nat) (c : M A) :
  bounded c -> bounded (collect n c).
Proof.
  intro H. induction n as [| n IH]; cbn [collect].
  - apply bounded_ret.
  - apply bounded_bind; [exact H | intro x].
    apply bounded_bind; [exact IH | intro xs; apply bounded_ret].
Qed.

#[local] Hint Resolve bounded_ret bounded_bind bounded_if bounded_now
  bounded_issue bounded_modify bounded_throw bounded_never bounded_pending
  bounded_settle bounded_wait bounded_rand bounded_randomUniqueID
  bounded_index bounded_when bounded_forEach bounded_collect : bounded.

Lemma bounded_shouldRecordNow (self : ReadWriteWorkload) :
  bounded (shouldRecordNow self).
Proof. unfold shouldRecordNow. auto with bounded. Qed.

Lemma bounded_logged (b : bool) (latency : Q) : bounded (logged b latency).
Proof. unfold logged. auto 10 with bounded. Qed.

#[local] Hint Resolve bounded_shouldRecordNow bounded_logged : bounded.

Lemma bounded_waitForAll (n : nat) (b : bool) : bounded (waitForAll n b).
Proof.
  unfold waitForAll. apply bounded_bind; [auto with bounded | intro rs].
  destruct (first_failure rs) as [[d e] |]; auto 10 with bounded.
Qed.

#[local] Hint Resolve bounded_waitForAll : bounded.

Lemma bounded_readOp (self : ReadWriteWorkload) (ks : list Z) (b : bool) :
  bounded (readOp self ks b).
Proof. unfold readOp, logLatency. auto 12 with bounded. Qed.

#[local] Hint Resolve bounded_readOp : bounded.

Lemma bounded_attempt (self : ReadWriteWorkload) (a : bool) (st : built) :
  bounded (attempt self a st).
Proof.
  unfold attempt, readPhase, applyWrites, commitPhase. cbv zeta.
  auto 30 with bounded.
Qed.

Lemma bounded_recover (self : ReadWriteWorkload) (e : Error) :
  bounded (recover self e).
Proof. unfold recover. auto 10 with bounded. Qed.

Lemma recover_takes_a_reply (self : ReadWriteWorkload) (e : Error)
    (w w' : world) :
  recover self e w = (Ok tt, w') ->
  (length (replies w') < length (replies w))%nat.
Proof.
  unfold recover, shouldRecordNow, bind, now, wait, ret, when, modify.
  cbv zeta. cbn [replies emit].
  destruct (replies w) as [| [d v | d e0] rest] eqn:E; try discriminate.
  cbn [clock advance emit account aggregates].
  destruct (shouldRecord self (clock w + d));
    intro H; injection H as <-;
    cbn [replies account advance emit]; rewrite E; cbn [skipn length]; lia.
Qed.

Lemma retryLoop_bounded (fuel : nat) (self : ReadWriteWorkload) (a : bool)
    (st : built) (w : world) :
  (length (replies w) < fuel)%nat ->
  fst (retryLoop fuel self a st w) <> Exhausted.
Proof.
  revert w. induction fuel as [| fuel IH]; intros w Hlt; [lia |].
  cbn [retryLoop]. unfold catch.
  pose proof (bounded_attempt self a st w) as Ha.
  pose proof (preserves_attempt _ _ _ frame_replies self a st
                (fun _ => conj (fun _ => I) (fun _ => I)) w) as Hlen.
  cbv beta in Hlen.
  destruct (attempt self a st w) as [[u | e | | x |] w1]; cbn [fst snd] in *;
    try discriminate; [| contradiction].
  unfold bind.
  pose proof (bounded_recover self e w1) as Hr.
  destruct (recover self e w1) as [[[] | e' | | x |] w2] eqn:Er;
    cbn [fst] in *; try discriminate; [| contradiction].
  apply IH. apply recover_takes_a_reply in Er. lia.
Qed.

(** Whatever the store answers, [retry] ends otherwise than on its bound:
    it returns, throws, waits for ever or is stuck. *)
Lemma retry_bounded (self : ReadWriteWorkload) (a : bool) (st : built) :
  bounded (retry self a st).
Proof.
  intro w. unfold retry. apply retryLoop_bounded. lia.
Qed.

(** ** The shared read version *)

Section ReadVersionCache.

Import ReadVersion.

Variable invalidVersion : Version.

Lemma nth_error_returned (vs : list Version) (a : actor) (i : nat) :
  nth_error (map Returned vs ++ [a]) i = Some Running ->
  i = length vs /\ a = Running.
Proof.
  revert i. induction vs as [| v vs IH]; intros [| i] H; cbn in H.
  - injection H as ->. split; reflexivity.
  - destruct i; discriminate H.
  - discriminate H.
  - destruct (IH i H) as [-> ->]. split; reflexivity.
Qed.

Lemma nth_error_newest (vs : list Version) (a : actor) :
  nth_error (map Returned vs ++ [a]) (length vs) = Some a.
Proof.
  induction vs as [| v vs IH]; [reflexivity | exact IH].
Qed.

Lemma set_nth_newest (vs : list Version) (a b : actor) :
  set_nth (length vs) b (map Returned vs ++ [a]) = map Returned vs ++ [b].
Proof.
  induction vs as [| v vs IH]; [reflexivity |].
  cbn. rewrite IH. reflexivity.
Qed.

Lemma none_running (vs : list Version) (a : actor) :
  filter running (map Returned vs ++ [a]) = filter running [a].
Proof.
  induction vs as [| v vs IH]; [reflexivity | exact IH].
Qed.

Lemma hand_state (s : state) : snd (hand invalidVersion s) = s.
Proof.
  unfold hand. destruct (lastRV s =? invalidVersion); reflexivity.
Qed.

Lemma request_settled (s : state) :
  settled invalidVersion s ->
  settled invalidVersion (snd (getInconsistentReadVersion invalidVersion s)).
Proof.
  intros [(Es & En & El) | (vs & a & Es & En & Hvs & Ha & El)];
    unfold getInconsistentReadVersion, peek; rewrite En.
  - rewrite hand_state. right. exists [], Running.
    cbn [refresh started nextRV lastRV]. rewrite Es.
    repeat split; [constructor | intros v H; discriminate H | exact El].
  - rewrite Es, nth_error_newest. destruct a as [| v | e].
    + rewrite hand_state. right. exists vs, Running.
      repeat split; assumption.
    + rewrite hand_state. right. exists (vs ++ [v]), Running.
      cbn [refresh started nextRV lastRV].
      rewrite Es, map_app, !length_app, length_map, last_last.
      repeat split.
      * apply Forall_app. split; [exact Hvs |].
        constructor; [apply Ha; reflexivity | constructor].
      * intros v' H. discriminate H.
    + cbn [snd]. right. exists vs, (Threw e).
      repeat split; assumption.
Qed.

Lemma finish_settled (s : state) (i : nat) (a : actor) :
  nth_error (started s) i = Some Running ->
  (forall v, a = Returned v -> v <> invalidVersion) ->
  settled invalidVersion s -> settled invalidVersion (finish i a s).
Proof.
  intros Hi Hv [(Es & En & El) | (vs & b & Es & En & Hvs & Hb & El)].
  - rewrite Es in Hi. destruct i; discriminate Hi.
  - rewrite Es in Hi. apply nth_error_returned in Hi as [-> ->].
    right. exists vs, a. unfold finish. cbn [started nextRV lastRV].
    rewrite Es, set_nth_newest.
    repeat split; assumption.
Qed.

Lemma reachable_settled (s : state) :
  reachable invalidVersion s -> settled invalidVersion s.
Proof.
  induction 1 as [| s s' Hs IH Hstep].
  - left. repeat split.
  - destruct Hstep as [s | s i v Hi Hv | s i e Hi].
    + apply request_settled, IH.
    + apply finish_settled; try assumption.
      intros v' H. injection H as <-. exact Hv.
    + apply finish_settled; try assumption.
      intros v' H. discriminate H.
Qed.

(** C7.  In every reachable state of the cache at most one refresh is
    outstanding; and when one is outstanding while some refresh has
    already returned, the caller of [getInconsistentReadVersion] is handed
    at once the cached version, the one returned by the refresh before the
    outstanding one, and no new refresh is started. *)
Theorem one_refresh_outstanding (s : state) :
  reachable invalidVersion s ->
  (outstanding s <= 1)%nat /\
  (forall i : nat,
     nextRV s = Some i ->
     nth_error (started s) i = Some Running ->
     (exists j v, nth_error (started s) j = Some (Returned v)) ->
     exists v : Version,
       getInconsistentReadVersion invalidVersion s = (Cached v, s) /\
       v <> invalidVersion /\
       (1 <= i)%nat /\
       nth_error (started s) (i - 1) = Some (Returned v)).
Proof.
  intro Hr. apply reachable_settled in Hr.
  destruct Hr as [(Es & En & El) | (vs & a & Es & En & Hvs & Ha & El)].
  - split.
    + unfold outstanding. rewrite Es. cbn. lia.
    + intros i Hi. rewrite En in Hi. discriminate Hi.
  - split.
    + unfold outstanding. rewrite Es, none_running.
      destruct a; cbn; lia.
    + intros i Hi Hrun (j & v & Hj).
      rewrite En in Hi. injection Hi as <-.
      rewrite Es, nth_error_newest in Hrun. injection Hrun as ->.
      destruct (exists_last (l := vs)) as [vs' [v' ->]].
      { intros ->. rewrite Es in Hj. destruct j as [| [| j]]; discriminate Hj. }
      rewrite last_last in El.
      apply Forall_app in Hvs as [_ Hv'].
      apply Forall_inv in Hv'. rename Hv' into Hv''.
      exists v'. repeat split.
      * unfold getInconsistentReadVersion, peek, hand.
        rewrite En, Es, nth_error_newest, El.
        destruct (v' =? invalidVersion) eqn:E;
          [apply Z.eqb_eq in E; contradiction | reflexivity].
      * exact Hv''.
      * rewrite length_app. cbn. lia.
      * rewrite Es, length_app. cbn [length].
        replace (length vs' + 1 - 1)%nat with (length vs') by lia.
        rewrite map_app, <- app_assoc.
        rewrite nth_error_app2 by (rewrite length_map; lia).
        rewrite length_map, Nat.sub_diag. reflexivity.
Qed.

End ReadVersionCache.

Lemma one_refresh_outstanding_witness :
  le (ReadVersion.outstanding
        {| ReadVersion.started := [ReadVersion.Returned 5; ReadVersion.Running];
           ReadVersion.nextRV := Some 1%nat;
           ReadVersion.lastRV := 5 |}) 1.
Proof.
  apply (one_refresh_outstanding (-1)).
  apply (ReadVersion.reach_step (-1)
           {| ReadVersion.started := [ReadVersion.Returned 5];
              ReadVersion.nextRV := Some 0%nat;
              ReadVersion.lastRV := -1 |}).
  - apply (ReadVersion.reach_step (-1)
             {| ReadVersion.started := [ReadVersion.Running];
                ReadVersion.nextRV := Some 0%nat;
                ReadVersion.lastRV := -1 |}).
    + apply (ReadVersion.reach_step (-1) (ReadVersion.initial (-1))).
      * apply ReadVersion.reach_initial.
      * exact (ReadVersion.step_request (-1) (ReadVersion.initial (-1))).
    + refine (ReadVersion.step_return (-1)
                {| ReadVersion.started := [ReadVersion.Running];
                   ReadVersion.nextRV := Some 0%nat;
                   ReadVersion.lastRV := -1 |} 0 5 eq_refl _).
      discriminate.
  - exact (ReadVersion.step_request (-1)
             {| ReadVersion.started := [ReadVersion.Returned 5];
                ReadVersion.nextRV := Some 0%nat;
                ReadVersion.lastRV := -1 |}).
Defined.

(** * The rest of the workload: properties *)

(** ** The default metrics window *)

(** X1.  With the default options the window is the middle three quarters
    of the test: a sample is recorded exactly from 1/8 of [testDuration]
    after [clientBegin] until 7/8 of it. *)
Theorem default_window_middle (self : ReadWriteWorkload) (t : Q) :
  (metricsStart self, metricsDuration self)
  = metricsWindow (testDuration self) None None None ->
  shouldRecord self t = true <->
  (testDuration self * (1 # 8) <= t - clientBegin self)%Q /\
  (t - clientBegin self < testDuration self * (7 # 8))%Q.
Proof.
  intro H. cbn in H. injection H as Hs Hd.
  rewrite shouldRecord_iff, Hs, Hd. split; intros [H1 H2]; split; lra.
Qed.

Lemma default_window_middle_witness :
  shouldRecord defaults 5 = true <->
  (testDuration defaults * (1 # 8) <= 5 - clientBegin defaults)%Q /\
  (5 - clientBegin defaults < testDuration defaults * (7 # 8))%Q.
Proof.
  apply (default_window_middle defaults 5). reflexivity.
Defined.

(** ** The hot-key options *)

(** X2.  Hot-key options with [0 <= hotKeyFraction <= hotTrafficFraction
    <= 1] and [hotKeyFraction < 1] are accepted, and the forced-hot
    probability they give is a probability that solves the equation of the
    constructor's comment, [(1 - FHP) * (1 - hkf) = 1 - htf]; options that
    break an assertion are refused. *)
Theorem forceHotProbability_solves (hkf htf : Q) :
  ((0 <= hkf)%Q -> (hkf <= htf)%Q -> (htf <= 1)%Q -> (hkf < 1)%Q ->
   exists fhp : Q,
     hotKeyOptions (Some hkf) (Some htf) = Some (hkf, fhp) /\
     (0 <= fhp)%Q /\ (fhp <= 1)%Q /\
     ((1 - fhp) * (1 - hkf) == 1 - htf)%Q) /\
  ((hkf < 0)%Q \/ (htf < hkf)%Q \/ (1 < htf)%Q ->
   hotKeyOptions (Some hkf) (Some htf) = None).
Proof.
  split.
  - intros H0 H1 H2 H3. unfold hotKeyOptions. cbn [getOption].
    apply Qle_bool_iff in H0 as B0. apply Qle_bool_iff in H1 as B1.
    apply Qle_bool_iff in H2 as B2. rewrite B0, B1, B2. cbn [andb negb].
    assert (Hn : ~ (1 - hkf == 0)%Q) by lra.
    rewrite (fdiv_nonzero _ _ Hn). eexists. split; [reflexivity |].
    assert (Hpos : (0 < 1 - hkf)%Q) by lra.
    repeat split.
    + apply Qle_shift_div_l; [exact Hpos | lra].
    + apply Qle_shift_div_r; [exact Hpos | lra].
    + field. exact Hn.
  - intros H. unfold hotKeyOptions. cbn [getOption].
    destruct (Qle_bool 0 hkf) eqn:B0; [| reflexivity].
    destruct (Qle_bool htf 1) eqn:B2; [| reflexivity].
    destruct (Qle_bool hkf htf) eqn:B1; [| reflexivity].
    apply Qle_bool_iff in B0, B1, B2. lra.
Qed.

Lemma forceHotProbability_solves_witness :
  exists fhp : Q,
    hotKeyOptions (Some (1 # 10)) (Some (1 # 2)) = Some (1 # 10, fhp) /\
    (0 <= fhp)%Q /\ (fhp <= 1)%Q /\
    ((1 - fhp) * (1 - (1 # 10)) == 1 - (1 # 2))%Q.
Proof.
  apply (forceHotProbability_solves (1 # 10) (1 # 2));
    first [discriminate | reflexivity].
Defined.

(** ** The ramp, one sweep on *)

Lemma rem2_flip (c : Z) :
  0 <= c -> (Z.rem (c + 1) 2 =? 0) = negb (Z.rem c 2 =? 0).
Proof.
  intro H. rewrite !Z.rem_mod_nonneg by lia.
  pose proof (Z.div_mod c 2 ltac:(lia)) as H1.
  pose proof (Z.div_mod (c + 1) 2 ltac:(lia)) as H2.
  pose proof (Z.mod_pos_bound c 2 ltac:(lia)) as B1.
  pose proof (Z.mod_pos_bound (c + 1) 2 ltac:(lia)) as B2.
  destruct (Z.eqb_spec (c mod 2) 0), (Z.eqb_spec ((c + 1) mod 2) 0);
    cbn [negb]; try reflexivity; lia.
Qed.

Lemma sweepAlpha_bounds (self : ReadWriteWorkload) (now startTime : Q) :
  1 <= rampSweepCount self ->
  (0 < testDuration self)%Q ->
  (startTime <= now)%Q ->
  (numSweeps self now startTime < inject_Z (2 ^ 31))%Q ->
  exists a : Q,
    sweepAlpha self now startTime = Some a /\ (0 <= a)%Q /\ (a <= 1)%Q.
Proof.
  intros Hs Hd Hnow Hfit.
  eexists. split; [apply sweepAlpha_defined; assumption |].
  cbv zeta.
  pose proof (fraction_bounds (numSweeps self now startTime)) as [Hlo Hhi].
  destruct (Z.rem _ 2 =? 0); split; lra.
Qed.

(** X3.  One sweep later the ramp is mirrored: [alpha] after another
    [testDuration / sweepCount] is one minus what it was, so the ramp climbs
    on even sweeps and falls on odd ones. *)
Theorem sweepAlpha_mirrored (self : ReadWriteWorkload) (now startTime : Q) :
  1 <= rampSweepCount self ->
  (0 < testDuration self)%Q ->
  (startTime <= now)%Q ->
  (numSweeps self now startTime + 1 < inject_Z (2 ^ 31))%Q ->
  exists a b : Q,
    sweepAlpha self now startTime = Some a /\
    sweepAlpha self
      (now + testDuration self / inject_Z (rampSweepCount self)) startTime
    = Some b /\
    (b == 1 - a)%Q.
Proof.
  intros Hs Hd Hnow Hfit.
  pose proof (sweepDuration_pos self Hs Hd) as Hpos.
  set (sweepDuration := (testDuration self / inject_Z (rampSweepCount self))%Q) in *.
  assert (Hn : (numSweeps self (now + sweepDuration) startTime
                == numSweeps self now startTime + inject_Z 1)%Q).
  { unfold numSweeps. fold sweepDuration. change (inject_Z 1) with 1%Q.
    field. lra. }
  clearbody sweepDuration.
  pose proof (numSweeps_nonneg self Hs Hd now startTime Hnow) as H0.
  do 2 eexists. split; [| split].
  - apply sweepAlpha_defined; try assumption. lra.
  - apply sweepAlpha_defined; try assumption; [lra |].
    change (inject_Z 1) with 1%Q in Hn. lra.
  - cbv zeta. rewrite (Qfloor_comp _ _ Hn), Qfloor_shift.
    rewrite rem2_flip by (apply Qfloor_nonneg; exact H0).
    rewrite inject_Z_plus.
    destruct (Z.rem _ 2 =? 0); cbn [negb]; rewrite Hn;
      change (inject_Z 1) with 1%Q; ring.
Qed.

Lemma sweepAlpha_mirrored_witness :
  exists a b : Q,
    sweepAlpha defaults 3 0 = Some a /\
    sweepAlpha defaults (3 + 10 / inject_Z 1) 0 = Some b /\
    (b == 1 - a)%Q.
Proof.
  apply (sweepAlpha_mirrored defaults 3 0).
  - simpl. lia.
  - reflexivity.
  - discriminate.
  - reflexivity.
Defined.

(** X4.  What the ramp does to the load: with [rampUpLoad] a turn runs a
    transaction with probability [alpha], and with [rampTransactionType]
    the transaction is of type B with probability [alpha] and of type A
    with probability [1 - alpha], [alpha] being [sweepAlpha] at that
    instant. *)
Theorem ramp_probabilities (self : ReadWriteWorkload) (now startTime : Q) :
  1 <= rampSweepCount self ->
  (0 < testDuration self)%Q ->
  (startTime <= now)%Q ->
  (numSweeps self now startTime < inject_Z (2 ^ 31))%Q ->
  exists a : Q,
    sweepAlpha self now startTime = Some a /\
    (rampUpLoad self = true ->
     (prob (runsTransaction self now startTime) (fun go => go) == a)%Q) /\
    (rampTransactionType self = true ->
     (prob (aTransaction self now startTime) negb == a)%Q /\
     (prob (aTransaction self now startTime) (fun b => b) == 1 - a)%Q).
Proof.
  intros Hs Hd Hnow Hfit.
  destruct (sweepAlpha_bounds self now startTime Hs Hd Hnow Hfit)
    as (a & Ea & H0 & H1).
  exists a. split; [exact Ea |].
  pose proof (clamp01_unit a H0 H1) as Hc.
  split.
  - intro Hr. unfold runsTransaction. rewrite Hr, Ea.
    cbn [defined rbind prob]. rewrite Hc. ring.
  - intro Hr. unfold aTransaction. rewrite Hr, Ea.
    cbn [defined rbind prob negb]. rewrite Hc. split; ring.
Qed.

(** Three seconds into a test of 10s in two sweeps, the ramp is at 3/5. *)
Lemma ramp_probabilities_witness :
  exists a : Q,
    sweepAlpha ramped 3 0 = Some a /\
    (prob (runsTransaction ramped 3 0) (fun go => go) == a)%Q /\
    (prob (aTransaction ramped 3 0) negb == a)%Q /\
    (prob (aTransaction ramped 3 0) (fun b => b) == 1 - a)%Q.
Proof.
  destruct (ramp_probabilities ramped 3 0) as (a & Ea & Hload & Htype).
  - simpl. lia.
  - reflexivity.
  - discriminate.
  - reflexivity.
  - exists a. split; [exact Ea |].
    split; [exact (Hload eq_refl) | exact (Htype eq_refl)].
Defined.

(** ** Pacing *)



(** ** The concurrency ramp *)

Section ConcurrencyRamp.

Variable self : ReadWriteWorkload.
Variable clientIndex : Z.
Hypothesis actor_index : 0 <= clientIndex < actorCount self.
Hypothesis tester_index : 0 <= clientId self < clientCount self.

(** The share of an actor is its rank among the actors of all testers,
    [clientIndex * clientCount + clientId], over their number. *)
Lemma rampShare_rank :
  exists f : Q,
    rampShare self clientIndex = Some f /\
    (f == inject_Z (clientIndex * clientCount self + clientId self)
          / inject_Z (clientCount self * actorCount self))%Q.
Proof using actor_index tester_index.
  assert (Ha : ~ (inject_Z (actorCount self) == 0)%Q).
  { unfold Qeq. simpl. lia. }
  assert (Hc : ~ (inject_Z (clientCount self) == 0)%Q).
  { unfold Qeq. simpl. lia. }
  unfold rampShare.
  rewrite (fdiv_nonzero _ _ Ha), (fdiv_nonzero _ _ Hc), (fdiv_nonzero _ _ Ha).
  eexists. split; [reflexivity |].
  rewrite inject_Z_plus, !inject_Z_mult. field. split; assumption.
Qed.

Lemma rampShare_unit :
  exists f : Q,
    rampShare self clientIndex = Some f /\ (0 <= f)%Q /\ (f < 1)%Q.
Proof using actor_index tester_index.
  destruct rampShare_rank as (f & Ef & Hf). exists f.
  split; [exact Ef |].
  assert (Hpos : (0 < inject_Z (clientCount self * actorCount self))%Q).
  { change 0%Q with (inject_Z 0). rewrite <- Zlt_Qlt. nia. }
  rewrite Hf. split.
  - apply Qle_shift_div_l; [exact Hpos |].
    change (0 * inject_Z (clientCount self * actorCount self))%Q
      with (inject_Z 0 * inject_Z (clientCount self * actorCount self))%Q.
    rewrite <- inject_Z_mult, <- Zle_Qle. nia.
  - apply Qlt_shift_div_r; [exact Hpos |].
    change (1 * inject_Z (clientCount self * actorCount self))%Q
      with (inject_Z 1 * inject_Z (clientCount self * actorCount self))%Q.
    rewrite <- inject_Z_mult, <- Zlt_Qlt. nia.
Qed.

End ConcurrencyRamp.

(** X6.  Under the concurrency ramp, an actor of index [0 <= clientIndex <
    actorCount] of tester [0 <= clientId < clientCount] starts within the
    first half of the test and stops within the second half, as long after
    half-time as it started before it: it starts [testDuration/2 * f] in and
    stops at the first turn [testDuration - testDuration/2 * f] or more in. *)
Theorem concurrency_ramp_symmetric (self : ReadWriteWorkload) (clientIndex : Z)
    (now startTime : Q) :
  0 <= clientIndex < actorCount self ->
  0 <= clientId self < clientCount self ->
  (0 < testDuration self)%Q ->
  exists (start : Q) (stop : bool),
    startDelay self clientIndex = Some start /\
    (0 <= start)%Q /\ (start < testDuration self / 2)%Q /\
    stopping self clientIndex now startTime = Some stop /\
    (stop = true <-> (testDuration self - start <= now - startTime)%Q).
Proof.
  intros Ha Ht Hd.
  destruct (rampShare_unit self clientIndex Ha Ht) as (f & Ef & H0 & H1).
  unfold startDelay, stopping. rewrite Ef.
  do 2 eexists. split; [reflexivity |].
  assert (Hh : (testDuration self / 2 == testDuration self * (1 # 2))%Q)
    by field.
  split; [rewrite Hh; nra |]. split; [rewrite Hh; nra |].
  split; [reflexivity |].
  rewrite Qle_bool_iff.
  assert (E : (testDuration self / 2 * (2 - f)
               == testDuration self - testDuration self / 2 * f)%Q) by field.
  rewrite E. reflexivity.
Qed.

Lemma concurrency_ramp_symmetric_witness :
  exists (start : Q) (stop : bool),
    startDelay ramping 1 = Some start /\
    (0 <= start)%Q /\ (start < testDuration ramping / 2)%Q /\
    stopping ramping 1 9 0 = Some stop /\
    (stop = true <-> (testDuration ramping - start <= 9 - 0)%Q).
Proof.
  apply (concurrency_ramp_symmetric ramping 1 9 0).
  - cbn. lia.
  - cbn. lia.
  - reflexivity.
Defined.

(** X7.  The concurrency ramp staggers the actors of all testers evenly by
    rank: the share of the half test an actor waits is its rank
    [clientIndex * clientCount + clientId] over the [clientCount *
    actorCount] actors, so of two actors of one tester the one of higher
    index starts later. *)
Theorem concurrency_ramp_staggered (self : ReadWriteWorkload) (i j : Z) :
  0 <= i < actorCount self ->
  0 <= j < actorCount self ->
  0 <= clientId self < clientCount self ->
  (0 < testDuration self)%Q ->
  exists si sj : Q,
    startDelay self i = Some si /\
    startDelay self j = Some sj /\
    (si == testDuration self / 2
           * (inject_Z (i * clientCount self + clientId self)
              / inject_Z (clientCount self * actorCount self)))%Q /\
    (i < j -> (si < sj)%Q).
Proof.
  intros Hi Hj Ht Hd.
  destruct (rampShare_rank self i Hi Ht) as (fi & Ei & Hfi).
  destruct (rampShare_rank self j Hj Ht) as (fj & Ej & Hfj).
  unfold startDelay. rewrite Ei, Ej.
  do 2 eexists. split; [reflexivity |]. split; [reflexivity |].
  split; [rewrite Hfi; reflexivity |].
  intro Hij.
  assert (Hpos : (0 < inject_Z (clientCount self * actorCount self))%Q).
  { change 0%Q with (inject_Z 0). rewrite <- Zlt_Qlt. nia. }
  assert (Hlt : (fi < fj)%Q).
  { rewrite Hfi, Hfj. apply Qlt_shift_div_r; [exact Hpos |].
    unfold Qdiv. rewrite <- Qmult_assoc.
    rewrite (Qmult_comm (/ _)), Qmult_inv_r, Qmult_1_r by lra.
    rewrite <- Zlt_Qlt. nia. }
  assert (Hh : (testDuration self / 2 == testDuration self * (1 # 2))%Q)
    by field.
  rewrite Hh. nra.
Qed.

Lemma concurrency_ramp_staggered_witness :
  exists si sj : Q,
    startDelay ramping 1 = Some si /\
    startDelay ramping 2 = Some sj /\
    (si == testDuration ramping / 2
           * (inject_Z (1 * clientCount ramping + clientId ramping)
              / inject_Z (clientCount ramping * actorCount ramping)))%Q /\
    (1 < 2 -> (si < sj)%Q).
Proof.
  apply (concurrency_ramp_staggered ramping 1 2).
  - cbn. lia.
  - cbn. lia.
  - cbn. lia.
  - reflexivity.
Defined.

(** ** The keys drawn *)

Lemma run_randomInt64 (lo hi : Z) (ds rest : list draw) (calls : list call)
    (k : Z) :
  run (randomInt64 lo hi) ds = (Value k, rest, calls) -> lo <= k < hi.
Proof.
  unfold randomInt64. destruct (lo <? hi); [| discriminate].
  cbn [run]. destruct ds as [| [u | z | id] ds']; try discriminate.
  destruct ((lo <=? z) && (z <? hi)) eqn:E; [| discriminate].
  cbn [run]. intro H. injection H as <- _ _.
  apply andb_true_iff in E as [E1 E2].
  apply Z.leb_le in E1. apply Z.ltb_lt in E2. lia.
Qed.

Lemma to_int64_small (n : Z) : 0 <= n < 2 ^ 63 -> to_int64 n = n.
Proof.
  intro H. unfold to_int64. rewrite Z.mod_small; lia.
Qed.

(** The smallest normal double is a double. *)
Lemma double_smallest_normal : (double (pow2 (- 1022)) == pow2 (- 1022))%Q.
Proof.
  apply Qeq_bool_iff. vm_compute. reflexivity.
Qed.

(** The hot branch: an index drawn below the double [nodeCount *
    hotKeyFraction] and divided by [hotKeyFraction] is below [nodeCount],
    for [nodeCount <= 2^52]: up to there the two roundings, of the product
    and of the quotient, move the quotient by less than a half. *)
Lemma hot_index_in_range (hkf : Q) (n m r : Z) (q : Q) (k : Z) :
  (0 < hkf)%Q -> (hkf <= 1)%Q -> 0 < n <= 2 ^ 52 ->
  double_to_int64 (fmul (of_integer n) hkf) = Some m ->
  0 <= r < m ->
  fquot (of_integer r) hkf = Some q ->
  double_to_int64 q = Some k ->
  0 <= k < n.
Proof.
  intros Hh Hh1 Hn Em Hr Eq Ek.
  unfold fmul, fquot, of_integer in *.
  assert (Hne : ~ (hkf == 0)%Q) by lra.
  rewrite (fdiv_nonzero _ _ Hne) in Eq. injection Eq as <-.
  unfold double_to_int64 in Em, Ek.
  destruct (_ && _) in Em; [| discriminate]. injection Em as <-.
  destruct (_ && _) in Ek; [| discriminate]. injection Ek as <-.
  pose proof (double_Z n ltac:(lia)) as HN.
  assert (Hn0 : (0 < inject_Z n)%Q).
  { change 0%Q with (inject_Z 0). rewrite <- Zlt_Qlt. lia. }
  assert (Hn52 : (inject_Z n <= inject_Z (2 ^ 52))%Q)
    by (rewrite <- Zle_Qle; lia).
  change (inject_Z (2 ^ 52)) with 4503599627370496%Q in Hn52.
  set (y := (inject_Z n * hkf)%Q).
  assert (Hy : (double (double (inject_Z n) * hkf) == double y)%Q).
  { apply double_comp. unfold y. rewrite HN. reflexivity. }
  assert (Hy0 : (0 < y)%Q) by (unfold y; apply Qmult_lt_0_compat; assumption).
  assert (Hyn : (y <= inject_Z n)%Q).
  { unfold y. rewrite <- (Qmult_1_r (inject_Z n)) at 2.
    apply Qmult_le_l; assumption. }
  assert (Hy52 : (y <= 4503599627370496 * hkf)%Q).
  { unfold y. apply Qmult_le_compat_r; lra. }
  pose proof (double_nonneg y ltac:(lra)) as Hdy.
  assert (Hdx : (0 <= double (double (inject_Z n) * hkf))%Q)
    by (rewrite Hy; exact Hdy).
  rewrite (Qtrunc_floor _ Hdx) in Hr.
  rewrite (Qfloor_comp _ _ Hy) in Hr.
  (* the draw is below the rounded product *)
  assert (Hr1 : (inject_Z r + 1 <= double y)%Q).
  { apply Qle_trans with (inject_Z (Qfloor (double y))); [| apply Qfloor_le].
    change 1%Q with (inject_Z 1). rewrite <- inject_Z_plus, <- Zle_Qle. lia. }
  assert (Hr0 : (0 <= inject_Z r)%Q).
  { change 0%Q with (inject_Z 0). rewrite <- Zle_Qle. lia. }
  assert (Hdn : (double y <= inject_Z n)%Q).
  { rewrite <- HN. apply double_le; lra. }
  assert (Hrn : r + 1 <= n).
  { rewrite Zle_Qle, inject_Z_plus. change (inject_Z 1) with 1%Q. lra. }
  pose proof (double_Z r ltac:(lia)) as HR.
  (* the product is a normal double, so its rounding is relative *)
  assert (Hnorm : (pow2 (- 1022) <= y)%Q).
  { destruct (Qlt_le_dec y (pow2 (- 1022))) as [Hs | Hs]; [| exact Hs].
    exfalso.
    assert (Hd : (double y <= double (pow2 (- 1022)))%Q)
      by (apply double_le; lra).
    rewrite double_smallest_normal in Hd.
    assert (Hlt : (pow2 (- 1022) < 1)%Q) by reflexivity.
    lra. }
  destruct (double_relative y Hnorm) as [_ Hup].
  change (pow2 (- 53)) with (1 # 9007199254740992)%Q in Hup.
  (* the quotient is at most nodeCount - 1/2, which is a double *)
  set (t := (double (inject_Z r) / hkf)%Q) in *.
  assert (Ht0 : (0 <= t)%Q).
  { unfold t. rewrite HR. apply Qle_shift_div_l; lra. }
  assert (Htn : (t <= inject_Z (2 * n - 1) * (1 # 2))%Q).
  { unfold t. rewrite HR. apply Qle_shift_div_r; [exact Hh |].
    assert (E : (inject_Z (2 * n - 1) * (1 # 2) * hkf == y - hkf * (1 # 2))%Q).
    { unfold y. replace (2 * n - 1) with (2 * n + - 1) by lia.
      rewrite inject_Z_plus, inject_Z_mult.
      change (inject_Z 2) with 2%Q. change (inject_Z (- 1)) with (- 1 # 1)%Q.
      ring. }
    rewrite E. lra. }
  assert (Hdt : (double t <= inject_Z (2 * n - 1) * (1 # 2))%Q).
  { rewrite <- (double_half (2 * n - 1)) by lia. apply double_le; assumption. }
  pose proof (double_nonneg t Ht0) as Hdt0.
  rewrite (Qtrunc_floor _ Hdt0). split; [apply Qfloor_nonneg; exact Hdt0 |].
  apply Qfloor_below.
  replace (2 * n - 1) with (2 * n + - 1) in Hdt by lia.
  rewrite inject_Z_plus, inject_Z_mult in Hdt.
  change (inject_Z 2) with 2%Q in Hdt.
  change (inject_Z (- 1)) with (- 1 # 1)%Q in Hdt. lra.
Qed.

Lemma getRandomKey_bounds (self : ReadWriteWorkload) (n : Z)
    (ds rest : list draw) (calls : list call) (k : Z) :
  0 < n < 2 ^ 63 ->
  (forceHotProbability self == 0)%Q \/
  ((0 < hotKeyFraction self)%Q /\ (hotKeyFraction self <= 1)%Q /\
   n <= 2 ^ 52) ->
  run (getRandomKey self n) ds = (Value k, rest, calls) ->
  0 <= k < n.
Proof.
  intros Hn Hhot E.
  assert (Hcold : forall ds' rest' calls',
             run (randomInt64 0 (to_int64 n)) ds' = (Value k, rest', calls') ->
             0 <= k < n).
  { intros ds' rest' calls' H. apply run_randomInt64 in H.
    rewrite to_int64_small in H by lia. exact H. }
  unfold getRandomKey in E.
  destruct (truthy (forceHotProbability self)) eqn:Et.
  - destruct Hhot as [Hz | (Hh & Hh1 & Hn52)];
      [apply truthy_false in Hz; congruence |].
    cbn [rbind run] in E.
    destruct ds as [| [u | z | id] ds']; try discriminate E.
    destruct (unit_draw u); [| discriminate E].
    destruct (Qltb u (forceHotProbability self)).
    + destruct (double_to_int64 (fmul (of_integer n) (hotKeyFraction self)))
        as [m |] eqn:Em; cbn [defined rbind run] in E; [| discriminate E].
      unfold randomInt64 in E.
      destruct (0 <? m); cbn [rbind run] in E; [| discriminate E].
      destruct ds' as [| [u' | r | id'] ds'']; try discriminate E.
      destruct ((0 <=? r) && (r <? m)) eqn:Er; [| discriminate E].
      apply andb_true_iff in Er as [Er1 Er2].
      apply Z.leb_le in Er1. apply Z.ltb_lt in Er2.
      destruct (fquot (of_integer r) (hotKeyFraction self)) as [q |] eqn:Eq;
        cbn [defined rbind run] in E; [| discriminate E].
      destruct (double_to_int64 q) as [k' |] eqn:Ek;
        cbn [defined run] in E; [| discriminate E].
      injection E as <- _ _.
      apply (hot_index_in_range (hotKeyFraction self) n m r q k');
        try assumption; lia.
    + destruct (run (randomInt64 0 (to_int64 n)) ds')
        as [[res rest'] calls'] eqn:Ec.
      injection E as -> _ _. apply (Hcold _ _ _ Ec).
  - cbn [rbind] in E. apply (Hcold _ _ _ E).
Qed.

(** X8.  Whatever the random source returns, an index that [getRandomKey]
    gives is an index of [0, nodeCount): with no forced hot traffic for
    [0 < nodeCount < 2^63], and on the hot branch as well, with its two
    roundings, for [0 < hotKeyFraction <= 1] and [nodeCount <= 2^52]. *)
Theorem getRandomKey_in_range (self : ReadWriteWorkload) (n : Z)
    (ds rest : list draw) (calls : list call) (k : Z) :
  0 < n < 2 ^ 63 ->
  (forceHotProbability self == 0)%Q \/
  ((0 < hotKeyFraction self)%Q /\ (hotKeyFraction self <= 1)%Q /\
   n <= 2 ^ 52) ->
  run (getRandomKey self n) ds = (Value k, rest, calls) ->
  0 <= k < n.
Proof.
  apply getRandomKey_bounds.
Qed.

(** The hot branch of [hot_tenth]: the draw 7 of [0, 10) gives index 70. *)
Lemma getRandomKey_in_range_witness :
  run (getRandomKey hot_tenth 100) [U01 (1 # 4); I64 7]
  = (Value 70, [], [CallRandom01; CallRandomInt64 0 10]) /\
  0 <= 70 < 100.
Proof.
  split; [reflexivity |].
  apply (getRandomKey_in_range hot_tenth 100
           [U01 (1 # 4); I64 7] [] [CallRandom01; CallRandomInt64 0 10] 70).
  - lia.
  - right. split; [reflexivity |]. split; [discriminate | lia].
  - reflexivity.
Defined.

(** ** What a transaction records *)

(** X9.  A transaction that does not go through (it throws, waits for ever
    or is stuck), or that ends outside the metrics window, leaves
    [latencies], [aTransactions] and [bTransactions] as they were, however
    many attempts it made. *)
Theorem transact_records_only_success (self : ReadWriteWorkload) (a : bool)
    (tstart : Q) (w w' : world) (o : outcome unit) :
  transact self a tstart w = (o, w') ->
  o <> Ok tt \/ shouldRecord self (clock w') = false ->
  untouched record_sample record_counter w w'.
Proof.
  intros E H. unfold transact, bind in E.
  pose proof (preserves_build _ _ _ frame_record self a tstart w) as Ub.
  destruct (build self a tstart w) as [[st | e | | x |] w1];
    cbn [snd] in Ub; try (injection E as _ <-; exact Ub).
  assert (P : preserves (untouched record_sample record_counter)
                        (retry self a st)).
  { apply (preserves_retry _ _ _ frame_record); try reflexivity.
    intros _. split; [intro; exact I | intro; reflexivity]. }
  specialize (P w1).
  destruct (retry self a st w1) as [[u | e | | x |] w2]; cbn [snd] in P;
    try (injection E as _ <-; exact (F_trans frame_record _ _ _ Ub P)).
  rewrite record_does in E. injection E as <- E.
  destruct H as [H | H]; [contradiction H; reflexivity |].
  assert (Hc : clock w' = clock w2).
  { subst w'. destruct (shouldRecord self (clock w2)); reflexivity. }
  rewrite Hc in H. rewrite H in E. subst w'.
  exact (F_trans frame_record _ _ _ Ub P).
Qed.

Lemma transact_records_only_success_witness :
  fst (transact retrying false 1 refused_world) = Throw 2000 /\
  untouched record_sample record_counter refused_world
    (snd (transact retrying false 1 refused_world)).
Proof.
  split; [reflexivity |].
  apply (transact_records_only_success retrying false 1 refused_world
           (snd (transact retrying false 1 refused_world))
           (fst (transact retrying false 1 refused_world))).
  - destruct (transact retrying false 1 refused_world); reflexivity.
  - left. vm_compute. discriminate.
Defined.

Lemma catch_Ok {A : Type} (c : M A) (h : Error -> M A) (w w' : world) (a : A) :
  catch c h w = (Ok a, w') ->
  c w = (Ok a, w') \/
  exists e w1, c w = (Throw e, w1) /\ h e w1 = (Ok a, w').
Proof.
  unfold catch. destruct (c w) as [[a0 | e | | x |] w1]; intro H;
    try discriminate H.
  - left. exact H.
  - right. exists e, w1. split; [reflexivity | exact H].
Qed.

Lemma recover_trace (self : ReadWriteWorkload) (e : Error) (w w' : world)
    (o : outcome unit) :
  recover self e w = (o, w') -> issued anything w w'.
Proof.
  apply preserved. apply (preserves_recover _ _ _ frame_trace); exact I.
Qed.

Lemma attempt_trace (self : ReadWriteWorkload) (a : bool) (st : built)
    (w w' : world) (o : outcome unit) :
  attempt self a st w = (o, w') -> issued anything w w'.
Proof.
  apply preserved. apply (preserves_attempt _ _ _ frame_trace).
  intros _. split; intro; exact I.
Qed.

Lemma retryLoop_commits_once (fuel : nat) (self : ReadWriteWorkload)
    (a : bool) (st : built) (w w' : world) :
  writes self a <> 0 ->
  retryLoop fuel self a st w = (Ok tt, w') ->
  exists (commitStart : Q) (ops : list (Q * txop)),
    trace w' = trace w ++ ops ++ [(commitStart, OpCommit)] /\
    samples (aggregates w') commitLatencies
    = samples (aggregates w) commitLatencies
      ++ (if shouldRecord self (clock w')
          then [(clock w' - commitStart)%Q] else []).
Proof.
  intro Hw. revert w. induction fuel as [| fuel IH]; intros w E;
    [discriminate E |].
  cbn [retryLoop] in E. apply catch_Ok in E as [E | (e & w1 & E1 & E)].
  - destruct (attempt_Ok _ _ _ _ _ Hw E) as (cs & ops & Et & Es & _).
    exists cs, ops. split; assumption.
  - apply bind_Ok in E as (u & w2 & Er & E).
    destruct (IH _ E) as (cs & ops & Et & Es).
    destruct (attempt_trace _ _ _ _ _ _ E1) as (ops1 & Et1 & _).
    destruct (recover_trace _ _ _ _ _ Er) as (ops2 & Et2 & _).
    destruct (attempt_Throw _ _ _ _ _ _ E1) as [S1 _].
    destruct u. destruct (recover_Ok _ _ _ _ Er) as (_ & _ & _ & S2 & _).
    exists cs, (ops1 ++ ops2 ++ ops). split.
    + rewrite Et, Et2, Et1. rewrite <- !app_assoc. reflexivity.
    + rewrite Es, S2, (S1 commitLatencies eq_refl). reflexivity.
Qed.

Lemma frame_commit_sample :
  frame (untouched commit_sample no_counter)
        anything (spares commit_sample no_counter).
Proof.
  apply frame_untouched.
  intros [[] x | [] | x] H; try discriminate H; try reflexivity; exact I.
Qed.

(** X10.  However many attempts the retry loop makes, a transaction with
    writes that goes through adds one sample to [commitLatencies] when it
    ends inside the window (none otherwise), the time from the issue of its
    last commit, the last operation of the loop, to the end; a transaction
    without writes never adds one. *)
Theorem commit_sampled_once (self : ReadWriteWorkload) (a : bool) (st : built) :
  (writes self a <> 0 ->
   forall w w' : world,
     retry self a st w = (Ok tt, w') ->
     exists (commitStart : Q) (ops : list (Q * txop)),
       trace w' = trace w ++ ops ++ [(commitStart, OpCommit)] /\
       samples (aggregates w') commitLatencies
       = samples (aggregates w) commitLatencies
         ++ (if shouldRecord self (clock w')
             then [(clock w' - commitStart)%Q] else [])) /\
  (writes self a = 0 ->
   forall w : world,
     samples (aggregates (snd (retry self a st w))) commitLatencies
     = samples (aggregates w) commitLatencies).
Proof.
  split.
  - intros Hw w w' E. unfold retry in E.
    exact (retryLoop_commits_once _ _ _ _ _ _ Hw E).
  - intros Hw w.
    assert (P : preserves (untouched commit_sample no_counter)
                          (retry self a st)).
    { apply (preserves_retry _ _ _ frame_commit_sample); try reflexivity.
      intro H. contradiction. }
    destruct (P w) as [S _]. apply S. reflexivity.
Qed.

Lemma commit_sampled_once_witness :
  exists (commitStart : Q) (ops : list (Q * txop)),
    trace (snd (retry retrying false
                  {| keys := [42]; values := [16; 16]; extra_ranges := [] |}
                  (set_draws [I64 1; I64 2; I64 3; I64 4] retry_world)))
    = trace (set_draws [I64 1; I64 2; I64 3; I64 4] retry_world)
      ++ ops ++ [(commitStart, OpCommit)].
Proof.
  assert (Hw : writes retrying false <> 0) by discriminate.
  edestruct (proj1 (commit_sampled_once retrying false
                      {| keys := [42]; values := [16; 16];
                         extra_ranges := [] |}) Hw
               (set_draws [I64 1; I64 2; I64 3; I64 4] retry_world))
    as (commitStart & ops & Ht & _).
  - vm_compute. reflexivity.
  - exists commitStart, ops. exact Ht.
Defined.

(** ** Retries *)

Lemma frame_retries_within : frame retries_within anything not_retries.
Proof.
  constructor; try (intros; exact I).
  - intro w. unfold retries_within. lia.
  - intros a b c [H1 H2] [H3 H4]. unfold retries_within. lia.
  - intros w n d _. unfold retries_within. cbn. lia.
  - intros ds w. unfold retries_within. cbn. lia.
  - intros op w _. unfold retries_within. cbn. lia.
  - intros u w Hu. unfold retries_within, account. cbn [aggregates].
    destruct (aggregates w), u as [[] x | [] | x]; cbn; try lia.
    contradiction Hu. reflexivity.
  - intros [[] x | [] | x] H; try discriminate H; intro E; discriminate E.
Qed.

Lemma recover_retries_within (self : ReadWriteWorkload) (e : Error) :
  preserves retries_within (recover self e).
Proof.
  intro w. unfold recover, shouldRecordNow, bind, now, wait, ret, when, modify.
  cbv zeta. cbn [replies emit].
  destruct (replies w) as [| [d v | d e0] rest];
    try (unfold retries_within; cbn; lia).
  cbn [clock advance emit account aggregates].
  destruct (shouldRecord self (clock w + d));
    unfold retries_within; cbn; destruct (aggregates w); cbn; lia.
Qed.

(** X11.  Over a whole transaction, whatever its outcome, neither retry
    counter goes down and the windowed [retries] counter grows by no more
    than [totalRetriesMetric]. *)
Theorem retries_within_total (self : ReadWriteWorkload) (a : bool)
    (tstart : Q) (w : world) :
  retries_within w (snd (transact self a tstart w)).
Proof.
  revert w. change (preserves retries_within (transact self a tstart)).
  unfold transact.
  apply (preserves_bind _ _ _ frame_retries_within);
    [apply (preserves_build _ _ _ frame_retries_within) | intro st].
  apply (preserves_bind _ _ _ frame_retries_within); [| intros _].
  - intro w. unfold retry.
    generalize (S (length (replies w))). intro fuel. revert w.
    change (preserves retries_within (retryLoop fuel self a st)).
    induction fuel as [| fuel IH]; cbn [retryLoop].
    + intro w. apply (F_refl frame_retries_within).
    + apply (preserves_catch _ _ _ frame_retries_within).
      * apply (preserves_attempt _ _ _ frame_retries_within).
        intros _. split; [intro; exact I | intros x E; discriminate E].
      * intro e. apply (preserves_bind _ _ _ frame_retries_within);
          [apply recover_retries_within | intros _; exact IH].
  - apply (preserves_record _ _ _ frame_retries_within);
      try (intro E; discriminate E).
    intros x E. discriminate E.
Qed.

(** ** What the reads count *)

Lemma total_app (xs ys : list Q) : (total (xs ++ ys) == total xs + total ys)%Q.
Proof.
  unfold total. induction xs as [| x xs IH]; cbn [app fold_right].
  - rewrite Qplus_0_l. reflexivity.
  - rewrite IH. apply Qplus_assoc.
Qed.

Lemma tallied_same (w w' : world) :
  aggregates w' = aggregates w -> tallied 0 [] w w'.
Proof.
  intro E. unfold tallied. rewrite E, app_nil_r. cbn.
  repeat split; try lia. ring.
Qed.

Lemma tallied_trans (r1 r2 : nat) (l1 l2 : list Q) (a b c : world) :
  tallied r1 l1 a b -> tallied r2 l2 b c -> tallied (r1 + r2) (l1 ++ l2) a c.
Proof.
  intros (A1 & A2 & A3 & A4) (B1 & B2 & B3 & B4). unfold tallied.
  rewrite B1, B2, B3, B4, A1, A2, A3, A4, length_app, app_assoc, total_app.
  repeat split; try lia. ring.
Qed.

Lemma tallied_read (w : world) :
  tallied 1 [] w (account (Incr totalReadsMetric) w).
Proof.
  unfold tallied, account. cbn.
  destruct (aggregates w). cbn. rewrite app_nil_r.
  repeat split; try lia. ring.
Qed.

Lemma logged_tallied (b : bool) (x : Q) (w : world) :
  fst (logged b x w) = Ok tt /\
  tallied 0 (if b then [x] else []) w (snd (logged b x w)).
Proof.
  destruct b; cbn.
  - split; [reflexivity |]. unfold tallied. cbn.
    destruct (aggregates w). cbn. repeat split; try lia. ring.
  - split; [reflexivity |]. apply tallied_same. reflexivity.
Qed.

Lemma wait_aggregates (op : txop) (w w' : world) (o : outcome Z) :
  wait op w = (o, w') -> aggregates w' = aggregates w.
Proof.
  unfold wait. cbv zeta.
  destruct (replies (emit op w)) as [| [d v | d e] rest]; intro H;
    injection H as _ <-; reflexivity.
Qed.

(** What [logLatency] logs is the time its read took. *)
Lemma logLatency_tallied (op : txop) (b : bool) (w w' : world) :
  logLatency op b w = (Ok tt, w') ->
  tallied 0 (if b then [(clock w' - clock w)%Q] else []) w w'.
Proof.
  intro E. unfold logLatency in E.
  apply bind_Ok in E as (t0 & w0 & E0 & E). injection E0 as <- <-.
  apply bind_Ok in E as (v & w1 & E1 & E).
  pose proof (wait_aggregates _ _ _ _ E1) as Ea.
  apply bind_Ok in E as (t1 & w2 & E2 & E). injection E2 as <- <-.
  destruct (logged_tallied b (clock w1 - clock w) w1) as [_ T].
  rewrite E in T. cbn [snd] in T.
  assert (Ec : clock w' = clock w1).
  { destruct b; cbn in E; injection E as <-; reflexivity. }
  rewrite Ec.
  apply (tallied_trans 0 0 [] _ w w1 w'); [apply tallied_same, Ea | exact T].
Qed.

Lemma dependent_reads_tallied (b : bool) (ks : list Z) (w w' : world) :
  forEach ks (fun key =>
    modify (Incr totalReadsMetric) ;; logLatency (OpGet key) b) w
  = (Ok tt, w') ->
  exists logs : list Q,
    tallied (List.length ks) logs w w' /\
    List.length logs = (if b then List.length ks else 0)%nat.
Proof.
  revert w. induction ks as [| k ks IH]; intros w E; cbn [forEach] in E.
  - injection E as <-. exists [].
    split; [apply tallied_same; reflexivity | destruct b; reflexivity].
  - apply bind_Ok in E as (u & w1 & E1 & E).
    apply bind_Ok in E1 as (u' & w0 & E0 & E1). injection E0 as _ <-.
    destruct u. apply logLatency_tallied in E1.
    apply IH in E as (logs & T & Hl).
    pose proof (tallied_trans _ _ _ _ _ _ _
                  (tallied_trans _ _ _ _ _ _ _ (tallied_read w) E1) T) as TT.
    eexists. split; [exact TT |].
    rewrite length_app, Hl. cbn [List.length app]. destruct b; reflexivity.
Qed.

Lemma parallel_reads_issued (self : ReadWriteWorkload) (ks : list Z)
    (w : world) :
  fst (forEach ks (fun key =>
         modify (Incr totalReadsMetric) ;; issue (getOp self key)) w) = Ok tt /\
  tallied (List.length ks) [] w
    (snd (forEach ks (fun key =>
            modify (Incr totalReadsMetric) ;; issue (getOp self key)) w)).
Proof.
  revert w. induction ks as [| k ks IH]; intro w; cbn [forEach].
  - split; [reflexivity | apply tallied_same; reflexivity].
  - unfold bind at 1. unfold bind at 1. cbn [modify issue].
    destruct (IH (emit (getOp self k) (account (Incr totalReadsMetric) w)))
      as [Ho T].
    unfold bind in *. cbn [modify issue] in *.
    split; [exact Ho |].
    apply (tallied_trans 1 _ [] [] w _ _ (tallied_read w)).
    apply (tallied_trans 0 _ [] [] _ _ _
             (tallied_same _ (emit (getOp self k)
                                (account (Incr totalReadsMetric) w)) eq_refl)).
    exact T.
Qed.

Lemma logs_tallied (b : bool) (rs : list reply) (w : world) :
  fst (forEach rs (fun r => logged b (delay_of r)) w) = Ok tt /\
  tallied 0 (if b then map delay_of rs else []) w
    (snd (forEach rs (fun r => logged b (delay_of r)) w)).
Proof.
  revert w. induction rs as [| r rs IH]; intro w; cbn [forEach].
  - split; [reflexivity |]. destruct b; apply tallied_same; reflexivity.
  - unfold bind.
    destruct (logged_tallied b (delay_of r) w) as [Ho T].
    destruct (logged b (delay_of r) w) as [o w1]. cbn [fst snd] in *.
    subst o. destruct (IH w1) as [Ho' T'].
    split; [exact Ho' |].
    pose proof (tallied_trans _ _ _ _ _ _ _ T T') as TT.
    cbn [map]. destruct b; exact TT.
Qed.

Lemma insert_by_delay_length (r : reply) (rs : list reply) :
  List.length (insert_by_delay r rs) = S (List.length rs).
Proof.
  induction rs as [| r' rs IH]; cbn [insert_by_delay]; [reflexivity |].
  destruct (Qle_bool (delay_of r) (delay_of r')); cbn [List.length];
    [reflexivity | rewrite IH; reflexivity].
Qed.

Lemma completion_order_length (rs : list reply) :
  List.length (completion_order rs) = List.length rs.
Proof.
  induction rs as [| r rs IH]; [reflexivity |].
  cbn [completion_order fold_right]. fold (completion_order rs).
  rewrite insert_by_delay_length, IH. reflexivity.
Qed.

Lemma waitForAll_tallied (n : nat) (b : bool) (w w' : world) :
  waitForAll n b w = (Ok tt, w') ->
  exists logs : list Q,
    tallied 0 logs w w' /\ List.length logs = (if b then n else 0)%nat.
Proof.
  intro E. unfold waitForAll in E.
  apply bind_Ok in E as (rs & w0 & E0 & E). injection E0 as <- <-.
  destruct (first_failure (firstn n (replies w))) as [[d e] |].
  - apply bind_Ok in E as (u & w1 & _ & E).
    apply bind_Ok in E as (u' & w2 & _ & E). discriminate E.
  - apply bind_Ok in E as (u & w1 & E1 & E). injection E1 as _ <-.
    apply bind_Ok in E as (u' & w2 & E2 & E).
    destruct (logs_tallied b (completion_order (firstn n (replies w)))
                (advance n (max_delay (firstn n (replies w))) w)) as [_ T].
    rewrite E2 in T. cbn [snd] in T.
    destruct (Nat.ltb_spec (List.length (firstn n (replies w))) n) as [Hlt | Hge];
      [discriminate E |].
    injection E as <-.
    assert (Hn : List.length (firstn n (replies w)) = n).
    { pose proof (firstn_le_length n (replies w)). lia. }
    exists ([] ++ (if b
                   then map delay_of (completion_order (firstn n (replies w)))
                   else [])).
    split.
    + apply (tallied_trans 0 0 [] _ w
               (advance n (max_delay (firstn n (replies w))) w) w2);
        [apply tallied_same; reflexivity | exact T].
    + cbn [app]. destruct b; [| reflexivity].
      rewrite length_map, completion_order_length. exact Hn.
Qed.

(** X12.  A [readOp] that returns has counted each of its keys once in
    [totalReadsMetric], in the parallel mode as in the dependent one; when
    told to record it has logged one latency per key, each of them a new
    [readLatencies] sample, one more on [readLatencyCount] and its value
    added to [readLatencyTotal]; when not, none of the three has changed. *)
Theorem readOp_tallies (self : ReadWriteWorkload) (ks : list Z) (b : bool)
    (w w' : world) :
  readOp self ks b w = (Ok tt, w') ->
  exists logs : list Q,
    List.length logs = (if b then List.length ks else 0)%nat /\
    count (aggregates w') totalReadsMetric
    = count (aggregates w) totalReadsMetric + Z.of_nat (List.length ks) /\
    count (aggregates w') readLatencyCount
    = count (aggregates w) readLatencyCount + Z.of_nat (List.length logs) /\
    samples (aggregates w') readLatencies
    = samples (aggregates w) readLatencies ++ logs /\
    (readLatencyTotal (aggregates w')
     == readLatencyTotal (aggregates w) + total logs)%Q.
Proof.
  intro E.
  enough (H : exists logs : list Q,
             tallied (List.length ks) logs w w' /\
             List.length logs = (if b then List.length ks else 0)%nat).
  { destruct H as (logs & T & Hl). exists logs. split; [exact Hl | exact T]. }
  unfold readOp in E.
  destruct (List.length ks =? 0)%nat eqn:E0.
  - apply Nat.eqb_eq in E0. rewrite E0. injection E as <-. exists [].
    split; [apply tallied_same; reflexivity | destruct b; reflexivity].
  - destruct (negb (dependentReads self)).
    + apply bind_Ok in E as (u & w1 & E1 & E).
      destruct (parallel_reads_issued self ks w) as [_ T1].
      rewrite E1 in T1. cbn [snd] in T1.
      apply waitForAll_tallied in E as (logs & T & Hl).
      pose proof (tallied_trans _ _ _ _ _ _ _ T1 T) as TT.
      rewrite Nat.add_0_r in TT. exists ([] ++ logs).
      split; [exact TT | exact Hl].
    + apply dependent_reads_tallied. exact E.
Qed.

(** The two parallel reads of [crossing_world]: the second is done first,
    and the latencies logged are 1s and 2s, 3s in total. *)
Lemma readOp_tallies_witness :
  exists logs : list Q,
    List.length logs = 2%nat /\
    samples (aggregates (snd (readOp defaults two_keys true crossing_world)))
            readLatencies
    = samples no_metrics readLatencies ++ logs /\
    (readLatencyTotal
       (aggregates (snd (readOp defaults two_keys true crossing_world)))
     == readLatencyTotal no_metrics + total logs)%Q.
Proof.
  destruct (readOp_tallies defaults two_keys true crossing_world
              (snd (readOp defaults two_keys true crossing_world)))
    as (logs & Hl & _ & _ & Hs & Ht).
  - reflexivity.
  - exists logs. split; [exact Hl |]. split; [exact Hs | exact Ht].
Defined.

(** ** The sizes of what is built *)

Lemma run_rbind_Value {A B : Type} (c : Rand A) (f : A -> Rand B)
    (ds rest : list draw) (calls : list call) (b : B) :
  run (rbind c f) ds = (Value b, rest, calls) ->
  exists (a : A) (rest1 : list draw) (calls1 calls2 : list call),
    run c ds = (Value a, rest1, calls1) /\
    run (f a) rest1 = (Value b, rest, calls2).
Proof.
  revert ds rest calls.
  induction c as [a | p k IH | p k IH | lo hi k IH | x];
    intros ds rest calls E; cbn [rbind run] in *.
  - exists a, ds, [], calls. split; [reflexivity | exact E].
  - destruct ds as [| [u | z | id] ds']; try discriminate E.
    destruct (unit_draw u); [| discriminate E].
    destruct (run (rbind (k (Qltb u p)) f) ds') as [[r rest'] calls'] eqn:Ek.
    injection E as -> -> _.
    destruct (IH _ _ _ _ Ek) as (a & rest1 & calls1 & calls2 & E1 & E2).
    exists a, rest1, (CallRandom01 :: calls1), calls2.
    rewrite E1. split; [reflexivity | exact E2].
  - destruct ds as [| [u | z | id] ds']; try discriminate E.
    destruct (unit_draw u); [| discriminate E].
    destruct (run (rbind (k (Qltb p u)) f) ds') as [[r rest'] calls'] eqn:Ek.
    injection E as -> -> _.
    destruct (IH _ _ _ _ Ek) as (a & rest1 & calls1 & calls2 & E1 & E2).
    exists a, rest1, (CallRandom01 :: calls1), calls2.
    rewrite E1. split; [reflexivity | exact E2].
  - destruct ds as [| [u | z | id] ds']; try discriminate E.
    destruct ((lo <=? z) && (z <? hi)); [| discriminate E].
    destruct (run (rbind (k z) f) ds') as [[r rest'] calls'] eqn:Ek.
    injection E as -> -> _.
    destruct (IH _ _ _ _ Ek) as (a & rest1 & calls1 & calls2 & E1 & E2).
    exists a, rest1, (CallRandomInt64 lo hi :: calls1), calls2.
    rewrite E1. split; [reflexivity | exact E2].
  - destruct x; discriminate E.
Qed.




Lemma In_range (n op : Z) : In op (range n) -> 0 <= op < n.
Proof.
  unfold range. rewrite in_map_iff. intros (i & <- & Hi).
  apply in_seq in Hi. lia.
Qed.




(** ** The periodic log *)

(** X14.  One turn of [tracePeriodically] clears the five reservoirs and
    resets the read total and count whatever the time, keeps the counters
    and remembers the operations counted; it appends its 26 metrics, all
    tagged with the new [elapsed], only when the whole logging interval,
    from [max(now - periodicLoggingInterval, clientBegin)] to [now], lies
    inside the metrics window, and nothing otherwise. *)
Theorem periodic_report_inside_window
    (mean median max : list Q -> Q) (percentile : Q -> list Q -> Q)
    (self : ReadWriteWorkload) (periodicLoggingInterval now : Q)
    (p p' : periodic) (m m' : metrics) :
  tracePeriodically mean median max percentile self
    periodicLoggingInterval now p m = Some (p', m') ->
  (forall s, samples m' s = []) /\
  count m' readLatencyCount = 0 /\ readLatencyTotal m' = 0%Q /\
  (forall c, c <> readLatencyCount -> count m' c = count m c) /\
  last_ops p' = operations self m /\
  elapsed p' = (elapsed p + periodicLoggingInterval)%Q /\
  exists added : list PerfMetric,
    periodicMetrics p' = periodicMetrics p ++ added /\
    (added = [] \/
     List.length added = 26%nat /\
     Forall (fun x => metric_elapsed x = elapsed p') added /\
     forall t : Q,
       (Qmax (now - periodicLoggingInterval) (clientBegin self) <= t)%Q ->
       (t <= now)%Q -> shouldRecord self t = true).
Proof.
  unfold tracePeriodically. cbv zeta.
  destruct (shouldRecord self (Qmax _ _) && shouldRecord self now) eqn:Eb.
  - destruct (fdiv _ periodicLoggingInterval) as [rate |]; [| discriminate].
    intro H. injection H as <- <-. cbn [last_ops elapsed periodicMetrics].
    split; [intros []; reflexivity |].
    split; [reflexivity |]. split; [reflexivity |].
    split; [intros [] Hc; try reflexivity; contradiction |].
    split; [reflexivity |]. split; [reflexivity |].
    eexists. split; [reflexivity |]. right.
    split; [reflexivity |]. split; [repeat constructor |].
    intros t Hlo Hhi. apply andb_true_iff in Eb as [E1 E2].
    apply shouldRecord_iff in E1, E2. apply shouldRecord_iff. lra.
  - intro H. injection H as <- <-. cbn [last_ops elapsed periodicMetrics].
    split; [intros []; reflexivity |].
    split; [reflexivity |]. split; [reflexivity |].
    split; [intros [] Hc; try reflexivity; contradiction |].
    split; [reflexivity |]. split; [reflexivity |].
    exists []. split; [symmetry; apply app_nil_r | left; reflexivity].
Qed.

Lemma periodic_report_inside_window_witness :
  exists (p' : periodic) (m' : metrics),
    tracePeriodically (fun _ => 0%Q) (fun _ => 0%Q) (fun _ => 0%Q)
      (fun _ _ => 0%Q) retrying 5 6
      {| elapsed := 0; last_ops := 0; periodicMetrics := [] |} no_metrics
    = Some (p', m') /\
    List.length (periodicMetrics p') = 26%nat /\
    last_ops p' = 0.
Proof.
  do 2 eexists. split; [vm_compute; reflexivity |].
  pose proof (fun p' m' =>
                periodic_report_inside_window
                  (fun _ => 0%Q) (fun _ => 0%Q) (fun _ => 0%Q)
                  (fun _ _ => 0%Q) retrying 5 6
                  {| elapsed := 0; last_ops := 0; periodicMetrics := [] |} p'
                  no_metrics m') as H.
  edestruct H as (_ & _ & _ & _ & Hl & _).
  - vm_compute. reflexivity.
  - split; [reflexivity | exact Hl].
Defined.

(** ** The shared read version, further *)

Section ReadVersionFurther.

Import ReadVersion.

Variable invalidVersion : Version.

(** X15.  A version that [getInconsistentReadVersion] hands out at once is
    never [invalidVersion]: it is the version returned by the refresh just
    before the one [nextRV] then stands for, so the caller is at most one
    refresh behind. *)
Theorem cached_version_one_behind (s s' : state) (v : Version) :
  reachable invalidVersion s ->
  getInconsistentReadVersion invalidVersion s = (Cached v, s') ->
  v <> invalidVersion /\
  exists i : nat,
    nextRV s' = Some (S i) /\
    nth_error (started s') i = Some (Returned v) /\
    List.length (started s') = S (S i).
Proof.
  intros Hr E.
  pose proof (request_settled invalidVersion s
                (reachable_settled invalidVersion s Hr)) as Hs.
  rewrite E in Hs. cbn [snd] in Hs.
  assert (Hl : lastRV s' = v /\ v <> invalidVersion).
  { unfold getInconsistentReadVersion, hand in E.
    destruct (peek s);
      try match type of E with
          | (if ?b then _ else _) = _ =>
            destruct b eqn:Eb; [discriminate E |];
            injection E as <- <-; apply Z.eqb_neq in Eb;
            split; [reflexivity | exact Eb]
          end.
    discriminate E. }
  destruct Hl as [Hl Hv]. split; [exact Hv |].
  destruct Hs as [(_ & _ & El) | (vs & a & Es & En & _ & _ & El)];
    [congruence |].
  destruct (exists_last (l := vs)) as [vs' [v' ->]].
  { intros ->. cbn in El. congruence. }
  rewrite last_last in El. assert (Hvv : v' = v) by congruence.
  rewrite Hvv in Es, En. clear El Hvv v'.
  exists (List.length vs'). repeat split.
  - rewrite En, length_app. cbn. f_equal. lia.
  - rewrite Es, map_app, <- app_assoc.
    rewrite nth_error_app2 by (rewrite length_map; lia).
    rewrite length_map, Nat.sub_diag. reflexivity.
  - rewrite Es, !length_app, length_map, length_app. cbn. lia.
Qed.

(** X16.  Once a refresh has thrown, the cache is broken for good: every
    request raises that error, no new refresh is started and no step
    changes the state. *)
Theorem broken_for_good (s : state) (e : Z) :
  reachable invalidVersion s ->
  peek s = Broken e ->
  getInconsistentReadVersion invalidVersion s = (Raised e, s) /\
  forall s' : state, step invalidVersion s s' -> s' = s.
Proof.
  intros Hr Hp. split.
  - unfold getInconsistentReadVersion. rewrite Hp. reflexivity.
  - intros s' Hstep.
    apply reachable_settled in Hr.
    destruct Hr as [(Es & En & El) | (vs & a & Es & En & _ & _ & El)].
    + unfold peek in Hp. rewrite En in Hp. discriminate Hp.
    + assert (Ha : a = Threw e).
      { unfold peek in Hp. rewrite En, Es, nth_error_newest in Hp.
        destruct a; try discriminate Hp. injection Hp as ->. reflexivity. }
      subst a. destruct Hstep as [s | s i v Hi Hv | s i e' Hi].
      * unfold getInconsistentReadVersion. rewrite Hp. reflexivity.
      * rewrite Es in Hi. apply nth_error_returned in Hi as [_ Hi].
        discriminate Hi.
      * rewrite Es in Hi. apply nth_error_returned in Hi as [_ Hi].
        discriminate Hi.
Qed.

End ReadVersionFurther.

Lemma reach_first_return :
  ReadVersion.reachable (-1)
    {| ReadVersion.started := [ReadVersion.Returned 5];
       ReadVersion.nextRV := Some 0%nat;
       ReadVersion.lastRV := -1 |}.
Proof.
  apply (ReadVersion.reach_step (-1)
           {| ReadVersion.started := [ReadVersion.Running];
              ReadVersion.nextRV := Some 0%nat;
              ReadVersion.lastRV := -1 |}).
  - apply (ReadVersion.reach_step (-1) (ReadVersion.initial (-1))).
    + apply ReadVersion.reach_initial.
    + exact (ReadVersion.step_request (-1) (ReadVersion.initial (-1))).
  - refine (ReadVersion.step_return (-1)
              {| ReadVersion.started := [ReadVersion.Running];
                 ReadVersion.nextRV := Some 0%nat;
                 ReadVersion.lastRV := -1 |} 0 5 eq_refl _).
    discriminate.
Qed.

Lemma reach_first_throw :
  ReadVersion.reachable (-1)
    {| ReadVersion.started := [ReadVersion.Threw 2000];
       ReadVersion.nextRV := Some 0%nat;
       ReadVersion.lastRV := -1 |}.
Proof.
  apply (ReadVersion.reach_step (-1)
           {| ReadVersion.started := [ReadVersion.Running];
              ReadVersion.nextRV := Some 0%nat;
              ReadVersion.lastRV := -1 |}).
  - apply (ReadVersion.reach_step (-1) (ReadVersion.initial (-1))).
    + apply ReadVersion.reach_initial.
    + exact (ReadVersion.step_request (-1) (ReadVersion.initial (-1))).
  - exact (ReadVersion.step_throw (-1)
             {| ReadVersion.started := [ReadVersion.Running];
                ReadVersion.nextRV := Some 0%nat;
                ReadVersion.lastRV := -1 |} 0 2000 eq_refl).
Qed.

Lemma cached_version_one_behind_witness : 5 <> -1.
Proof.
  eapply (cached_version_one_behind (-1)).
  - exact reach_first_return.
  - reflexivity.
Defined.

Lemma broken_for_good_witness :
  ReadVersion.getInconsistentReadVersion (-1)
    {| ReadVersion.started := [ReadVersion.Threw 2000];
       ReadVersion.nextRV := Some 0%nat;
       ReadVersion.lastRV := -1 |}
  = (ReadVersion.Raised 2000,
     {| ReadVersion.started := [ReadVersion.Threw 2000];
        ReadVersion.nextRV := Some 0%nat;
        ReadVersion.lastRV := -1 |}).
Proof.
  apply (broken_for_good (-1)).
  - exact reach_first_throw.
  - reflexivity.
Defined.

(** ** The keys read *)

Lemma run_rrepeat_Forall {A : Type} (P : A -> Prop) (n : nat) (c : Rand A) :
  (forall ds rest calls x, run c ds = (Value x, rest, calls) -> P x) ->
  forall ds rest calls xs,
    run (rrepeat n c) ds = (Value xs, rest, calls) -> Forall P xs.
Proof.
  intro H. induction n as [| n IH]; intros ds rest calls xs E;
    cbn [rrepeat] in E.
  - cbn in E. injection E as <- _ _. constructor.
  - apply run_rbind_Value in E as (x & r1 & c1 & c2 & Ex & E).
    apply run_rbind_Value in E as (xs' & r2 & c3 & c4 & E1 & E).
    cbn in E. injection E as <- _ _.
    constructor; [exact (H _ _ _ _ Ex) | exact (IH _ _ _ _ E1)].
Qed.

Lemma to_int_small (n : Z) : 0 <= n < 2 ^ 31 -> to_int n = n.
Proof.
  intro H. unfold to_int. rewrite Z.mod_small; lia.
Qed.

(** X17.  Every key a transaction reads is an index of the keyspace
    [0, nodeCount): with no forced hot traffic for [nodeCount < 2^63], with
    hot traffic ([0 < hotKeyFraction <= 1]) for [nodeCount <= 2^52]; and for
    adjacent reads, which form a block of [reads] consecutive indices, for
    [reads < nodeCount < 2^31] ([startKey] being an [int]). *)
Theorem chooseKeys_in_keyspace (self : ReadWriteWorkload) (n : Z)
    (ds rest : list draw) (calls : list call) (ks : list Z) :
  0 < nodeCount self < (if adjacentReads self then 2 ^ 31 else 2 ^ 63) ->
  (adjacentReads self = true -> 0 <= n < nodeCount self) ->
  (forceHotProbability self == 0)%Q \/
  ((0 < hotKeyFraction self)%Q /\ (hotKeyFraction self <= 1)%Q /\
   nodeCount self <= 2 ^ 52) ->
  run (chooseKeys self n) ds = (Value ks, rest, calls) ->
  Forall (fun k => 0 <= k < nodeCount self) ks /\
  (adjacentReads self = true ->
   exists startKey, ks = map (fun op => startKey + op) (range n)).
Proof.
  intros Hfit Hn Hhot E. unfold chooseKeys in E.
  destruct (adjacentReads self); cbn [negb] in E.
  - specialize (Hn eq_refl).
    apply run_rbind_Value in E as (k & r1 & c1 & c2 & Ek & E).
    cbn in E. injection E as <- _ _.
    assert (Hu : to_uint64 (nodeCount self - n) = nodeCount self - n).
    { unfold to_uint64. apply Z.mod_small. lia. }
    rewrite Hu in Ek.
    apply getRandomKey_bounds in Ek; [| lia |].
    + rewrite to_int_small by lia.
      split; [| intros _; exists k; reflexivity].
      apply Forall_forall. intros x Hx.
      apply in_map_iff in Hx as (op & <- & Hop).
      apply In_range in Hop. lia.
    + destruct Hhot as [Hz | (H1 & H2 & H3)]; [left; exact Hz | right].
      repeat split; try assumption. lia.
  - split; [| discriminate].
    refine (run_rrepeat_Forall _ _ _ _ _ _ _ _ E).
    intros ds' rest' calls' x Ex.
    apply (getRandomKey_bounds self (nodeCount self) ds' rest' calls' x);
      [lia | exact Hhot | exact Ex].
Qed.

(** Ten adjacent reads of [hot_adjacent]: the hot draw 7 of [0, 9) starts
    the block at index 70. *)
Lemma chooseKeys_in_keyspace_witness :
  Forall (fun k => 0 <= k < nodeCount hot_adjacent)
         [70; 71; 72; 73; 74; 75; 76; 77; 78; 79].
Proof.
  apply (chooseKeys_in_keyspace hot_adjacent 10 [U01 (1 # 4); I64 7] []
           [CallRandom01; CallRandomInt64 0 9]
           [70; 71; 72; 73; 74; 75; 76; 77; 78; 79]).
  - cbn. lia.
  - intros _. cbn. lia.
  - right. split; [reflexivity |]. split; [discriminate | cbn; lia].
  - reflexivity.
Defined.
